(** * Bootstrap storage of the snowman engine: gap resolution, chain linking,
      execution and the acceptor decorator

    A shallow embedding of
      - snow/engine/snowman/bootstrap/storage.go
          (getMissingBlockIDs, process, execute), and
      - snow/engine/snowman/bootstrap/acceptor.go
          (parseAcceptor.ParseBlock, blockAcceptor.Accept),
    with the properties their specification states.

    Conventions.
      - A uint64 (block height) and a uint (loop counter) are integers of [Z];
        every addition the Go code performs on them is written with its
        wrap-around ([u64]).
      - ids.ID is a 32-byte array that is only compared and stored in sets and
        maps; it is an opaque number here.
      - A Go function that returns [(T, error)] returns a [result T]; one that
        only returns [error] returns an [option error] ([None] is [nil]).
      - A database is its content together with a script of the outcomes of
        the storage operations still to come, so that every [err != nil]
        branch of the code can be taken.
      - Calls made on collaborators (Verify, Accept, batch writes, cursor
        releases, ...) are recorded in a trace, which the code cannot read.
      - Logging ([log], [time.Now], [timer.EstimateETA]) never changes what
        the functions return or write and is left out. *)

From Stdlib Require Import ZArith List Bool Lia.
From stdpp Require Import base tactics option list list_numbers gmap sets.

Open Scope Z_scope.

(** ** Machine integers, identifiers, errors *)

Definition u64 (x : Z) : Z := x mod 2 ^ 64.

Definition in_u64 (x : Z) : Prop := 0 <= x < 2 ^ 64.

Abbreviation ID := N (only parsing).

Abbreviation bytes := (list Byte.byte) (only parsing).

(** ids.Empty, the all-zero identifier. *)
Definition ids_Empty : ID := 0%N.

Inductive error : Type :=
| ErrNotFound                                   (* database.ErrNotFound *)
| ErrStorage (code : N)                         (* an I/O failure of the database *)
| ErrParse (code : N)                           (* the parser rejects the bytes *)
| ErrVM (code : N)                              (* an error of a block's own Verify or Accept *)
| ErrHook (code : N)                            (* an error of ctx.BlockAcceptor.Accept *)
| ErrContext                                    (* ctx.Err(): context.Canceled or DeadlineExceeded *)
| ErrFailedVerify (blkID : ID) (height : Z) (cause : error)
      (* fmt.Errorf("failed to verify block %s (%d) in bootstrapping: %w", ...) *)
| ErrFailedAccept (blkID : ID) (height : Z) (cause : error).
      (* fmt.Errorf("failed to accept block %s (%d) in bootstrapping: %w", ...) *)

Inductive result (A : Type) : Type :=
| Ok (a : A)
| Err (e : error).
Arguments Ok {A} a.
Arguments Err {A} e.

(** ** snowman.Block

    The methods the bootstrapper calls. [Verify] and [Accept] act on the state
    [W] of whatever stands behind the block (the VM, the ledger, metrics). *)

Record Block (W : Type) : Type := mkBlock {
  blk_ID : ID;
  blk_Parent : ID;
  blk_Height : Z;
  blk_Bytes : bytes;
  blk_Verify : W -> option error * W;
  blk_Accept : W -> option error * W
}.
Arguments mkBlock {W}.
Arguments blk_ID {W}.
Arguments blk_Parent {W}.
Arguments blk_Height {W}.
Arguments blk_Bytes {W}.
Arguments blk_Verify {W}.
Arguments blk_Accept {W}.

(** block.Parser / interval.Parser: ParseBlock(ctx, bytes). *)
Definition Parser (W : Type) : Type := bytes -> result (Block W).

(** ** The database

    Keys of the pending block store are heights (the real key is the big-endian
    height behind a one-byte prefix, so the byte order of the keys is the
    numeric order of the heights). The content is kept sorted by key because the
    cursor walks it in that order. *)

Record Database : Type := mkDatabase {
  db_blocks : list (Z * bytes);
  db_faults : list (option error)
}.

(** The outcome of the next storage operation: the head of the script, and
    success once the script is exhausted. *)
Definition storage_op (db : Database) : option error * Database :=
  match db_faults db with
  | [] => (None, db)
  | o :: fs => (o, mkDatabase (db_blocks db) fs)
  end.

Fixpoint kv_get (k : Z) (l : list (Z * bytes)) : option bytes :=
  match l with
  | [] => None
  | (k', v) :: l' => if k' =? k then Some v else kv_get k l'
  end.

Fixpoint kv_put (k : Z) (v : bytes) (l : list (Z * bytes)) : list (Z * bytes) :=
  match l with
  | [] => [(k, v)]
  | (k', v') :: l' =>
      if k <? k' then (k, v) :: (k', v') :: l'
      else if k =? k' then (k, v) :: l'
      else (k', v') :: kv_put k v l'
  end.

Definition kv_delete (k : Z) (l : list (Z * bytes)) : list (Z * bytes) :=
  filter (fun kv => kv.1 <> k) l.

(** A write batch: the operations queued so far, oldest first. *)
Inductive BatchOp : Type :=
| OpDelete (k : Z)
| OpPut (k : Z) (v : bytes).

Definition apply_op (l : list (Z * bytes)) (op : BatchOp) : list (Z * bytes) :=
  match op with
  | OpDelete k => kv_delete k l
  | OpPut k v => kv_put k v l
  end.

(** batch.Write(): all queued operations are applied, or none. *)
Definition batch_Write (batch : list BatchOp) (db : Database) : option error * Database :=
  match storage_op db with
  | (Some e, db') => (Some e, db')
  | (None, db') => (None, mkDatabase (foldl apply_op (db_blocks db') batch) (db_faults db'))
  end.

(** A cursor: the entries of the view taken when it was acquired that it has
    not returned yet, and the error it ran into. *)
Record Iterator : Type := mkIterator {
  it_rest : list (Z * bytes);
  it_err : option error
}.

(** iterator.Next(): the next entry, or nothing at the end of the view or on a
    storage failure (which iterator.Error() then reports). The call is a
    storage operation also when the view has no entry left: it may fail
    there as well. *)
Definition iterator_Next (it : Iterator) (db : Database)
  : option (Z * bytes) * Iterator * Database :=
  match it_rest it with
  | [] =>
      match storage_op db with
      | (Some e, db') => (None, mkIterator [] (Some e), db')
      | (None, db') => (None, it, db')
      end
  | kv :: rest =>
      match storage_op db with
      | (Some e, db') => (None, mkIterator rest (Some e), db')
      | (None, db') => (Some kv, mkIterator rest (it_err it), db')
      end
  end.

Definition iterator_Error (it : Iterator) : option error := it_err it.

(** ** Package interval

    The package is used by storage.go but is not part of the sources at hand;
    its operations follow the specification's description of the Interval Tree
    and of the Pending Block Store. *)

Module interval.

(** Modelled from the spec: the type Interval of package interval is missing;
    "an inclusive height range [lower, upper]". *)
Record Interval : Type := mkInterval {
  LowerBound : Z;
  UpperBound : Z
}.

(** Modelled from the spec: the type Tree of package interval is missing; "an
    ordered collection of Intervals", kept ascending by lower bound. *)
Definition Tree : Type := list Interval.

Definition covers_b (i : Interval) (h : Z) : bool :=
  (LowerBound i <=? h) && (h <=? UpperBound i).

(** Modelled from the spec: Tree.Flatten is missing; "ordered sequence of
    Interval, ascending by lower bound". *)
Definition Flatten (t : Tree) : list Interval := t.

(** Modelled from the spec: Tree.Len is missing; "total number of tracked
    heights (sum of interval sizes)". *)
Definition Len (t : Tree) : Z :=
  foldr (fun i n => UpperBound i - LowerBound i + 1 + n) 0 t.

Definition Contains (t : Tree) (h : Z) : bool :=
  existsb (fun i => covers_b i h) t.

(** The height [h] is tracked: some interval of the tree covers it. *)
Definition Tracks (t : Tree) (h : Z) : Prop :=
  ∃ i, i ∈ t ∧ LowerBound i <= h <= UpperBound i.

(** Modelled from the spec: the invariant of the Interval Tree; the intervals
    are ascending and "no two stored intervals overlap or are adjacent". *)
Fixpoint Invariant (t : Tree) : Prop :=
  match t with
  | [] => True
  | i :: rest =>
      LowerBound i <= UpperBound i
      ∧ match rest with
        | [] => True
        | j :: _ => UpperBound i + 1 < LowerBound j
        end
      ∧ Invariant rest
  end.

(** Modelled from the spec: the insertion of a height into the tree is
    missing; "an Interval is created when inserting a height that isn't
    adjacent to any existing interval; it grows/merges when an inserted
    height is adjacent to an existing interval's boundary, absorbing and
    removing the neighbor if both boundaries now touch". *)
Fixpoint insert (h : Z) (t : Tree) : Tree :=
  match t with
  | [] => [mkInterval h h]
  | i :: rest =>
      if h + 1 <? LowerBound i then mkInterval h h :: i :: rest
      else if h + 1 =? LowerBound i then mkInterval h (UpperBound i) :: rest
      else if h <=? UpperBound i then i :: rest
      else if h =? UpperBound i + 1 then
        match rest with
        | j :: rest' =>
            if LowerBound j =? h + 1
            then mkInterval (LowerBound i) (UpperBound j) :: rest'
            else mkInterval (LowerBound i) h :: rest
        | [] => [mkInterval (LowerBound i) h]
        end
      else i :: insert h rest
  end.

(** Modelled from the spec: the removal of a height from the tree is missing;
    it "shrinks or splits the covering interval", which "is removed entirely"
    when it held that height only. *)
Fixpoint delete (h : Z) (t : Tree) : Tree :=
  match t with
  | [] => []
  | i :: rest =>
      if h <? LowerBound i then i :: rest
      else if h <=? UpperBound i then
        if LowerBound i =? UpperBound i then rest
        else if h =? LowerBound i then mkInterval (h + 1) (UpperBound i) :: rest
        else if h =? UpperBound i then mkInterval (LowerBound i) (h - 1) :: rest
        else mkInterval (LowerBound i) (h - 1) :: mkInterval (h + 1) (UpperBound i) :: rest
      else i :: delete h rest
  end.

(** The interval of the tree that covers [h]. *)
Definition covering (h : Z) (t : Tree) : option Interval :=
  find (fun i => covers_b i h) t.

(** Modelled from the spec: interval.GetBlock is missing; the "durable
    height-keyed store of block bytes" is read at one height. *)
Definition GetBlock (db : Database) (height : Z) : result bytes * Database :=
  match storage_op db with
  | (Some e, db') => (Err e, db')
  | (None, db') =>
      match kv_get height (db_blocks db') with
      | Some b => (Ok b, db')
      | None => (Err ErrNotFound, db')
      end
  end.

(** Modelled from the spec: interval.GetBlockIterator is missing; "an ordered
    cursor over height-keyed entries ... against a consistent view at
    acquisition time". *)
Definition GetBlockIterator (db : Database) : Iterator :=
  mkIterator (db_blocks db) None.

(** Modelled from the spec: interval.Add is missing. Add "persists the
    block's bytes under its height key in the Pending Block Store (within the
    same logical operation); inserts/merges the height into the tree. Returns
    true iff, after merging, the covering interval's lower bound equals this
    block's height and that height is strictly greater than
    lastAcceptedHeight + 1". *)
Definition Add {W} (db : Database) (tree : Tree) (lastAcceptedHeight : Z) (blk : Block W)
  : result bool * Database * Tree :=
  let height := blk_Height blk in
  match storage_op db with
  | (Some e, db') => (Err e, db', tree)
  | (None, db') =>
      let db'' := mkDatabase (kv_put height (blk_Bytes blk) (db_blocks db')) (db_faults db') in
      let tree' := insert height tree in
      let wantsParent :=
        match covering height tree' with
        | Some i => (LowerBound i =? height) && (lastAcceptedHeight + 1 <? height)
        | None => false
        end in
      (Ok wantsParent, db'', tree')
  end.

(** Modelled from the spec: interval.Remove is missing. Remove "deletes the
    stored bytes for height as part of a caller-supplied batched write;
    shrinks or splits the covering interval". The deletion is queued in the
    batch and reaches the database when the batch is written. *)
Definition Remove (db : Database) (batch : list BatchOp) (tree : Tree) (height : Z)
  : option error * Database * list BatchOp * Tree :=
  match storage_op db with
  | (Some e, db') => (Some e, db', batch, tree)
  | (None, db') => (None, db', batch ++ [OpDelete height], delete height tree)
  end.

End interval.

Import interval.

(** ** storage.go: constants *)

Definition batchWritePeriod : Z := 64.
Definition iteratorReleasePeriod : Z := 1024.

(** ** storage.go: getMissingBlockIDs *)

Section GetMissingBlockIDs.
Context {W : Type}.
Variable parser : Parser W.

(** The body of [for _, i := range intervals]. *)
Fixpoint getMissingBlockIDs_range (lastHeightToFetch : Z) (intervals : list Interval)
    (db : Database) (missingBlocks : gset ID) : result (gset ID) * Database :=
  match intervals with
  | [] => (Ok missingBlocks, db)
  | i :: intervals' =>
      if LowerBound i <=? lastHeightToFetch
      then getMissingBlockIDs_range lastHeightToFetch intervals' db missingBlocks
      else
        match GetBlock db (LowerBound i) with
        | (Err e, db') => (Err e, db')
        | (Ok blkBytes, db') =>
            match parser blkBytes with
            | Err e => (Err e, db')
            | Ok blk =>
                let parentID := blk_Parent blk in
                getMissingBlockIDs_range lastHeightToFetch intervals' db'
                  ({[parentID]} ∪ missingBlocks)
            end
        end
  end.

Definition getMissingBlockIDs (db : Database) (tree : Tree) (lastAcceptedHeight : Z)
  : result (gset ID) * Database :=
  let intervals := Flatten tree in
  let lastHeightToFetch := u64 (lastAcceptedHeight + 1) in
  getMissingBlockIDs_range lastHeightToFetch intervals db ∅.

End GetMissingBlockIDs.

(** ** storage.go: process *)

Section Process.
Context {W : Type}.

(** What a call of [process] reads and changes: the database, the tree and
    the set of missing identifiers; [ls_adds] records every call of
    interval.Add with the block passed and what the call returned. *)
Record LinkState : Type := mkLinkState {
  ls_db : Database;
  ls_tree : Tree;
  ls_missingBlockIDs : gset ID;
  ls_adds : list (Block W * result bool)
}.

(** The [for] loop of [process] has no bound of its own: [fuel] bounds the
    number of iterations and [None] means that it did not suffice. The value
    returned is the triple (ids.ID, bool, error) of the Go function. *)
Fixpoint process (fuel : nat) (s : LinkState) (blk : Block W)
    (ancestors : gmap ID (Block W)) (lastAcceptedHeight : Z)
  : option (ID * bool * option error * LinkState) :=
  match fuel with
  | O => None
  | S fuel' =>
      let blkID := blk_ID blk in
      let missingBlockIDs := ls_missingBlockIDs s ∖ {[blkID]} in
      let '(r, db', tree') := Add (ls_db s) (ls_tree s) lastAcceptedHeight blk in
      let s' := mkLinkState db' tree' missingBlockIDs (ls_adds s ++ [(blk, r)]) in
      match r with
      | Err err => Some (ids_Empty, false, Some err, s')
      | Ok wantsParent =>
          if negb wantsParent then Some (ids_Empty, false, None, s')
          else
            let parentID := blk_Parent blk in
            match ancestors !! parentID with
            | None => Some (parentID, true, None, s')
            | Some parent => process fuel' s' parent ancestors lastAcceptedHeight
            end
      end
  end.

End Process.

Arguments LinkState W : clear implicits.

(** ** storage.go: execute *)

(** context.Context as [execute] sees it: the number of evaluations of
    ctx.Err() after which the context is found cancelled ([None]: never). A
    cancelled context stays cancelled. *)
Definition Context : Type := option nat.

Definition ctx_Err (ctx : Context) (polls : nat) : option error :=
  match ctx with
  | Some n => if (n <=? polls)%nat then Some ErrContext else None
  | None => None
  end.

(** Calls that [execute] makes on its collaborators. *)
Inductive Event : Type :=
| EvAcquire (view : list Z)                     (* interval.GetBlockIterator(db): the keys of the view *)
| EvRelease                                     (* iterator.Release() *)
| EvRemove (height : Z)                         (* interval.Remove(batch, tree, height) returned nil *)
| EvWrite (ops : list BatchOp) (r : option error) (* batch.Write() *)
| EvVerify (blkID : ID) (height : Z) (r : option error)
| EvAccept (blkID : ID) (height : Z) (r : option error).

Section Execute.
Context {W : Type}.
Variable ctx : Context.
Variable parser : Parser W.
Variable lastAcceptedHeight : Z.

(** The objects [execute] was handed ([x_db], [x_tree], and [x_world] behind
    the blocks), its local variables, and the record of what it did. *)
Record ExecState : Type := mkExecState {
  x_db : Database;
  x_tree : Tree;
  x_world : W;
  x_batch : list BatchOp;
  x_processedSinceBatchWrite : Z;
  x_iterator : Iterator;
  x_processedSinceIteratorRelease : Z;
  x_polls : nat;
  x_trace : list Event
}.

Definition Exec (A : Type) : Type := ExecState -> result A * ExecState.

Definition ret {A} (a : A) : Exec A := fun s => (Ok a, s).

Definition fail {A} (e : error) : Exec A := fun s => (Err e, s).

Definition bind {A B} (m : Exec A) (k : A -> Exec B) : Exec B :=
  fun s => match m s with
           | (Ok a, s') => k a s'
           | (Err e, s') => (Err e, s')
           end.

#[local] Notation "m1 ;; m2" := (bind m1 (fun _ => m2))
  (at level 100, m2 at level 200, right associativity).

(** [if err := f(); err != nil { return err }] *)
Definition check (r : option error) : Exec unit :=
  match r with
  | Some e => fail e
  | None => ret tt
  end.

Definition emit (ev : Event) : Exec unit :=
  fun s => (Ok tt,
    mkExecState (x_db s) (x_tree s) (x_world s) (x_batch s)
      (x_processedSinceBatchWrite s) (x_iterator s)
      (x_processedSinceIteratorRelease s) (x_polls s) (x_trace s ++ [ev])).

(** The closure [writeBatch]. *)
Definition writeBatch : Exec unit :=
  fun s =>
    if x_processedSinceBatchWrite s =? 0 then (Ok tt, s)
    else
      let '(r, db') := batch_Write (x_batch s) (x_db s) in
      let s1 := mkExecState db' (x_tree s) (x_world s) (x_batch s)
                  0 (x_iterator s) (x_processedSinceIteratorRelease s)
                  (x_polls s) (x_trace s ++ [EvWrite (x_batch s) r]) in
      match r with
      | Some e => (Err e, s1)
      | None =>
          (* batch.Reset() *)
          (Ok tt, mkExecState db' (x_tree s) (x_world s) []
                    0 (x_iterator s) (x_processedSinceIteratorRelease s)
                    (x_polls s) (x_trace s1))
      end.

(** [interval.Remove(batch, tree, height)] *)
Definition removeBlock (height : Z) : Exec unit :=
  fun s =>
    let '(r, db', batch', tree') := Remove (x_db s) (x_batch s) (x_tree s) height in
    match r with
    | Some e =>
        (Err e, mkExecState db' tree' (x_world s) batch'
                  (x_processedSinceBatchWrite s) (x_iterator s)
                  (x_processedSinceIteratorRelease s) (x_polls s) (x_trace s))
    | None =>
        (Ok tt, mkExecState db' tree' (x_world s) batch'
                  (x_processedSinceBatchWrite s) (x_iterator s)
                  (x_processedSinceIteratorRelease s) (x_polls s)
                  (x_trace s ++ [EvRemove height]))
    end.

(** [processedSinceBatchWrite++] followed by the periodic write. *)
Definition countBatchWrite : Exec unit :=
  fun s =>
    let n := u64 (x_processedSinceBatchWrite s + 1) in
    let s1 := mkExecState (x_db s) (x_tree s) (x_world s) (x_batch s)
                n (x_iterator s) (x_processedSinceIteratorRelease s)
                (x_polls s) (x_trace s) in
    if batchWritePeriod <=? n then writeBatch s1 else (Ok tt, s1).

(** [iterator.Release(); iterator = interval.GetBlockIterator(db)] with
    [processedSinceIteratorRelease = 0] before them. *)
Definition reacquireIterator : Exec unit :=
  fun s =>
    (Ok tt,
     mkExecState (x_db s) (x_tree s) (x_world s) (x_batch s)
       (x_processedSinceBatchWrite s) (GetBlockIterator (x_db s)) 0 (x_polls s)
       (x_trace s ++ [EvRelease; EvAcquire (map fst (db_blocks (x_db s)))])).

(** [processedSinceIteratorRelease++] followed by the periodic release. *)
Definition countIteratorRelease : Exec unit :=
  fun s =>
    let n := u64 (x_processedSinceIteratorRelease s + 1) in
    let s1 := mkExecState (x_db s) (x_tree s) (x_world s) (x_batch s)
                (x_processedSinceBatchWrite s) (x_iterator s) n
                (x_polls s) (x_trace s) in
    if iteratorReleasePeriod <=? n then
      (check (iterator_Error (x_iterator s1)) ;;
       writeBatch ;;
       reacquireIterator) s1
    else (Ok tt, s1).

Definition verifyBlock (blk : Block W) : Exec unit :=
  fun s =>
    let '(r, w') := blk_Verify blk (x_world s) in
    let s1 := mkExecState (x_db s) (x_tree s) w' (x_batch s)
                (x_processedSinceBatchWrite s) (x_iterator s)
                (x_processedSinceIteratorRelease s) (x_polls s)
                (x_trace s ++ [EvVerify (blk_ID blk) (blk_Height blk) r]) in
    match r with
    | Some err => (Err (ErrFailedVerify (blk_ID blk) (blk_Height blk) err), s1)
    | None => (Ok tt, s1)
    end.

Definition acceptBlock (blk : Block W) : Exec unit :=
  fun s =>
    let '(r, w') := blk_Accept blk (x_world s) in
    let s1 := mkExecState (x_db s) (x_tree s) w' (x_batch s)
                (x_processedSinceBatchWrite s) (x_iterator s)
                (x_processedSinceIteratorRelease s) (x_polls s)
                (x_trace s ++ [EvAccept (blk_ID blk) (blk_Height blk) r]) in
    match r with
    | Some err => (Err (ErrFailedAccept (blk_ID blk) (blk_Height blk) err), s1)
    | None => (Ok tt, s1)
    end.

(** The body of the [for] loop, for the entry the cursor stands on. *)
Definition iteration (blkBytes : bytes) : Exec unit :=
  match parser blkBytes with
  | Err e => fail e
  | Ok blk =>
      let height := blk_Height blk in
      removeBlock height ;;
      countBatchWrite ;;
      countIteratorRelease ;;
      if height <=? lastAcceptedHeight then ret tt
      else
        verifyBlock blk ;;
        acceptBlock blk
  end.

(** The loop condition [ctx.Err() == nil && iterator.Next()]: the entry to
    process, if the loop goes on. *)
Definition loopCondition (s : ExecState) : option (Z * bytes) * ExecState :=
  let polled := mkExecState (x_db s) (x_tree s) (x_world s) (x_batch s)
                  (x_processedSinceBatchWrite s) (x_iterator s)
                  (x_processedSinceIteratorRelease s) (S (x_polls s)) (x_trace s) in
  match ctx_Err ctx (x_polls s) with
  | Some _ => (None, polled)
  | None =>
      let '(kv, it', db') := iterator_Next (x_iterator s) (x_db s) in
      (kv, mkExecState db' (x_tree s) (x_world s) (x_batch s)
             (x_processedSinceBatchWrite s) it'
             (x_processedSinceIteratorRelease s) (S (x_polls s)) (x_trace s))
  end.

(** The [for] loop. Nothing in the code bounds the number of iterations (the
    cursor is replaced by a fresh one every [iteratorReleasePeriod] entries):
    [fuel] does, and [None] means that it did not suffice. *)
Fixpoint executeLoop (fuel : nat) (s : ExecState) : option (result unit * ExecState) :=
  match fuel with
  | O => None
  | S fuel' =>
      match loopCondition s with
      | (None, s1) => Some (Ok tt, s1)
      | (Some kv, s1) =>
          match iteration kv.2 s1 with
          | (Err e, s2) => Some (Err e, s2)
          | (Ok _, s2) => executeLoop fuel' s2
          end
      end
  end.

(** What follows the loop. *)
Definition afterLoop : Exec unit :=
  writeBatch ;;
  (fun s => check (iterator_Error (x_iterator s)) s) ;;
  (fun s =>
     let polled := mkExecState (x_db s) (x_tree s) (x_world s) (x_batch s)
                     (x_processedSinceBatchWrite s) (x_iterator s)
                     (x_processedSinceIteratorRelease s) (S (x_polls s)) (x_trace s) in
     check (ctx_Err ctx (x_polls s)) polled).

(** [execute]: what it returns ([None] is nil) and the state it leaves; the
    deferred [iterator.Release()] runs on every way out. *)
Definition execute (fuel : nat) (db : Database) (tree : Tree) (world : W)
  : option (option error * ExecState) :=
  let s0 := mkExecState db tree world [] 0 (GetBlockIterator db) 0 O
              [EvAcquire (map fst (db_blocks db))] in
  match executeLoop fuel s0 with
  | None => None
  | Some (r, s1) =>
      let '(r', s2) := match r with
                       | Err e => (Err e, s1)
                       | Ok _ => afterLoop s1
                       end in
      let '(_, s3) := emit EvRelease s2 in
      Some (match r' with Err e => Some e | Ok _ => None end, s3)
  end.

End Execute.

Arguments ExecState W : clear implicits.

(** ** acceptor.go *)

(** Calls made by blockAcceptor.Accept, in the order they are made. *)
Inductive AcceptorEvent : Type :=
| EvInc                                         (* b.numAccepted.Inc() *)
| EvHook (blkID : ID) (blkBytes : bytes)        (* b.ctx.BlockAcceptor.Accept(b.ctx, b.ID(), b.Bytes()) *)
| EvBlockAccept (blkID : ID).                   (* b.Block.Accept(ctx) *)

Section Acceptor.
(** [V] is the state behind the wrapped block and behind the hook. *)
Context {V : Type}.

(** ctx.BlockAcceptor.Accept, the "block accepted" hook of the consensus
    context. *)
Variable BlockAcceptor_Accept : ID -> bytes -> V -> option error * V.

(** The state behind a blockAcceptor: the counter [numAccepted] (a
    prometheus.Counter, here the number of times Inc was called on it), the
    state of the wrapped block, and the calls made so far. *)
Record AcceptorWorld : Type := mkAcceptorWorld {
  numAccepted : Z;
  aw_inner : V;
  aw_calls : list AcceptorEvent
}.

Definition blockAcceptor_Accept (b : Block V) (w : AcceptorWorld)
  : option error * AcceptorWorld :=
  let w1 := mkAcceptorWorld (numAccepted w + 1) (aw_inner w) (aw_calls w ++ [EvInc]) in
  let '(r, v) := BlockAcceptor_Accept (blk_ID b) (blk_Bytes b) (aw_inner w1) in
  let w2 := mkAcceptorWorld (numAccepted w1) v
              (aw_calls w1 ++ [EvHook (blk_ID b) (blk_Bytes b)]) in
  match r with
  | Some err => (Some err, w2)
  | None =>
      let '(r', v') := blk_Accept b (aw_inner w2) in
      (r', mkAcceptorWorld (numAccepted w2) v' (aw_calls w2 ++ [EvBlockAccept (blk_ID b)]))
  end.

(** The methods that blockAcceptor inherits from the embedded snowman.Block
    act on the state of the wrapped block only. *)
Definition embedded (f : V -> option error * V) (w : AcceptorWorld)
  : option error * AcceptorWorld :=
  let '(r, v) := f (aw_inner w) in
  (r, mkAcceptorWorld (numAccepted w) v (aw_calls w)).

(** [&blockAcceptor{Block: blk, ctx: p.ctx, numAccepted: p.numAccepted}] *)
Definition blockAcceptor (blk : Block V) : Block AcceptorWorld :=
  mkBlock (blk_ID blk) (blk_Parent blk) (blk_Height blk) (blk_Bytes blk)
    (embedded (blk_Verify blk))
    (blockAcceptor_Accept blk).

Definition parseAcceptor_ParseBlock (parser : Parser V) : Parser AcceptorWorld :=
  fun bytes =>
    match parser bytes with
    | Err err => Err err
    | Ok blk => Ok (blockAcceptor blk)
    end.

End Acceptor.

Arguments AcceptorWorld V : clear implicits.

(** ** Reading traces *)

Definition is_inc (ev : AcceptorEvent) : bool :=
  match ev with
  | EvInc => true
  | _ => false
  end.

(** The number of calls of numAccepted.Inc() among [calls]. *)
Definition increments (calls : list AcceptorEvent) : nat :=
  length (List.filter is_inc calls).

(** ** Notions of the specification *)

(** The tracked heights form one run that reaches down to [first]: every
    height from [first] up to a tracked height is tracked. With
    [first = lastAcceptedHeight + 1] the run is connected to the accepted
    prefix. *)
Definition contiguous_from (first : Z) (t : Tree) : Prop :=
  ∀ h top, Tracks t top → first <= h <= top → Tracks t h.

(** The block stored at [height] is [blk]: the pending block store holds bytes
    under that key and the parser accepts them. *)
Definition stored_block {W} (parser : Parser W) (db : Database) (height : Z)
    (blk : Block W) : Prop :=
  ∃ blkBytes, kv_get height (db_blocks db) = Some blkBytes ∧ parser blkBytes = Ok blk.

(** The walks the Chain Linker may make from a block, the store and the tree
    being [db] and [tree] when it starts and [db'] and [tree'] when it ends.
    Every block of the walk is passed to interval.Add, once, on the store and
    the tree that the Adds before it left. The walk goes on to the parent
    only after an Add that returned true and only when the parent is in
    [ancestors]; it ends when Add fails or returns false, with nothing to
    request, or when the parent is not in [ancestors], with the parent to
    request. [visited] lists the blocks passed to Add with what Add returned;
    [out] is the triple (ids.ID, bool, error) returned. *)
Inductive Walk {W} (ancestors : gmap ID (Block W)) (lastAcceptedHeight : Z)
  : Database → Tree → Block W → list (Block W * result bool)
    → ID * bool * option error → Database → Tree → Prop :=
| Walk_failed db tree blk err db' tree' :
    Add db tree lastAcceptedHeight blk = (Err err, db', tree') →
    Walk ancestors lastAcceptedHeight db tree blk
      [(blk, Err err)] (ids_Empty, false, Some err) db' tree'
| Walk_connected db tree blk db' tree' :
    Add db tree lastAcceptedHeight blk = (Ok false, db', tree') →
    Walk ancestors lastAcceptedHeight db tree blk
      [(blk, Ok false)] (ids_Empty, false, None) db' tree'
| Walk_request db tree blk db' tree' :
    Add db tree lastAcceptedHeight blk = (Ok true, db', tree') →
    ancestors !! blk_Parent blk = None →
    Walk ancestors lastAcceptedHeight db tree blk
      [(blk, Ok true)] (blk_Parent blk, true, None) db' tree'
| Walk_parent db tree blk parent db1 tree1 visited out db' tree' :
    Add db tree lastAcceptedHeight blk = (Ok true, db1, tree1) →
    ancestors !! blk_Parent blk = Some parent →
    Walk ancestors lastAcceptedHeight db1 tree1 parent visited out db' tree' →
    Walk ancestors lastAcceptedHeight db tree blk
      ((blk, Ok true) :: visited) out db' tree'.


(** The identifiers of the blocks of a walk. *)
Definition visited_IDs {W} (visited : list (Block W * result bool)) : gset ID :=
  list_to_set (map (fun v => blk_ID v.1) visited).

(** ** Sample data

    A concrete parser, concrete blocks and stores, on which the definitions
    above can be run. A sample block is laid out on three bytes: its height on
    two (low byte first) and a flag that makes its Verify (1) or its Accept (2)
    fail. Its identifier is its height and its parent is the block one below;
    the state behind sample blocks is the list of the identifiers accepted so
    far, newest first. *)

Module Sample.

Definition World : Type := list ID.

Definition byte_of (n : N) : Byte.byte := default Byte.x00 (Byte.of_N n).

Definition encode (height : Z) (flag : N) : bytes :=
  [byte_of (Z.to_N (height mod 256)); byte_of (Z.to_N (height / 256)); byte_of flag].

Definition block (height : Z) (flag : N) : Block World :=
  mkBlock (Z.to_N height) (Z.to_N (height - 1)) height (encode height flag)
    (fun w => (if (flag =? 1)%N then Some (ErrVM 1) else None, w))
    (fun w => if (flag =? 2)%N then (Some (ErrVM 2), w) else (None, Z.to_N height :: w)).

Definition parser : Parser World :=
  fun blkBytes =>
    match blkBytes with
    | [lo; hi; flag] =>
        Ok (block (Z.of_N (Byte.to_N lo) + 256 * Z.of_N (Byte.to_N hi)) (Byte.to_N flag))
    | _ => Err (ErrParse 0)
    end.

(** The store that holds the sound blocks of heights [first], ...,
    [first + count - 1] and never fails. *)
Definition store (first count : Z) : Database :=
  mkDatabase (map (fun h => (h, encode h 0)) (seqZ first count)) [].

(** The blocks that [store first count] holds. *)
Definition blocks (first count : Z) : list (Block World) :=
  map (fun h => block h 0) (seqZ first count).

(** The same store where the block at [bad] carries [flag]. *)
Definition store_with (first count bad : Z) (flag : N) : Database :=
  mkDatabase
    (map (fun h => (h, encode h (if h =? bad then flag else 0%N))) (seqZ first count))
    [].

(** The tree and the store of the scenario "tree holds intervals
    {[4,4], [6,7]}". *)
Definition gapTree : Tree := [mkInterval 4 4; mkInterval 6 7].

Definition gapStore : Database :=
  mkDatabase [(4, encode 4 0); (6, encode 6 0); (7, encode 7 0)] [].

(** The ancestors map and the state of the scenario where block 5 arrives
    with its ancestors 4 and 3. *)
Definition ancestors : gmap ID (Block World) :=
  <[4%N := block 4 0]> {[3%N := block 3 0]}.

Definition linkState : LinkState World :=
  mkLinkState (mkDatabase [] []) [] {[5%N; 9%N]} [].



End Sample.

(** ** The schedule of the Executor, in the words of the specification

    What a run of the Executor that meets no error does, block after block:
    "queue removal of its tree/store entry into the current batch"; "flush the
    queued batch of deletions every 64 processed entries"; "every 1024
    processed entries force a flush, then release and reacquire the underlying
    storage cursor"; skip verification and acceptance "if its height is <=
    lastAcceptedHeight", "otherwise call Verify then Accept on the block". *)

Section Schedule.
Context {W : Type}.
Variable lastAcceptedHeight : Z.

(** Verify, then Accept, both without error. *)
Definition executed_calls (blk : Block W) : list Event :=
  [EvVerify (blk_ID blk) (blk_Height blk) None;
   EvAccept (blk_ID blk) (blk_Height blk) None].

(** The events of the blocks [blks], read in this order, when [n] entries were
    processed before them, the deletions of [pending] are queued, and the
    cursor still has the keys [later] to return after them. *)
Fixpoint scheduled_events (n : Z) (pending : list Z) (blks : list (Block W))
    (later : list Z) : list Event :=
  match blks with
  | [] => []
  | blk :: blks' =>
      let height := blk_Height blk in
      let flush := (n + 1) mod batchWritePeriod =? 0 in
      let release := (n + 1) mod iteratorReleasePeriod =? 0 in
      [EvRemove height]
      ++ (if flush then [EvWrite (map OpDelete (pending ++ [height])) None] else [])
      ++ (if release then [EvRelease; EvAcquire (map blk_Height blks' ++ later)] else [])
      ++ (if height <=? lastAcceptedHeight then [] else executed_calls blk)
      ++ scheduled_events (n + 1) (if flush then [] else pending ++ [height]) blks' later
  end.

(** What is still queued after the entries [todo], when [n] entries were
    processed before them and [pending] was queued. *)
Fixpoint scheduled_pending {A} (n : Z) (pending : list A) (todo : list A) : list A :=
  match todo with
  | [] => pending
  | x :: todo' =>
      scheduled_pending (n + 1)
        (if (n + 1) mod batchWritePeriod =? 0 then [] else pending ++ [x]) todo'
  end.

(** The write that follows the loop: the queued deletions, if there are any. *)
Definition final_write (pending : list Z) : list Event :=
  match pending with
  | [] => []
  | _ => [EvWrite (map OpDelete pending) None]
  end.

(** The whole run over the blocks [blks], the cursor being left with the keys
    [later] (none unless the run is cancelled). *)
Definition scheduled_trace (blks : list (Block W)) (later : list Z) : list Event :=
  [EvAcquire (map blk_Height blks ++ later)]
  ++ scheduled_events 0 [] blks later
  ++ final_write (scheduled_pending 0 [] (map blk_Height blks))
  ++ [EvRelease].

(** The state behind the blocks once those of [blks] above the last accepted
    height were verified and accepted. *)
Fixpoint world_after (blks : list (Block W)) (w : W) : W :=
  match blks with
  | [] => w
  | blk :: blks' =>
      if blk_Height blk <=? lastAcceptedHeight then world_after blks' w
      else world_after blks' (blk_Accept blk (blk_Verify blk w).2).2
  end.

(** No Verify and no Accept fails during that run. *)
Fixpoint blocks_succeed (blks : list (Block W)) (w : W) : Prop :=
  match blks with
  | [] => True
  | blk :: blks' =>
      if blk_Height blk <=? lastAcceptedHeight then blocks_succeed blks' w
      else (blk_Verify blk w).1 = None
           ∧ (blk_Accept blk (blk_Verify blk w).2).1 = None
           ∧ blocks_succeed blks' (blk_Accept blk (blk_Verify blk w).2).2
  end.

End Schedule.

(** The entries [entries] of the store hold the blocks [blks], each under its
    own height. *)
Definition holds_blocks {W} (parser : Parser W) (entries : list (Z * bytes))
    (blks : list (Block W)) : Prop :=
  Forall2 (fun kv blk => parser kv.2 = Ok blk ∧ blk_Height blk = kv.1) entries blks.

(** The counts among [first], ..., [first + len - 1] that are multiples of the
    period [p]. *)
Definition multiples (p first len : Z) : list Z :=
  List.filter (fun c => c mod p =? 0) (seqZ first len).

(** *** Readings of a trace *)

Definition is_block_call (ev : Event) : bool :=
  match ev with
  | EvVerify _ _ _ | EvAccept _ _ _ => true
  | _ => false
  end.

(** The calls of Verify and Accept, in order. *)
Definition block_calls (trace : list Event) : list Event :=
  List.filter is_block_call trace.

(** The heights passed to interval.Remove, in order. *)
Fixpoint removed (trace : list Event) : list Z :=
  match trace with
  | [] => []
  | EvRemove h :: trace' => h :: removed trace'
  | _ :: trace' => removed trace'
  end.

(** For every release of the cursor, the number of entries processed before it
    ([count] were processed before the trace) and the deletions that were
    queued and not written at that moment ([queued] at the start). *)
Fixpoint releases (count : Z) (queued : list Z) (trace : list Event)
  : list (Z * list Z) :=
  match trace with
  | [] => []
  | EvRemove h :: trace' => releases (count + 1) (queued ++ [h]) trace'
  | EvWrite _ None :: trace' => releases count [] trace'
  | EvRelease :: trace' => (count, queued) :: releases count queued trace'
  | _ :: trace' => releases count queued trace'
  end.

(** For every acquisition of a cursor, the number of entries processed before
    it and the keys of its view. *)
Fixpoint acquisitions (count : Z) (trace : list Event) : list (Z * list Z) :=
  match trace with
  | [] => []
  | EvRemove _ :: trace' => acquisitions (count + 1) trace'
  | EvAcquire view :: trace' => (count, view) :: acquisitions count trace'
  | _ :: trace' => acquisitions count trace'
  end.

(** For every batch write, the number of entries processed before it and the
    number of operations written. *)
Fixpoint writes (count : Z) (trace : list Event) : list (Z * nat) :=
  match trace with
  | [] => []
  | EvRemove _ :: trace' => writes (count + 1) trace'
  | EvWrite ops _ :: trace' => (count, length ops) :: writes count trace'
  | _ :: trace' => writes count trace'
  end.

(** The operations of the batches written with success, in order. *)
Fixpoint written (trace : list Event) : list BatchOp :=
  match trace with
  | [] => []
  | EvWrite ops None :: trace' => ops ++ written trace'
  | _ :: trace' => written trace'
  end.

(** The heights whose deletion was queued after the last batch written with
    success ([queued] were queued before the trace). *)
Fixpoint unwritten (queued : list Z) (trace : list Event) : list Z :=
  match trace with
  | [] => queued
  | EvRemove h :: trace' => unwritten (queued ++ [h]) trace'
  | EvWrite _ None :: trace' => unwritten [] trace'
  | _ :: trace' => unwritten queued trace'
  end.

(** The error that [execute] makes of a call of Verify or Accept that failed. *)
Definition failed_call (ev : Event) : option error :=
  match ev with
  | EvVerify blkID height (Some cause) => Some (ErrFailedVerify blkID height cause)
  | EvAccept blkID height (Some cause) => Some (ErrFailedAccept blkID height cause)
  | _ => None
  end.

(** A call of Verify or Accept is on a block above [lastAcceptedHeight]. *)
Definition above (lastAcceptedHeight : Z) (ev : Event) : Prop :=
  match ev with
  | EvVerify _ height _ | EvAccept _ height _ => lastAcceptedHeight < height
  | _ => True
  end.

(** The store holds what the batches written with success made of the content
    [blocks0] it had when [execute] was called, the batch holds the deletions
    queued since the last of these writes, and the deletion of every height
    passed to interval.Remove was written or is queued in the batch. *)
Definition durable {W} (blocks0 : list (Z * bytes)) (s : ExecState W) : Prop :=
  db_blocks (x_db s) = foldl apply_op blocks0 (written (x_trace s))
  ∧ x_batch s = map OpDelete (unwritten [] (x_trace s))
  ∧ written (x_trace s) ++ x_batch s = map OpDelete (removed (x_trace s)).

(** The counter of the entries processed since the last write counts the
    operations queued in the batch, fewer than [batchWritePeriod]. *)
Definition counted {W} (s : ExecState W) : Prop :=
  x_processedSinceBatchWrite s = Z.of_nat (length (x_batch s))
  ∧ Z.of_nat (length (x_batch s)) < batchWritePeriod.

(** The store, the calls and the failures of a trace are in order: the state
    is [durable], every call of Verify or Accept is on a block above
    [lastAcceptedHeight], and none of them failed. *)
Definition quiet {W} (blocks0 : list (Z * bytes)) (lastAcceptedHeight : Z)
    (s : ExecState W) : Prop :=
  durable blocks0 s
  ∧ Forall (above lastAcceptedHeight) (x_trace s)
  ∧ Forall (fun ev => failed_call ev = None) (x_trace s).

(** The deletion of [height] is queued in the batch or was written. *)
Definition kept {W} (height : Z) (s : ExecState W) : Prop :=
  In (OpDelete height) (x_batch s) ∨ In (OpDelete height) (written (x_trace s)).

(** What the steps of [execute] that make no call on a block leave as it is. *)
Definition frame {W} (blocks0 : list (Z * bytes)) (lastAcceptedHeight : Z)
    (s s' : ExecState W) : Prop :=
  x_world s' = x_world s
  ∧ block_calls (x_trace s') = block_calls (x_trace s)
  ∧ (∀ height, kept height s → kept height s')
  ∧ (quiet blocks0 lastAcceptedHeight s → quiet blocks0 lastAcceptedHeight s').

(** How a run ended: without any failed call of Verify or Accept, or with
    such a call as the last event and its error as the result. *)
Definition ending {W} (r : result unit) (s : ExecState W) : Prop :=
  (Forall (fun ev => failed_call ev = None) (x_trace s) ∧ (r = Ok tt → counted s))
  ∨ (∃ pre ev e,
       x_trace s = pre ++ [ev]
       ∧ Forall (fun ev' => failed_call ev' = None) pre
       ∧ failed_call ev = Some e
       ∧ r = Err e
       ∧ counted s).

(** *** Further readings of a trace *)

(** Whether a cursor is held after [trace], [live] telling whether one was
    held before it; nothing when the trace acquires a cursor while one is held
    or releases a cursor that is not held. *)
Fixpoint live_after (live : bool) (trace : list Event) : option bool :=
  match trace with
  | [] => Some live
  | EvAcquire _ :: trace' => if live then None else live_after true trace'
  | EvRelease :: trace' => if live then live_after false trace' else None
  | _ :: trace' => live_after live trace'
  end.

Definition is_accept (ev : Event) : bool :=
  match ev with
  | EvAccept _ _ _ => true
  | _ => false
  end.

(** The number of calls of Accept. *)
Definition accept_calls (trace : list Event) : nat :=
  length (List.filter is_accept trace).

(** How the calls of a run end, [w1] being the state behind the blocks after
    the calls that succeeded, [r] what [execute] returns and [w'] the state
    left: with no further call, with a Verify that failed, or with a Verify
    that succeeded and an Accept that failed. *)
Definition call_end {W} (parser : Parser W) (lastAcceptedHeight : Z) (w1 : W)
    (tail : list Event) (r : option error) (w' : W) : Prop :=
  (tail = [] ∧ w' = w1)
  ∨ (∃ blk cause,
       (∃ blkBytes, parser blkBytes = Ok blk)
       ∧ lastAcceptedHeight < blk_Height blk
       ∧ blk_Verify blk w1 = (Some cause, w')
       ∧ tail = [EvVerify (blk_ID blk) (blk_Height blk) (Some cause)]
       ∧ r = Some (ErrFailedVerify (blk_ID blk) (blk_Height blk) cause))
  ∨ (∃ blk cause wv,
       (∃ blkBytes, parser blkBytes = Ok blk)
       ∧ lastAcceptedHeight < blk_Height blk
       ∧ blk_Verify blk w1 = (None, wv)
       ∧ blk_Accept blk wv = (Some cause, w')
       ∧ tail = [EvVerify (blk_ID blk) (blk_Height blk) None;
                 EvAccept (blk_ID blk) (blk_Height blk) (Some cause)]
       ∧ r = Some (ErrFailedAccept (blk_ID blk) (blk_Height blk) cause)).

(** The state of a run on blockAcceptors, seen from the wrapped blocks: the
    same state, with the state behind the wrapped blocks for the state behind
    the blockAcceptors. *)
Definition inner_state {V} (s : ExecState (AcceptorWorld V)) : ExecState V :=
  mkExecState (x_db s) (x_tree s) (aw_inner (x_world s)) (x_batch s)
    (x_processedSinceBatchWrite s) (x_iterator s)
    (x_processedSinceIteratorRelease s) (x_polls s) (x_trace s).

(** The identifiers of the blocks on which Accept was called, in order. *)
Fixpoint accepted_IDs (trace : list Event) : list ID :=
  match trace with
  | [] => []
  | EvAccept blkID _ _ :: trace' => blkID :: accepted_IDs trace'
  | _ :: trace' => accepted_IDs trace'
  end.

(** The identifiers of the blocks passed to the hook, in order. *)
Fixpoint hooked_IDs (calls : list AcceptorEvent) : list ID :=
  match calls with
  | [] => []
  | EvHook blkID _ :: calls' => blkID :: hooked_IDs calls'
  | _ :: calls' => hooked_IDs calls'
  end.

(** * Properties *)

(** ** The sample data *)

Lemma Sample_byte_of (n : N) : (n < 256)%N → Byte.to_N (Sample.byte_of n) = n.
Proof.
  intros Hn. unfold Sample.byte_of.
  destruct (Byte.of_N n) as [b|] eqn:Hb; simpl.
  - by apply Byte.to_of_N.
  - apply Byte.of_N_None_iff in Hb. lia.
Qed.

Lemma Sample_parse (h : Z) (flag : N) :
  0 <= h < 65536 → (flag < 256)%N →
  Sample.parser (Sample.encode h flag) = Ok (Sample.block h flag).
Proof.
  intros Hh Hflag. unfold Sample.parser, Sample.encode.
  pose proof (Z.mod_pos_bound h 256 ltac:(lia)).
  pose proof (Z.div_mod h 256 ltac:(lia)).
  assert (0 <= h / 256 < 256) by (split; [apply Z.div_pos; lia|apply Z.div_lt_upper_bound; lia]).
  rewrite !Sample_byte_of by lia. rewrite !Z2N.id by lia.
  do 2 f_equal. lia.
Qed.

Lemma Forall2_map_same {A B C} (P : B → C → Prop) (f : A → B) (g : A → C) (l : list A) :
  Forall (fun x => P (f x) (g x)) l → Forall2 P (map f l) (map g l).
Proof. induction 1; simpl; by constructor. Qed.

Lemma Sample_store_keys (first count : Z) :
  map fst (db_blocks (Sample.store first count)) = seqZ first count.
Proof.
  unfold Sample.store. simpl. rewrite map_map. simpl. apply map_id.
Qed.

Lemma Sample_store_length (first count : Z) :
  length (db_blocks (Sample.store first count)) = Z.to_nat count.
Proof. unfold Sample.store. simpl. by rewrite length_map, length_seqZ. Qed.

Lemma Sample_holds_blocks (first count : Z) :
  0 <= first → first + count <= 65536 →
  holds_blocks Sample.parser (db_blocks (Sample.store first count))
    (Sample.blocks first count).
Proof.
  intros Hfirst Hcount. unfold holds_blocks, Sample.store, Sample.blocks. simpl.
  apply Forall2_map_same, Forall_seqZ. intros h Hh.
  split; [apply (Sample_parse h 0); lia|done].
Qed.

Lemma Sample_blocks_succeed (H : Z) (heights : list Z) :
  ∀ w, blocks_succeed H (map (fun h => Sample.block h 0) heights) w.
Proof.
  induction heights as [|h heights IH]; intros w; simpl; [done|].
  destruct (h <=? H); [apply IH|]. repeat split. apply IH.
Qed.

(** ** The acceptor decorator *)

Section AcceptorFacts.
Context {V : Type}.
Variable hook : ID -> bytes -> V -> option error * V.

Lemma blockAcceptor_Accept_unfold (b : Block V) (w : AcceptorWorld V) :
  blockAcceptor_Accept hook b w =
    let h := hook (blk_ID b) (blk_Bytes b) (aw_inner w) in
    let calls := aw_calls w ++ [EvInc; EvHook (blk_ID b) (blk_Bytes b)] in
    match h.1 with
    | Some err => (Some err, mkAcceptorWorld (numAccepted w + 1) h.2 calls)
    | None =>
        let a := blk_Accept b h.2 in
        (a.1, mkAcceptorWorld (numAccepted w + 1) a.2
                (calls ++ [EvBlockAccept (blk_ID b)]))
    end.
Proof.
  unfold blockAcceptor_Accept; simpl.
  destruct (hook (blk_ID b) (blk_Bytes b) (aw_inner w)) as [[err|] v]; simpl.
  - by rewrite <- app_assoc.
  - destruct (blk_Accept b v) as [r v']; simpl. by rewrite <- !app_assoc.
Qed.

(** C8. Accept calls the hook first; when the hook fails, its error is what
    Accept returns and the wrapped block's Accept is not called; when the
    hook succeeds, the wrapped Accept is called, once, on the state the hook
    left, and Accept returns what it returns. *)
Theorem blockAcceptor_Accept_hook_first (b : Block V) (w : AcceptorWorld V) :
  let h := hook (blk_ID b) (blk_Bytes b) (aw_inner w) in
  let out := blockAcceptor_Accept hook b w in
  match h.1 with
  | Some err =>
      out.1 = Some err
      ∧ aw_inner out.2 = h.2
      ∧ aw_calls out.2 = aw_calls w ++ [EvInc; EvHook (blk_ID b) (blk_Bytes b)]
  | None =>
      out.1 = (blk_Accept b h.2).1
      ∧ aw_inner out.2 = (blk_Accept b h.2).2
      ∧ aw_calls out.2 =
          aw_calls w ++ [EvInc; EvHook (blk_ID b) (blk_Bytes b); EvBlockAccept (blk_ID b)]
  end.
Proof.
  intros h out. subst h out. rewrite blockAcceptor_Accept_unfold.
  destruct (hook (blk_ID b) (blk_Bytes b) (aw_inner w)) as [[err|] v]; simpl;
    repeat split; try done.
  by rewrite <- app_assoc.
Qed.

(** C10. Whatever the hook and the wrapped Accept return, a call of Accept
    adds exactly one to numAccepted, and the increment is the first thing the
    call does, before the hook runs. *)
Theorem blockAcceptor_Accept_counts_attempts (b : Block V) (w : AcceptorWorld V) :
  let out := blockAcceptor_Accept hook b w in
  numAccepted out.2 = numAccepted w + 1
  ∧ (∃ later, aw_calls out.2
              = aw_calls w ++ EvInc :: EvHook (blk_ID b) (blk_Bytes b) :: later)
  ∧ increments (aw_calls out.2) = S (increments (aw_calls w)).
Proof.
  intros out. subst out. rewrite blockAcceptor_Accept_unfold.
  destruct (hook (blk_ID b) (blk_Bytes b) (aw_inner w)) as [[err|] v]; simpl.
  - split; [done|]. split; [by exists []|].
    unfold increments. rewrite List.filter_app, length_app. simpl. lia.
  - split; [done|]. split; [by rewrite <- app_assoc; eexists|].
    unfold increments. rewrite !List.filter_app, !length_app. simpl. lia.
Qed.

End AcceptorFacts.

(** ** The Gap Resolver *)

Lemma u64_small (x : Z) : 0 <= x < 2 ^ 64 → u64 x = x.
Proof. intros. unfold u64. by apply Z.mod_small. Qed.

Lemma storage_op_blocks (db : Database) : db_blocks (storage_op db).2 = db_blocks db.
Proof. unfold storage_op. by destruct (db_faults db). Qed.

Lemma storage_op_no_faults (db : Database) :
  db_faults db = [] → storage_op db = (None, db).
Proof. unfold storage_op. by intros ->. Qed.

Lemma GetBlock_blocks (db : Database) (h : Z) :
  db_blocks (GetBlock db h).2 = db_blocks db.
Proof.
  unfold GetBlock. pose proof (storage_op_blocks db) as Hb.
  destruct (storage_op db) as [[e|] db']; simpl in *; [done|].
  by destruct (kv_get h (db_blocks db')).
Qed.

Lemma GetBlock_Ok (db : Database) (h : Z) (b : bytes) :
  (GetBlock db h).1 = Ok b → kv_get h (db_blocks db) = Some b.
Proof.
  unfold GetBlock. pose proof (storage_op_blocks db) as Hb.
  destruct (storage_op db) as [[e|] db']; simpl in *; [done|].
  rewrite Hb. destruct (kv_get h (db_blocks db)); naive_solver.
Qed.

Lemma GetBlock_no_faults (db : Database) (h : Z) (b : bytes) :
  db_faults db = [] → kv_get h (db_blocks db) = Some b → GetBlock db h = (Ok b, db).
Proof.
  intros Hf Hk. unfold GetBlock. rewrite storage_op_no_faults by done. by rewrite Hk.
Qed.

Section GapResolver.
Context {W : Type}.
Variable parser : Parser W.

Lemma stored_block_blocks (db db' : Database) (h : Z) (blk : Block W) :
  db_blocks db' = db_blocks db →
  stored_block parser db' h blk ↔ stored_block parser db h blk.
Proof. unfold stored_block. by intros ->. Qed.

(** The loop returns the empty set only if it started from the empty set and
    fetched no block at all. *)
Lemma getMissingBlockIDs_range_empty (L : Z) (ivs : list Interval) :
  ∀ db acc,
    (getMissingBlockIDs_range parser L ivs db acc).1 = Ok ∅
    ↔ acc = ∅ ∧ Forall (fun i => LowerBound i <= L) ivs.
Proof.
  induction ivs as [|i ivs IH]; intros db acc; simpl.
  - split; [intros [= ->]; by split | by intros [-> _]].
  - destruct (Z.leb_spec (LowerBound i) L) as [Hle|Hgt].
    + rewrite IH. rewrite Forall_cons. naive_solver.
    + split.
      * destruct (GetBlock db (LowerBound i)) as [[b|e] db']; [|done].
        destruct (parser b) as [blk|e]; [|done].
        rewrite IH. intros [Hne _]. exfalso. set_solver.
      * intros [_ Hall]. apply Forall_cons in Hall as [? _]. lia.
Qed.

(** What the loop returns when it returns a set. *)
Lemma getMissingBlockIDs_range_Ok (L : Z) (ivs : list Interval) :
  ∀ db acc s,
    (getMissingBlockIDs_range parser L ivs db acc).1 = Ok s →
    ∀ id, id ∈ s ↔
          id ∈ acc
          ∨ ∃ i blk, i ∈ ivs ∧ L < LowerBound i
                     ∧ stored_block parser db (LowerBound i) blk
                     ∧ blk_Parent blk = id.
Proof.
  induction ivs as [|i ivs IH]; intros db acc s; simpl.
  - intros [= ->] id. split; [by left|]. intros [?|(i & ? & Hin & _)]; [done|].
    by apply elem_of_nil in Hin.
  - destruct (Z.leb_spec (LowerBound i) L) as [Hle|Hgt].
    + intros Hr id. rewrite (IH _ _ _ Hr). split.
      * intros [?|(j & blk & ? & ?)]; [by left|]. right. exists j, blk.
        rewrite elem_of_cons. naive_solver.
      * intros [?|(j & blk & [->|?]%elem_of_cons & ? & ?)]; [by left|lia|].
        right. by exists j, blk.
    + pose proof (GetBlock_blocks db (LowerBound i)) as Hb.
      pose proof (GetBlock_Ok db (LowerBound i)) as Hget.
      destruct (GetBlock db (LowerBound i)) as [[b|e] db']; [|done].
      simpl in Hb. specialize (Hget b eq_refl).
      destruct (parser b) as [blk|e] eqn:Hp; [|done].
      intros Hr id. rewrite (IH _ _ _ Hr).
      setoid_rewrite (stored_block_blocks db db' _ _ Hb).
      rewrite elem_of_union, elem_of_singleton. split.
      * intros [[->|?]|(j & blk' & ? & ?)].
        -- right. exists i, blk. split; [by left|]. split; [done|].
           split; [by exists b|done].
        -- by left.
        -- right. exists j, blk'. rewrite elem_of_cons. naive_solver.
      * intros [?|(j & blk' & [->|?]%elem_of_cons & ? & Hs & ?)].
        -- left. by right.
        -- left. left. destruct Hs as (b' & Hk & Hp'). congruence.
        -- right. by exists j, blk'.
Qed.

(** Without storage failures the loop returns a set as soon as every block
    it reads is stored and parses. *)
Lemma getMissingBlockIDs_range_total (L : Z) (ivs : list Interval) :
  ∀ db acc,
    db_faults db = [] →
    (∀ i, i ∈ ivs → L < LowerBound i →
          ∃ blk, stored_block parser db (LowerBound i) blk) →
    ∃ s, getMissingBlockIDs_range parser L ivs db acc = (Ok s, db).
Proof.
  induction ivs as [|i ivs IH]; intros db acc Hf Hall; simpl.
  - by eexists.
  - destruct (Z.leb_spec (LowerBound i) L) as [Hle|Hgt].
    + apply IH; [done|]. intros j Hj. apply Hall. by right.
    + destruct (Hall i) as (blk & b & Hk & Hp); [by left|done|].
      rewrite (GetBlock_no_faults _ _ _ Hf Hk), Hp.
      apply IH; [done|]. intros j Hj. apply Hall. by right.
Qed.

End GapResolver.

(** *** The invariant of the tree *)

Lemma Invariant_tail (i : Interval) (t : Tree) : Invariant (i :: t) → Invariant t.
Proof. simpl. tauto. Qed.

Lemma Invariant_nonempty (t : Tree) (i : Interval) :
  Invariant t → i ∈ t → LowerBound i <= UpperBound i.
Proof.
  induction t as [|j t IH]; intros Hinv Hin.
  - by apply elem_of_nil in Hin.
  - apply elem_of_cons in Hin as [->|Hin]; [by destruct Hinv|].
    apply IH; [by eapply Invariant_tail|done].
Qed.

(** Every interval behind the head lies above it, with a gap. *)
Lemma Invariant_head_below (i : Interval) (t : Tree) (j : Interval) :
  Invariant (i :: t) → j ∈ t → UpperBound i + 1 < LowerBound j.
Proof.
  revert i. induction t as [|k t IH]; intros i Hinv Hin.
  - by apply elem_of_nil in Hin.
  - destruct Hinv as (Hi & Hgap & Hrest).
    apply elem_of_cons in Hin as [->|Hin]; [done|].
    specialize (IH k Hrest Hin). destruct Hrest as (Hk & _). lia.
Qed.

Lemma Invariant_separated (t : Tree) (i j : Interval) :
  Invariant t → i ∈ t → j ∈ t →
  i = j ∨ UpperBound i + 1 < LowerBound j ∨ UpperBound j + 1 < LowerBound i.
Proof.
  induction t as [|k t IH]; intros Hinv Hi Hj.
  - by apply elem_of_nil in Hi.
  - apply elem_of_cons in Hi as [->|Hi]; apply elem_of_cons in Hj as [->|Hj].
    + by left.
    + right. left. by eapply Invariant_head_below.
    + right. right. by eapply Invariant_head_below.
    + apply IH; [by eapply Invariant_tail|done|done].
Qed.

(** Under the invariant, all lower bounds are at most [first] exactly when the
    tracked heights form one run reaching down to [first]. *)
Lemma contiguous_from_lower_bounds (first : Z) (t : Tree) :
  Invariant t →
  Forall (fun i => LowerBound i <= first) t ↔ contiguous_from first t.
Proof.
  intros Hinv. rewrite Forall_forall. split.
  - intros Hall h top (i & Hin & Hi) Hh. exists i. split; [done|].
    specialize (Hall i Hin). lia.
  - intros Hc i Hin.
    destruct (Z.le_gt_cases (LowerBound i) first) as [|Hgt]; [done|exfalso].
    pose proof (Invariant_nonempty t i Hinv Hin) as Hne.
    destruct (Hc (LowerBound i - 1) (LowerBound i)) as (j & Hj & Hcov);
      [by exists i; split; [|lia] | lia |].
    destruct (Invariant_separated t i j Hinv Hin Hj) as [->|[?|?]]; lia.
Qed.

(** C2. For a tree that satisfies the invariant, getMissingBlockIDs returns the
    empty set exactly when the tracked heights form one run that starts at
    lastAcceptedHeight + 1, that is, are connected to the accepted prefix up to
    the highest tracked height. The sum is [lastHeightToFetch], the uint64 sum
    of the code. Whether the empty set comes back depends neither on the
    content of the store nor on the parser. *)
Theorem getMissingBlockIDs_empty_iff_contiguous {W} (parser : Parser W)
    (db : Database) (tree : Tree) (lastAcceptedHeight : Z) :
  Invariant tree →
  (getMissingBlockIDs parser db tree lastAcceptedHeight).1 = Ok ∅
  ↔ contiguous_from (u64 (lastAcceptedHeight + 1)) tree.
Proof.
  intros Hinv. unfold getMissingBlockIDs, Flatten.
  rewrite getMissingBlockIDs_range_empty.
  rewrite <- (contiguous_from_lower_bounds _ _ Hinv). naive_solver.
Qed.

Lemma getMissingBlockIDs_empty_iff_contiguous_witness :
  Invariant [mkInterval 1 1; mkInterval 3 5]
  ∧ ((getMissingBlockIDs Sample.parser (Sample.store 3 3)
        [mkInterval 1 1; mkInterval 3 5] 2).1 = Ok ∅
     ↔ contiguous_from (u64 (2 + 1)) [mkInterval 1 1; mkInterval 3 5]).
Proof.
  split.
  - simpl. lia.
  - apply (getMissingBlockIDs_empty_iff_contiguous Sample.parser). simpl. lia.
Defined.

(** C3. The set getMissingBlockIDs returns consists of the parents of the
    blocks stored at the lower bounds of the intervals of Flatten() whose lower
    bound is strictly greater than lastAcceptedHeight + 1 (the uint64 sum
    [lastHeightToFetch]), and of nothing else; it does return a set when the
    storage does not fail and these blocks are stored and parse. For the tree
    {[4,4], [6,7]} and lastAcceptedHeight = 2 the set holds the parents of the
    blocks at heights 4 and 6. *)
Theorem getMissingBlockIDs_parents_of_lower_bounds {W} (parser : Parser W)
    (db : Database) :
  (∀ tree lastAcceptedHeight s,
     (getMissingBlockIDs parser db tree lastAcceptedHeight).1 = Ok s →
     ∀ id, id ∈ s ↔
           ∃ i blk, i ∈ Flatten tree
                    ∧ u64 (lastAcceptedHeight + 1) < LowerBound i
                    ∧ stored_block parser db (LowerBound i) blk
                    ∧ blk_Parent blk = id)
  ∧ (∀ tree lastAcceptedHeight,
       db_faults db = [] →
       (∀ i, i ∈ Flatten tree → u64 (lastAcceptedHeight + 1) < LowerBound i →
             ∃ blk, stored_block parser db (LowerBound i) blk) →
       ∃ s, getMissingBlockIDs parser db tree lastAcceptedHeight = (Ok s, db))
  ∧ (∀ blk4 blk6,
       db_faults db = [] →
       stored_block parser db 4 blk4 →
       stored_block parser db 6 blk6 →
       getMissingBlockIDs parser db [mkInterval 4 4; mkInterval 6 7] 2
       = (Ok {[blk_Parent blk4; blk_Parent blk6]}, db)).
Proof.
  split; [|split].
  - intros tree H s Hr id. unfold getMissingBlockIDs in Hr.
    rewrite (getMissingBlockIDs_range_Ok _ _ _ _ _ _ Hr). set_solver.
  - intros tree H Hf Hall. by apply getMissingBlockIDs_range_total.
  - intros blk4 blk6 Hf (b4 & Hk4 & Hp4) (b6 & Hk6 & Hp6).
    unfold getMissingBlockIDs. simpl.
    rewrite (GetBlock_no_faults _ _ _ Hf Hk4), Hp4.
    rewrite (GetBlock_no_faults _ _ _ Hf Hk6), Hp6.
    f_equal. f_equal. set_solver.
Qed.

Lemma getMissingBlockIDs_parents_of_lower_bounds_witness :
  getMissingBlockIDs Sample.parser Sample.gapStore Sample.gapTree 2
  = (Ok {[3%N; 5%N]}, Sample.gapStore)
  ∧ ∀ id, id ∈ ({[3%N; 5%N]} : gset ID) ↔
          ∃ i blk, i ∈ Flatten Sample.gapTree
                   ∧ u64 (2 + 1) < LowerBound i
                   ∧ stored_block Sample.parser Sample.gapStore (LowerBound i) blk
                   ∧ blk_Parent blk = id.
Proof.
  assert (getMissingBlockIDs Sample.parser Sample.gapStore Sample.gapTree 2
          = (Ok {[3%N; 5%N]}, Sample.gapStore)) as Hrun.
  { apply (proj2 (proj2 (getMissingBlockIDs_parents_of_lower_bounds
                           Sample.parser Sample.gapStore))
             (Sample.block 4 0) (Sample.block 6 0)).
    - reflexivity.
    - eexists. split; reflexivity.
    - eexists. split; reflexivity. }
  split; [exact Hrun|].
  apply (proj1 (getMissingBlockIDs_parents_of_lower_bounds
                  Sample.parser Sample.gapStore) Sample.gapTree 2).
  by rewrite Hrun.
Defined.
(** ** The Chain Linker *)

Section ChainLinker.
Context {W : Type}.
Variable ancestors : gmap ID (Block W).
Variable lastAcceptedHeight : Z.

Lemma Add_wantsParent_height (db : Database) (tree : Tree) (blk : Block W) :
  (Add db tree lastAcceptedHeight blk).1.1 = Ok true →
  lastAcceptedHeight + 1 < blk_Height blk.
Proof.
  unfold Add. destruct (storage_op db) as [[e|] db']; simpl; [done|].
  destruct (covering _ _) as [i|]; [|done].
  intros [= Hw]. apply andb_true_iff in Hw as [_ Hlt]. by apply Z.ltb_lt in Hlt.
Qed.

(** Whenever [process] returns, it has made one of the walks of [Walk], from
    the store and the tree it was given to those it leaves. *)
Lemma process_walk (fuel : nat) :
  ∀ s blk out s',
    process fuel s blk ancestors lastAcceptedHeight = Some (out, s') →
    ∃ visited,
      Walk ancestors lastAcceptedHeight (ls_db s) (ls_tree s) blk visited out
        (ls_db s') (ls_tree s')
      ∧ ls_adds s' = ls_adds s ++ visited
      ∧ ls_missingBlockIDs s' = ls_missingBlockIDs s ∖ visited_IDs visited.
Proof.
  induction fuel as [|fuel IH]; intros s blk out s'; simpl; [done|].
  destruct (Add (ls_db s) (ls_tree s) lastAcceptedHeight blk) as [[r db'] tree']
    eqn:Hadd.
  destruct r as [[|]|err]; simpl.
  - destruct (ancestors !! blk_Parent blk) as [parent|] eqn:Hp.
    + intros (visited & Hw & Hadds & Hmiss)%IH. simpl in *.
      exists ((blk, Ok true) :: visited). split; [by eapply Walk_parent|].
      split; [by rewrite Hadds, <- app_assoc|].
      rewrite Hmiss. unfold visited_IDs. simpl. set_solver.
    + intros [= <- <-]. exists [(blk, Ok true)]. split; [by constructor|].
      split; [done|]. unfold visited_IDs. simpl. set_solver.
  - intros [= <- <-]. exists [(blk, Ok false)]. split; [by constructor|].
    split; [done|]. unfold visited_IDs. simpl. set_solver.
  - intros [= <- <-]. exists [(blk, Err err)]. split; [by constructor|].
    split; [done|]. unfold visited_IDs. simpl. set_solver.
Qed.


End ChainLinker.



(** Block 5 arrives with its ancestors 4 and 3 while block 1 is the last
    accepted one: the three blocks are added and block 2 is requested. *)
Lemma Sample_process_run :
  ∃ s', process 3 Sample.linkState (Sample.block 5 0) Sample.ancestors 1
        = Some ((2%N, true, None), s')
        ∧ ls_tree s' = [mkInterval 3 5]
        ∧ ls_db s' = Sample.store 3 3
        ∧ ls_missingBlockIDs s' = {[9%N]}
        ∧ ls_adds s' = [(Sample.block 5 0, Ok true); (Sample.block 4 0, Ok true);
                        (Sample.block 3 0, Ok true)].
Proof. eexists. split; [reflexivity|]. by vm_compute. Qed.



(** ** The Executor *)

(** *** Deleting from the store *)

Lemma kv_delete_absent (k : Z) (l : list (Z * bytes)) :
  k ∉ map fst l → kv_delete k l = l.
Proof.
  unfold kv_delete. induction l as [|[k' v] l IH]; simpl; intros Hk; [done|].
  rewrite filter_cons_True by (simpl; set_solver).
  f_equal. apply IH. set_solver.
Qed.

Lemma kv_delete_head (k : Z) (v : bytes) (l : list (Z * bytes)) :
  k ∉ map fst l → kv_delete k ((k, v) :: l) = l.
Proof.
  intros Hk. unfold kv_delete. rewrite filter_cons_False by (simpl; auto).
  by apply kv_delete_absent.
Qed.

(** Writing the deletions of the first entries of a store without duplicate
    keys leaves the other entries. *)
Lemma write_deletes_prefix (pending rest : list (Z * bytes)) :
  NoDup (map fst (pending ++ rest)) →
  foldl apply_op (pending ++ rest) (map OpDelete (map fst pending)) = rest.
Proof.
  induction pending as [|[k v] pending IH]; simpl; intros Hnd; [done|].
  apply NoDup_cons in Hnd as [Hk Hnd].
  rewrite kv_delete_head by done. by apply IH.
Qed.

(** *** The counters *)

Lemma period_next (n p : Z) :
  0 < p → 0 <= n →
  (n + 1) mod p = if (n + 1) mod p =? 0 then 0 else n mod p + 1.
Proof.
  intros Hp Hn. destruct (Z.eqb_spec ((n + 1) mod p) 0) as [|Hne]; [done|].
  pose proof (Z.mod_pos_bound n p Hp).
  pose proof (Z.mod_pos_bound (n + 1) p Hp).
  pose proof (Z.div_mod n p). pose proof (Z.div_mod (n + 1) p).
  assert ((n + 1) / p = n / p) by nia. nia.
Qed.

Lemma period_reached (n p : Z) :
  0 < p → 0 <= n →
  (p <=? n mod p + 1) = ((n + 1) mod p =? 0).
Proof.
  intros Hp Hn. pose proof (period_next n p Hp Hn) as Hnext.
  pose proof (Z.mod_pos_bound n p Hp). pose proof (Z.mod_pos_bound (n + 1) p Hp).
  destruct (Z.eqb_spec ((n + 1) mod p) 0) as [Heq|Hne].
  - apply Z.leb_le.
    pose proof (Z.div_mod n p). pose proof (Z.div_mod (n + 1) p).
    destruct (Z.le_gt_cases p (n mod p + 1)); [done|].
    assert ((n + 1) / p = n / p) by nia. nia.
  - apply Z.leb_gt. lia.
Qed.

Lemma release_implies_flush (n : Z) :
  (n + 1) mod iteratorReleasePeriod = 0 → (n + 1) mod batchWritePeriod = 0.
Proof.
  unfold iteratorReleasePeriod, batchWritePeriod. intros H.
  pose proof (Z.div_mod (n + 1) 1024). pose proof (Z.div_mod (n + 1) 64).
  pose proof (Z.mod_pos_bound (n + 1) 64).
  assert ((n + 1) / 64 = 16 * ((n + 1) / 1024)) by nia. nia.
Qed.

Section ExecutorRun.
Context {W : Type}.
Variable ctx : Context.
Variable parser : Parser W.
Variable lastAcceptedHeight : Z.

Lemma counter_incr (n p : Z) :
  0 < p < 2 ^ 63 → u64 (n mod p + 1) = n mod p + 1.
Proof.
  intros Hp. apply u64_small. pose proof (Z.mod_pos_bound n p). lia.
Qed.

Lemma countBatchWrite_scheduled (key : Z) (value : bytes)
    (pending rest : list (Z * bytes)) (n c : Z) (tree : Tree) (w : W)
    (it : Iterator) (polls : nat) (trace : list Event) :
  NoDup (map fst (pending ++ (key, value) :: rest)) →
  0 <= n →
  let flush := (n + 1) mod batchWritePeriod =? 0 in
  let pending' := if flush then [] else pending ++ [(key, value)] in
  countBatchWrite
    (mkExecState (mkDatabase (pending ++ (key, value) :: rest) [])
       tree w (map OpDelete (map fst pending) ++ [OpDelete key])
       (n mod batchWritePeriod) it c polls trace)
  = (Ok tt,
     mkExecState (mkDatabase (pending' ++ rest) [])
       tree w (map OpDelete (map fst pending')) ((n + 1) mod batchWritePeriod)
       it c polls
       (trace ++ if flush
                 then [EvWrite (map OpDelete (map fst pending ++ [key])) None]
                 else [])).
Proof.
  intros Hnd Hn flush pending'. unfold countBatchWrite. cbn [x_processedSinceBatchWrite].
  rewrite counter_incr by (unfold batchWritePeriod; lia).
  rewrite period_reached by (unfold batchWritePeriod; lia || done).
  pose proof (period_next n batchWritePeriod) as Hnext.
  subst pending'. fold flush in Hnext |- *. destruct flush eqn:Hflush.
  - unfold writeBatch. cbn -[Z.modulo batchWritePeriod].
    assert (n mod batchWritePeriod + 1 =? 0 = false) as ->.
    { apply Z.eqb_neq. pose proof (Z.mod_pos_bound n batchWritePeriod).
      unfold batchWritePeriod in *. lia. }
    unfold batch_Write. simpl.
    replace (map OpDelete (map fst pending) ++ [OpDelete key])
      with (map OpDelete (map fst (pending ++ [(key, value)])))
      by (by rewrite !map_app).
    replace (pending ++ (key, value) :: rest)
      with ((pending ++ [(key, value)]) ++ rest) in *
      by (by rewrite <- app_assoc).
    rewrite write_deletes_prefix by done.
    rewrite Hnext by (unfold batchWritePeriod; lia || done).
    by rewrite !map_app.
  - rewrite Hnext by (unfold batchWritePeriod; lia || done).
    rewrite app_nil_r, !map_app, <- app_assoc. done.
Qed.

Lemma countIteratorRelease_scheduled (pending rest : list (Z * bytes)) (n : Z)
    (tree : Tree) (w : W) (polls : nat) (trace : list Event) :
  0 <= n →
  Z.of_nat (length pending) = (n + 1) mod batchWritePeriod →
  let release := (n + 1) mod iteratorReleasePeriod =? 0 in
  countIteratorRelease
    (mkExecState (mkDatabase (pending ++ rest) [])
       tree w (map OpDelete (map fst pending)) ((n + 1) mod batchWritePeriod)
       (mkIterator rest None) (n mod iteratorReleasePeriod) polls trace)
  = (Ok tt,
     mkExecState (mkDatabase (pending ++ rest) [])
       tree w (map OpDelete (map fst pending)) ((n + 1) mod batchWritePeriod)
       (mkIterator rest None) ((n + 1) mod iteratorReleasePeriod) polls
       (trace ++ if release then [EvRelease; EvAcquire (map fst rest)] else [])).
Proof.
  intros Hn Hlen release. unfold countIteratorRelease.
  cbn [x_processedSinceIteratorRelease].
  rewrite counter_incr by (unfold iteratorReleasePeriod; lia).
  rewrite period_reached by (unfold iteratorReleasePeriod; lia || done).
  pose proof (period_next n iteratorReleasePeriod) as Hnext.
  fold release in Hnext |- *. destruct release eqn:Hrelease.
  - apply Z.eqb_eq in Hrelease.
    pose proof (release_implies_flush n Hrelease) as Hflush.
    rewrite Hflush in *. destruct pending; [|done].
    unfold bind, check, iterator_Error, writeBatch, reacquireIterator, ret.
    cbn. by rewrite Hrelease.
  - rewrite Hnext by (unfold iteratorReleasePeriod; lia || done).
    by rewrite app_nil_r.
Qed.

Lemma verify_accept_scheduled (blk : Block W) (s : ExecState W) :
  blocks_succeed lastAcceptedHeight [blk] (x_world s) →
  (if blk_Height blk <=? lastAcceptedHeight then ret tt
   else bind (verifyBlock blk) (fun _ => acceptBlock blk)) s
  = (Ok tt,
     mkExecState (x_db s) (x_tree s) (world_after lastAcceptedHeight [blk] (x_world s))
       (x_batch s) (x_processedSinceBatchWrite s) (x_iterator s)
       (x_processedSinceIteratorRelease s) (x_polls s)
       (x_trace s ++ if blk_Height blk <=? lastAcceptedHeight then []
                     else executed_calls blk)).
Proof.
  simpl. destruct (blk_Height blk <=? lastAcceptedHeight).
  - intros _. rewrite app_nil_r. by destruct s.
  - intros (Hv & Ha & _). unfold bind, verifyBlock, acceptBlock.
    destruct (blk_Verify blk (x_world s)) as [rv w1]; simpl in *. subst rv.
    simpl. destruct (blk_Accept blk w1) as [ra w2]; simpl in *. subst ra.
    by rewrite <- app_assoc.
Qed.

Lemma iteration_scheduled (blk : Block W) (blkBytes : bytes)
    (pending rest : list (Z * bytes)) (n : Z) (tree : Tree) (w : W)
    (polls : nat) (trace : list Event) :
  parser blkBytes = Ok blk →
  NoDup (map fst (pending ++ (blk_Height blk, blkBytes) :: rest)) →
  0 <= n →
  Z.of_nat (length pending) = n mod batchWritePeriod →
  blocks_succeed lastAcceptedHeight [blk] w →
  let pending' := scheduled_pending n pending [(blk_Height blk, blkBytes)] in
  iteration parser lastAcceptedHeight blkBytes
    (mkExecState (mkDatabase (pending ++ (blk_Height blk, blkBytes) :: rest) [])
       tree w (map OpDelete (map fst pending)) (n mod batchWritePeriod)
       (mkIterator rest None) (n mod iteratorReleasePeriod) polls trace)
  = (Ok tt,
     mkExecState (mkDatabase (pending' ++ rest) [])
       (delete (blk_Height blk) tree) (world_after lastAcceptedHeight [blk] w)
       (map OpDelete (map fst pending')) ((n + 1) mod batchWritePeriod)
       (mkIterator rest None) ((n + 1) mod iteratorReleasePeriod) polls
       (trace ++ scheduled_events lastAcceptedHeight n (map fst pending) [blk]
                   (map fst rest)))
  ∧ Z.of_nat (length pending') = (n + 1) mod batchWritePeriod.
Proof.
  intros Hparse Hnd Hn Hlen Hok pending'.
  assert (Z.of_nat (length pending') = (n + 1) mod batchWritePeriod) as Hlen'.
  { subst pending'. simpl.
    pose proof (period_next n batchWritePeriod) as Hnext.
    destruct ((n + 1) mod batchWritePeriod =? 0) eqn:Hflush.
    - apply Z.eqb_eq in Hflush. by rewrite Hflush.
    - rewrite Hnext by (unfold batchWritePeriod; lia || done).
      rewrite length_app. simpl. lia. }
  split; [|done].
  unfold iteration. rewrite Hparse. unfold bind.
  unfold removeBlock, Remove. cbn [x_db x_batch x_tree storage_op db_faults].
  cbn [x_world x_processedSinceBatchWrite x_iterator
       x_processedSinceIteratorRelease x_polls x_trace].
  rewrite countBatchWrite_scheduled by done.
  fold pending'. change (if (n + 1) mod batchWritePeriod =? 0 then []
                         else pending ++ [(blk_Height blk, blkBytes)])
    with pending'.
  rewrite countIteratorRelease_scheduled by done.
  pose proof (verify_accept_scheduled blk) as Hva. unfold bind in Hva.
  rewrite Hva by done. cbn [x_db x_tree x_world x_batch x_processedSinceBatchWrite
    x_iterator x_processedSinceIteratorRelease x_polls x_trace].
  do 2 f_equal. simpl. rewrite <- !app_assoc. simpl. by rewrite app_nil_r.
Qed.

Lemma holds_blocks_keys (todo : list (Z * bytes)) (blks : list (Block W)) :
  holds_blocks parser todo blks → map blk_Height blks = map fst todo.
Proof.
  induction 1 as [|kv blk todo blks [_ Hh] _ IH]; simpl; [done|]. by rewrite Hh, IH.
Qed.

Lemma world_after_cons (blk : Block W) (blks : list (Block W)) (w : W) :
  world_after lastAcceptedHeight (blk :: blks) w
  = world_after lastAcceptedHeight blks (world_after lastAcceptedHeight [blk] w).
Proof. simpl. by destruct (blk_Height blk <=? lastAcceptedHeight). Qed.

Lemma blocks_succeed_cons (blk : Block W) (blks : list (Block W)) (w : W) :
  blocks_succeed lastAcceptedHeight (blk :: blks) w →
  blocks_succeed lastAcceptedHeight [blk] w
  ∧ blocks_succeed lastAcceptedHeight blks (world_after lastAcceptedHeight [blk] w).
Proof. simpl. destruct (blk_Height blk <=? lastAcceptedHeight); tauto. Qed.

(** The loop over the entries [todo], which hold the blocks [blks]: no storage
    failure, no failing block, the context not cancelled before all of [todo]
    is processed; the loop ends because the cursor is exhausted or because the
    context is found cancelled. *)
Lemma executeLoop_scheduled (todo : list (Z * bytes)) (blks : list (Block W)) :
  holds_blocks parser todo blks →
  ∀ (fuel : nat) (pending later : list (Z * bytes)) (n : Z) (tree : Tree) (w : W)
    (polls : nat) (trace : list Event),
    NoDup (map fst (pending ++ todo ++ later)) →
    0 <= n →
    Z.of_nat (length pending) = n mod batchWritePeriod →
    blocks_succeed lastAcceptedHeight blks w →
    (∀ i, (i < length todo)%nat → ctx_Err ctx (polls + i) = None) →
    ctx_Err ctx (polls + length todo) ≠ None ∨ later = [] →
    (length todo < fuel)%nat →
    let pending' := scheduled_pending n pending todo in
    let n' := n + Z.of_nat (length todo) in
    executeLoop ctx parser lastAcceptedHeight fuel
      (mkExecState (mkDatabase (pending ++ todo ++ later) [])
         tree w (map OpDelete (map fst pending)) (n mod batchWritePeriod)
         (mkIterator (todo ++ later) None) (n mod iteratorReleasePeriod)
         polls trace)
    = Some (Ok tt,
        mkExecState (mkDatabase (pending' ++ later) [])
          (foldl (fun t kv => delete kv.1 t) tree todo)
          (world_after lastAcceptedHeight blks w)
          (map OpDelete (map fst pending')) (n' mod batchWritePeriod)
          (mkIterator later None) (n' mod iteratorReleasePeriod)
          (S (polls + length todo))
          (trace ++ scheduled_events lastAcceptedHeight n (map fst pending) blks
                      (map fst later)))
    ∧ Z.of_nat (length pending') = n' mod batchWritePeriod.
Proof.
  induction 1 as [|[key value] blk todo blks [Hparse Hheight] Hrest IH];
    intros fuel pending later n tree w polls trace Hnd Hn Hlen Hok Hctx Hexit Hfuel
           pending' n'.
  - subst pending' n'. simpl in *. rewrite Z.add_0_r, Nat.add_0_r, app_nil_r in *.
    split; [|done]. destruct fuel as [|fuel]; [lia|]. simpl.
    unfold loopCondition. cbn [x_polls x_iterator x_db].
    destruct (ctx_Err ctx polls) as [e|]; [done|].
    destruct Hexit as [? | ->]; done.
  - simpl in Hheight. subst key.
    destruct fuel as [|fuel]; [simpl in Hfuel; lia|].
    apply blocks_succeed_cons in Hok as [Hok1 Hok].
    cbn [executeLoop]. unfold loopCondition. cbn [x_polls x_iterator x_db].
    pose proof (Hctx O ltac:(simpl; lia)) as Hc0. rewrite Nat.add_0_r in Hc0.
    rewrite Hc0. cbn [iterator_Next it_rest app storage_op db_faults it_err].
    cbn [x_tree x_world x_batch x_processedSinceBatchWrite
         x_processedSinceIteratorRelease x_trace snd].
    destruct (iteration_scheduled blk value pending (todo ++ later) n tree w
                (S polls) trace Hparse Hnd Hn Hlen Hok1) as [Hit Hlen1].
    change ((blk_Height blk, value) :: todo ++ later)
      with ((blk_Height blk, value) :: (todo ++ later)).
    rewrite Hit.
    set (pending1 := scheduled_pending n pending [(blk_Height blk, value)]) in *.
    destruct (IH fuel pending1 later (n + 1) (delete (blk_Height blk) tree)
                (world_after lastAcceptedHeight [blk] w) (S polls)
                (trace ++ scheduled_events lastAcceptedHeight n (map fst pending)
                            [blk] (map fst (todo ++ later))))
      as [Hloop Hlen']; try done.
    + subst pending1. simpl. destruct (_ =? 0).
      * simpl. rewrite map_app in Hnd. apply NoDup_app in Hnd as (_ & _ & Hnd).
        simpl in Hnd. by apply NoDup_cons in Hnd as [_ Hnd].
      * rewrite <- app_assoc. done.
    + lia.
    + intros i Hi. specialize (Hctx (S i) ltac:(simpl; lia)).
      by replace (S polls + i)%nat with (polls + S i)%nat by lia.
    + simpl in Hexit. by replace (S polls + length todo)%nat
        with (polls + S (length todo))%nat by lia.
    + simpl in Hfuel. lia.
    + subst pending' n'. cbn [scheduled_pending length foldl].
      replace (n + Z.of_nat (S (length todo))) with (n + 1 + Z.of_nat (length todo))
        by lia.
      split; [|exact Hlen'].
      etrans; [exact Hloop|]. do 2 f_equal.
      f_equal; [symmetry; apply world_after_cons | lia |].
      rewrite <- app_assoc. f_equal. simpl.
      rewrite map_app, (holds_blocks_keys todo blks Hrest), app_nil_r.
      subst pending1. simpl. rewrite <- !app_assoc.
      destruct ((n + 1) mod batchWritePeriod =? 0); simpl;
        by rewrite ?map_app.
Qed.

Lemma scheduled_pending_suffix {A} (todo : list A) :
  ∀ (n : Z) (pending : list A),
    ∃ flushed, pending ++ todo = flushed ++ scheduled_pending n pending todo.
Proof.
  induction todo as [|x todo IH]; intros n pending; simpl.
  - exists []. by rewrite app_nil_r.
  - destruct ((n + 1) mod batchWritePeriod =? 0).
    + destruct (IH (n + 1) []) as [flushed Hf]. exists ((pending ++ [x]) ++ flushed).
      rewrite <- !app_assoc. simpl in *. by rewrite <- Hf.
    + destruct (IH (n + 1) (pending ++ [x])) as [flushed Hf]. exists flushed.
      by rewrite <- Hf, <- app_assoc.
Qed.

Lemma scheduled_pending_map {A B} (f : A → B) (todo : list A) :
  ∀ (n : Z) (pending : list A),
    map f (scheduled_pending n pending todo)
    = scheduled_pending n (map f pending) (map f todo).
Proof.
  induction todo as [|x todo IH]; intros n pending; simpl; [done|].
  rewrite IH. by destruct (_ =? 0); rewrite ?map_app.
Qed.

(** A whole run of [execute] over a store whose first entries [todo] hold the
    blocks [blks]: the storage does not fail, no Verify or Accept fails, and
    the context is not found cancelled before all of [todo] is processed; the
    entries [later] are those a cancellation leaves unprocessed. *)
Lemma execute_scheduled (todo later : list (Z * bytes)) (blks : list (Block W))
    (fuel : nat) (tree : Tree) (w : W) :
  holds_blocks parser todo blks →
  NoDup (map fst (todo ++ later)) →
  blocks_succeed lastAcceptedHeight blks w →
  (∀ i, (i < length todo)%nat → ctx_Err ctx i = None) →
  ctx_Err ctx (length todo) ≠ None ∨ later = [] →
  (length todo < fuel)%nat →
  execute ctx parser lastAcceptedHeight fuel (mkDatabase (todo ++ later) []) tree w
  = Some (ctx_Err ctx (S (length todo)),
      mkExecState (mkDatabase later [])
        (foldl (fun t kv => delete kv.1 t) tree todo)
        (world_after lastAcceptedHeight blks w)
        [] 0 (mkIterator later None)
        (Z.of_nat (length todo) mod iteratorReleasePeriod)
        (S (S (length todo)))
        (scheduled_trace lastAcceptedHeight blks (map fst later))).
Proof.
  intros Hholds Hnd Hok Hctx Hexit Hfuel. unfold execute.
  destruct (executeLoop_scheduled todo blks Hholds fuel [] later 0 tree w O
              [EvAcquire (map fst (todo ++ later))])
    as [Hloop Hlen]; try done.
  unfold GetBlockIterator. cbn [db_blocks].
  match type of Hloop with
  | _ = ?r =>
      assert (executeLoop ctx parser lastAcceptedHeight fuel
                (mkExecState (mkDatabase (todo ++ later) []) tree w [] 0
                   (mkIterator (todo ++ later) None) 0 O
                   [EvAcquire (map fst (todo ++ later))]) = r) as Hloop'
        by exact Hloop
  end.
  rewrite Hloop'. clear Hloop Hloop'. rewrite Z.add_0_l in *. simpl Nat.add.
  set (pending := scheduled_pending 0 [] todo) in *.
  assert (NoDup (map fst (pending ++ later))) as Hnd'.
  { destruct (scheduled_pending_suffix todo 0 []) as [flushed Hf]. fold pending in Hf.
    simpl in Hf. rewrite Hf, <- app_assoc, map_app in Hnd.
    by apply NoDup_app in Hnd as (_ & _ & Hnd). }
  assert (scheduled_pending 0 [] (map blk_Height blks) = map fst pending) as Hkeys.
  { subst pending. rewrite scheduled_pending_map. simpl.
    by rewrite (holds_blocks_keys todo blks Hholds). }
  unfold afterLoop, bind, writeBatch. cbn [x_processedSinceBatchWrite].
  unfold scheduled_trace. rewrite Hkeys, map_app, (holds_blocks_keys todo blks Hholds).
  destruct (Z.eqb_spec (Z.of_nat (length todo) mod batchWritePeriod) 0) as [Hz|Hnz].
  - rewrite Hz in Hlen. destruct pending; [|done]. simpl.
    unfold check, iterator_Error. cbn. rewrite Hz.
    destruct (ctx_Err ctx (S (length todo))); simpl; by rewrite <- ?app_assoc.
  - cbn [x_batch x_db]. unfold batch_Write. cbn [storage_op db_faults db_blocks].
    rewrite write_deletes_prefix by done.
    unfold check, iterator_Error. cbn.
    assert (final_write (map fst pending) = [EvWrite (map OpDelete (map fst pending)) None])
      as ->.
    { destruct pending; [simpl in Hlen; lia|done]. }
    destruct (ctx_Err ctx (S (length todo))); simpl; by rewrite <- ?app_assoc.
Qed.

End ExecutorRun.

(** *** Readings of the schedule *)

Section ScheduleFacts.
Context {W : Type}.
Variable lastAcceptedHeight : Z.

Lemma block_calls_app (t1 t2 : list Event) :
  block_calls (t1 ++ t2) = block_calls t1 ++ block_calls t2.
Proof. apply List.filter_app. Qed.

Lemma block_calls_scheduled_events (blks : list (Block W)) :
  ∀ n pending later,
    block_calls (scheduled_events lastAcceptedHeight n pending blks later)
    = flat_map (fun blk => if blk_Height blk <=? lastAcceptedHeight then []
                           else executed_calls blk) blks.
Proof.
  induction blks as [|blk blks IH]; intros n pending later; [done|].
  cbn [scheduled_events flat_map]. rewrite !block_calls_app, IH.
  assert (∀ (b : bool) (l : list Event),
            (∀ ev, In ev l → is_block_call ev = false) →
            block_calls (if b then l else []) = []) as Hnone.
  { intros [] l Hl; [|done]. unfold block_calls.
    induction l as [|ev l IHl]; [done|]. simpl. rewrite (Hl ev) by (by left).
    apply IHl. intros ev' ?. apply Hl. by right. }
  rewrite !Hnone by (simpl; intros ev Hev; intuition (subst; done)).
  simpl. by destruct (blk_Height blk <=? lastAcceptedHeight).
Qed.

Lemma block_calls_final_write (pending : list Z) :
  block_calls (final_write pending) = [].
Proof. by destruct pending. Qed.

Lemma block_calls_scheduled_trace (blks : list (Block W)) (later : list Z) :
  block_calls (scheduled_trace lastAcceptedHeight blks later)
  = flat_map (fun blk => if blk_Height blk <=? lastAcceptedHeight then []
                         else executed_calls blk) blks.
Proof.
  unfold scheduled_trace. rewrite !block_calls_app, block_calls_scheduled_events,
    block_calls_final_write. simpl. by rewrite app_nil_r.
Qed.

End ScheduleFacts.

(** *** Emptying a tree that tracks one run *)

Lemma Tracks_nil (h : Z) : ¬ Tracks [] h.
Proof. intros (i & Hi & _). by apply elem_of_nil in Hi. Qed.

Lemma Invariant_run (t : Tree) (a b : Z) :
  Invariant t →
  (∀ h, Tracks t h ↔ a <= h <= b) →
  t = if a <=? b then [mkInterval a b] else [].
Proof.
  intros Hinv Htr. destruct t as [|i t].
  - destruct (Z.leb_spec a b) as [Hab|]; [|done].
    exfalso. apply (Tracks_nil a). apply Htr. lia.
  - pose proof (Invariant_nonempty _ i Hinv ltac:(by left)) as Hi.
    assert (Tracks (i :: t) (LowerBound i)) as Hlo by (exists i; split; [by left|lia]).
    assert (Tracks (i :: t) (UpperBound i)) as Hup by (exists i; split; [by left|lia]).
    apply Htr in Hlo, Hup.
    assert (∀ j, j ∈ t → False) as Hnone.
    { intros j Hj. pose proof (Invariant_head_below i t j Hinv Hj).
      pose proof (Invariant_nonempty _ j Hinv ltac:(by right)) as Hjne.
      assert (Tracks (i :: t) (UpperBound i + 1)) as (k & Hk & Hcov).
      { apply Htr. split; [lia|].
        assert (Tracks (i :: t) (LowerBound j)) as Hlj
          by (exists j; split; [by right|lia]).
        apply Htr in Hlj. lia. }
      apply elem_of_cons in Hk as [->|Hk]; [lia|].
      pose proof (Invariant_head_below i t k Hinv Hk). lia. }
    destruct t as [|j t]; [|exfalso; apply (Hnone j); by left].
    assert (Tracks [i] a) as (k & Hk & Hcov) by (apply Htr; lia).
    apply list_elem_of_singleton in Hk as ->.
    assert (Tracks [i] b) as (k & Hk & Hcov') by (apply Htr; lia).
    apply list_elem_of_singleton in Hk as ->.
    destruct (Z.leb_spec a b); [|lia].
    destruct i as [lo up]; simpl in *. f_equal. f_equal; lia.
Qed.

Lemma delete_run (n : nat) :
  ∀ a, foldl (fun t k => delete k t)
         (if a <=? a + Z.of_nat n - 1 then [mkInterval a (a + Z.of_nat n - 1)] else [])
         (seqZ a (Z.of_nat n)) = [].
Proof.
  induction n as [|n IH]; intros a.
  - rewrite seqZ_nil by lia. simpl. destruct (Z.leb_spec a (a + Z.of_nat 0 - 1)); [lia|done].
  - rewrite seqZ_cons by lia.
    destruct (Z.leb_spec a (a + Z.of_nat (S n) - 1)); [|lia].
    cbn [foldl delete LowerBound UpperBound].
    rewrite (proj2 (Z.ltb_ge a a)) by lia.
    rewrite (proj2 (Z.leb_le a (a + Z.of_nat (S n) - 1))) by lia.
    rewrite Z.eqb_refl.
    specialize (IH (Z.succ a)).
    replace (Z.pred (Z.of_nat (S n))) with (Z.of_nat n) by lia.
    destruct n as [|n].
    + rewrite (proj2 (Z.eqb_eq a (a + Z.of_nat 1 - 1))) by lia.
      by rewrite seqZ_nil by lia.
    + rewrite (proj2 (Z.eqb_neq a (a + Z.of_nat (S (S n)) - 1))) by lia.
      destruct (Z.leb_spec (Z.succ a) (Z.succ a + Z.of_nat (S n) - 1)); [|lia].
      replace (Z.succ a + Z.of_nat (S n) - 1) with (a + Z.of_nat (S (S n)) - 1)
        in IH by lia.
      replace (a + 1) with (Z.succ a) by lia. exact IH.
Qed.

Lemma foldl_delete_keys (entries : list (Z * bytes)) :
  ∀ t, foldl (fun t kv => delete kv.1 t) t entries
       = foldl (fun t k => delete k t) t (map fst entries).
Proof. induction entries as [|kv entries IH]; intros t; simpl; [done|]. apply IH. Qed.

Lemma Tracks_singleton (a b h : Z) : Tracks [mkInterval a b] h ↔ a <= h <= b.
Proof.
  split.
  - intros (i & ->%list_elem_of_singleton & Hi). done.
  - intros Hh. exists (mkInterval a b). split; [by left|done].
Qed.

Lemma holds_blocks_length {W} (parser : Parser W) (entries : list (Z * bytes))
    (blks : list (Block W)) :
  holds_blocks parser entries blks → length blks = length entries.
Proof. intros Hh. symmetry. by eapply Forall2_length. Qed.

(** C1. With lastAcceptedHeight = H, a store and a tree that cover exactly the
    heights H+1, ..., H+K, no storage failure, no failing Verify or Accept and
    no cancellation, [execute] returns nil, has called Verify then Accept on
    each of the K blocks, in ascending order of height, and leaves a tree that
    tracks no height (and an empty store). *)
Theorem execute_accepts_connected_run {W} (ctx : Context) (parser : Parser W)
    (H K : Z) (entries : list (Z * bytes)) (blks : list (Block W))
    (tree : Tree) (w : W) (fuel : nat) :
  0 <= K →
  holds_blocks parser entries blks →
  map fst entries = seqZ (H + 1) K →
  Invariant tree →
  (∀ h, Tracks tree h ↔ H + 1 <= h <= H + K) →
  blocks_succeed H blks w →
  (∀ polls, (polls <= S (Z.to_nat K))%nat → ctx_Err ctx polls = None) →
  (Z.to_nat K < fuel)%nat →
  ∃ s', execute ctx parser H fuel (mkDatabase entries []) tree w = Some (None, s')
        ∧ block_calls (x_trace s') = flat_map executed_calls blks
        ∧ map blk_Height blks = seqZ (H + 1) K
        ∧ length blks = Z.to_nat K
        ∧ (∀ h, ¬ Tracks (x_tree s') h)
        ∧ x_tree s' = []
        ∧ db_blocks (x_db s') = []
        ∧ x_world s' = world_after H blks w.
Proof.
  intros HK Hholds Hkeys Hinv Htracks Hok Hctx Hfuel.
  assert (length entries = Z.to_nat K) as Hlen
    by (by rewrite <- (length_map fst), Hkeys, length_seqZ).
  assert (map blk_Height blks = seqZ (H + 1) K) as Hheights
    by (by rewrite (holds_blocks_keys parser entries blks Hholds)).
  pose proof (execute_scheduled ctx parser H entries [] blks fuel tree w) as Hrun.
  rewrite app_nil_r in Hrun. rewrite Hrun; clear Hrun; try done.
  - eexists. split; [by rewrite Hctx by lia|]. cbn [x_trace x_tree x_db x_world db_blocks].
    assert (foldl (fun t kv => delete kv.1 t) tree entries = []) as Htree.
    { rewrite foldl_delete_keys, Hkeys.
      rewrite (Invariant_run tree (H + 1) (H + K) Hinv Htracks).
      pose proof (delete_run (Z.to_nat K) (H + 1)) as Hdel.
      rewrite Z2Nat.id in Hdel by done.
      by replace (H + 1 + K - 1) with (H + K) in Hdel by lia. }
    repeat split; try done.
    + rewrite block_calls_scheduled_trace.
      assert (Forall (fun blk => H < blk_Height blk) blks) as Habove.
      { apply Forall_forall. intros blk Hblk.
        assert (blk_Height blk ∈ seqZ (H + 1) K) as Hin
          by (rewrite <- Hheights; by apply list_elem_of_fmap_2).
        apply elem_of_seqZ in Hin. lia. }
      clear -Habove. induction Habove as [|blk blks Hb _ IH]; [done|].
      cbn [flat_map]. rewrite IH.
      by rewrite (proj2 (Z.leb_gt (blk_Height blk) H)) by done.
    + by rewrite (holds_blocks_length parser entries blks Hholds).
    + rewrite Htree. apply Tracks_nil.
  - rewrite Hkeys. apply NoDup_seqZ.
  - intros i Hi. apply Hctx. lia.
  - by right.
  - lia.
Qed.

Lemma execute_accepts_connected_run_witness :
  ∃ s', execute None Sample.parser 2 4 (Sample.store 3 3) [mkInterval 3 5] []
        = Some (None, s')
        ∧ block_calls (x_trace s') = flat_map executed_calls (Sample.blocks 3 3)
        ∧ map blk_Height (Sample.blocks 3 3) = seqZ (2 + 1) 3
        ∧ length (Sample.blocks 3 3) = Z.to_nat 3
        ∧ (∀ h, ¬ Tracks (x_tree s') h)
        ∧ x_tree s' = []
        ∧ db_blocks (x_db s') = []
        ∧ x_world s' = world_after 2 (Sample.blocks 3 3) [].
Proof.
  apply (execute_accepts_connected_run None Sample.parser 2 3
           (db_blocks (Sample.store 3 3)) (Sample.blocks 3 3)
           [mkInterval 3 5] [] 4%nat).
  - lia.
  - vm_compute. repeat constructor.
  - reflexivity.
  - simpl. lia.
  - intros h. apply (Tracks_singleton 3 5 h).
  - vm_compute. tauto.
  - reflexivity.
  - vm_compute. lia.
Defined.

(** *** The schedule, read event by event *)

Lemma multiples_cons (p first : Z) (len : nat) :
  multiples p first (Z.of_nat (S len))
  = (if first mod p =? 0 then [first] else [])
    ++ multiples p (first + 1) (Z.of_nat len).
Proof.
  unfold multiples. rewrite seqZ_cons by lia. simpl List.filter.
  replace (Z.pred (Z.of_nat (S len))) with (Z.of_nat len) by lia.
  replace (Z.succ first) with (first + 1) by lia.
  by destruct (first mod p =? 0).
Qed.

Lemma multiples_nil (p first len : Z) : len <= 0 → multiples p first len = [].
Proof. intros. unfold multiples. by rewrite seqZ_nil by lia. Qed.

Section ScheduleReadings.
Context {W : Type}.
Variable lastAcceptedHeight : Z.

Local Notation events := (scheduled_events lastAcceptedHeight).

Lemma removed_scheduled_events (blks : list (Block W)) :
  ∀ n pending later tail,
    removed (events n pending blks later ++ tail)
    = map blk_Height blks ++ removed tail.
Proof.
  induction blks as [|blk blks IH]; intros n pending later tail; [done|].
  cbn [scheduled_events map]. rewrite <- !app_assoc. cbn [app removed].
  destruct (_ =? 0); destruct (_ =? 0); destruct (_ <=? _);
    cbn [app removed executed_calls]; by rewrite IH.
Qed.

Lemma releases_scheduled_events (blks : list (Block W)) :
  ∀ n pending later tail,
    releases n pending (events n pending blks later ++ tail)
    = map (fun c => (c, [])) (multiples iteratorReleasePeriod (n + 1)
                                (Z.of_nat (length blks)))
      ++ releases (n + Z.of_nat (length blks))
           (scheduled_pending n pending (map blk_Height blks)) tail.
Proof.
  induction blks as [|blk blks IH]; intros n pending later tail.
  - rewrite multiples_nil by (simpl; lia). simpl. by rewrite Z.add_0_r.
  - cbn [scheduled_events map length scheduled_pending].
    rewrite multiples_cons. rewrite <- !app_assoc. cbn [app releases].
    replace (n + Z.of_nat (S (length blks))) with (n + 1 + Z.of_nat (length blks))
      by lia.
    destruct (Z.eqb_spec ((n + 1) mod iteratorReleasePeriod) 0) as [Hrel|Hrel].
    + rewrite (release_implies_flush n Hrel). cbn [Z.eqb app releases map].
      destruct (_ <=? _); cbn [app releases executed_calls]; by rewrite IH.
    + destruct (_ =? 0); destruct (_ <=? _);
        cbn [app releases executed_calls map]; by rewrite IH.
Qed.

Lemma writes_scheduled_events (blks : list (Block W)) :
  ∀ n pending later tail,
    0 <= n →
    Z.of_nat (length pending) = n mod batchWritePeriod →
    writes n (events n pending blks later ++ tail)
    = map (fun c => (c, 64%nat)) (multiples batchWritePeriod (n + 1)
                                    (Z.of_nat (length blks)))
      ++ writes (n + Z.of_nat (length blks)) tail.
Proof.
  induction blks as [|blk blks IH]; intros n pending later tail Hn Hlen.
  - rewrite multiples_nil by (simpl; lia). simpl. by rewrite Z.add_0_r.
  - cbn [scheduled_events map length].
    rewrite multiples_cons. rewrite <- !app_assoc. cbn [app writes].
    replace (n + Z.of_nat (S (length blks))) with (n + 1 + Z.of_nat (length blks))
      by lia.
    pose proof (period_next n batchWritePeriod ltac:(done) Hn) as Hnext.
    pose proof (period_reached n batchWritePeriod ltac:(done) Hn) as Hreach.
    destruct (Z.eqb_spec ((n + 1) mod batchWritePeriod) 0) as [Hflush|Hflush].
    + assert (length (map OpDelete (pending ++ [blk_Height blk])) = 64%nat) as Hl.
      { rewrite length_map, length_app. simpl. apply Z.leb_le in Hreach.
        pose proof (Z.mod_pos_bound n batchWritePeriod ltac:(done)).
        unfold batchWritePeriod in *. lia. }
      cbn [app writes map]. rewrite Hl.
      destruct ((n + 1) mod iteratorReleasePeriod =? 0);
        destruct (blk_Height blk <=? lastAcceptedHeight);
        cbn [app writes executed_calls];
        (rewrite IH; [done|lia|by rewrite Hflush]).
    + destruct ((n + 1) mod iteratorReleasePeriod =? 0);
        destruct (blk_Height blk <=? lastAcceptedHeight);
        cbn [app writes executed_calls map];
        (rewrite IH; [done|lia|rewrite Hnext, length_app; simpl; lia]).
Qed.

Lemma acquisitions_scheduled_events (blks : list (Block W)) :
  ∀ n later tail,
    0 <= n →
    ∃ views,
      (∀ pending,
         acquisitions n (events n pending blks later ++ tail)
         = views ++ acquisitions (n + Z.of_nat (length blks)) tail)
      ∧ map fst views = multiples iteratorReleasePeriod (n + 1)
                          (Z.of_nat (length blks))
      ∧ Forall (fun a => n < a.1
                         ∧ a.2 = drop (Z.to_nat (a.1 - n))
                                   (map blk_Height blks ++ later)) views.
Proof.
  induction blks as [|blk blks IH]; intros n later tail Hn.
  - exists []. rewrite multiples_nil by (simpl; lia). simpl. rewrite Z.add_0_r.
    by repeat split.
  - destruct (IH (n + 1) later tail ltac:(lia)) as (views & Hacq & Hcounts & Hviews).
    exists ((if (n + 1) mod iteratorReleasePeriod =? 0
             then [(n + 1, map blk_Height blks ++ later)] else []) ++ views).
    split; [|split].
    + intros pending. cbn [scheduled_events length].
      rewrite <- !app_assoc. cbn [app acquisitions].
      replace (n + Z.of_nat (S (length blks))) with (n + 1 + Z.of_nat (length blks))
        by lia.
      destruct (_ =? 0); destruct (_ =? 0); destruct (_ <=? _);
        cbn [app acquisitions executed_calls]; by rewrite Hacq.
    + cbn [length]. rewrite multiples_cons, map_app, Hcounts.
      by destruct (_ =? 0).
    + apply Forall_app. split.
      * destruct (_ =? 0); [|done]. constructor; [|done]. simpl.
        split; [lia|]. by replace (n + 1 - n) with 1 by lia.
      * eapply Forall_impl; [exact Hviews|]. intros [c view] [Hc ->]. simpl in *.
        split; [lia|].
        replace (Z.to_nat (c - n)) with (S (Z.to_nat (c - (n + 1)))) by lia.
        done.
Qed.

End ScheduleReadings.

Lemma scheduled_pending_length {A} (todo : list A) :
  ∀ (n : Z) (pending : list A),
    0 <= n →
    Z.of_nat (length pending) = n mod batchWritePeriod →
    Z.of_nat (length (scheduled_pending n pending todo))
    = (n + Z.of_nat (length todo)) mod batchWritePeriod.
Proof.
  induction todo as [|x todo IH]; intros n pending Hn Hlen.
  - simpl. by rewrite Z.add_0_r.
  - cbn [scheduled_pending length].
    replace (n + Z.of_nat (S (length todo))) with (n + 1 + Z.of_nat (length todo))
      by lia.
    pose proof (period_next n batchWritePeriod ltac:(done) Hn) as Hnext.
    apply IH; [lia|].
    destruct (Z.eqb_spec ((n + 1) mod batchWritePeriod) 0) as [Hflush|Hflush].
    + by rewrite Hflush.
    + rewrite Hnext, length_app. simpl. lia.
Qed.

Section TraceOfRun.
Context {W : Type}.
Variable lastAcceptedHeight : Z.
Variable blks : list (Block W).
Variable later : list Z.

Local Notation K := (Z.of_nat (length blks)).
Local Notation trace := (scheduled_trace lastAcceptedHeight blks later).
Local Notation last_pending := (scheduled_pending 0 [] (map blk_Height blks)).

Lemma last_pending_length :
  Z.of_nat (length last_pending) = K mod batchWritePeriod.
Proof.
  rewrite (scheduled_pending_length (map blk_Height blks) 0 []) by done.
  by rewrite length_map.
Qed.

Lemma removed_scheduled_trace : removed trace = map blk_Height blks.
Proof.
  unfold scheduled_trace. cbn [app removed]. rewrite removed_scheduled_events.
  destruct last_pending; simpl; by rewrite app_nil_r.
Qed.

Lemma writes_scheduled_trace :
  writes 0 trace
  = map (fun c => (c, 64%nat)) (multiples batchWritePeriod 1 K)
    ++ if K mod batchWritePeriod =? 0 then []
       else [(K, Z.to_nat (K mod batchWritePeriod))].
Proof.
  unfold scheduled_trace. cbn [app writes].
  rewrite writes_scheduled_events by done. f_equal.
  pose proof last_pending_length as Hlen. rewrite Z.add_0_l.
  destruct last_pending as [|h pending]; simpl in *.
  - by rewrite <- Hlen.
  - rewrite <- Hlen. simpl. do 3 f_equal. rewrite length_map. lia.
Qed.

Lemma releases_scheduled_trace :
  releases 0 [] trace
  = map (fun c => (c, [])) (multiples iteratorReleasePeriod 1 K) ++ [(K, [])].
Proof.
  unfold scheduled_trace. cbn [app releases].
  rewrite releases_scheduled_events. f_equal. rewrite Z.add_0_l.
  by destruct last_pending.
Qed.

Lemma acquisitions_scheduled_trace :
  map fst (acquisitions 0 trace) = 0 :: multiples iteratorReleasePeriod 1 K
  ∧ Forall (fun a => a.2 = drop (Z.to_nat a.1) (map blk_Height blks ++ later))
      (acquisitions 0 trace).
Proof.
  unfold scheduled_trace. cbn [app acquisitions].
  destruct (acquisitions_scheduled_events lastAcceptedHeight blks 0 later
              (final_write last_pending ++ [EvRelease]) ltac:(done))
    as (views & Hacq & Hcounts & Hviews).
  rewrite Hacq.
  assert (acquisitions (0 + K) (final_write last_pending ++ [EvRelease]) = []) as ->
    by (by destruct last_pending).
  rewrite app_nil_r. split.
  - simpl. by rewrite Hcounts.
  - constructor; [done|]. eapply Forall_impl; [exact Hviews|].
    intros [c view] [_ ->]. simpl. by rewrite Z.sub_0_r.
Qed.

End TraceOfRun.

(** C5. A run of [execute] that meets no error and no cancellation follows the
    schedule of the specification. Every entry is passed to interval.Remove
    once, in the order of the store; the batch is written each time 64
    entries were processed since the last write, and once more at the end if
    deletions are left; the cursor is released and a new one acquired each
    time 1024 entries were processed, nothing queued being unwritten at that
    moment, and the new cursor's view consists of exactly the entries not yet
    processed. For 1025 entries there is one such release, after 1024 entries
    (the cursor of the moment is also released when [execute] returns). *)
Theorem execute_flush_release_schedule {W} (ctx : Context) (parser : Parser W)
    (H : Z) (entries : list (Z * bytes)) (blks : list (Block W))
    (tree : Tree) (w : W) (fuel : nat) :
  holds_blocks parser entries blks →
  NoDup (map fst entries) →
  blocks_succeed H blks w →
  (∀ polls, (polls <= S (length entries))%nat → ctx_Err ctx polls = None) →
  (length entries < fuel)%nat →
  let K := Z.of_nat (length entries) in
  let keys := map fst entries in
  ∃ s', execute ctx parser H fuel (mkDatabase entries []) tree w = Some (None, s')
        ∧ x_trace s' = scheduled_trace H blks []
        ∧ removed (x_trace s') = keys
        ∧ writes 0 (x_trace s')
          = map (fun c => (c, 64%nat)) (multiples batchWritePeriod 1 K)
            ++ (if K mod batchWritePeriod =? 0 then []
                else [(K, Z.to_nat (K mod batchWritePeriod))])
        ∧ releases 0 [] (x_trace s')
          = map (fun c => (c, [])) (multiples iteratorReleasePeriod 1 K) ++ [(K, [])]
        ∧ map fst (acquisitions 0 (x_trace s'))
          = 0 :: multiples iteratorReleasePeriod 1 K
        ∧ Forall (fun a => a.2 = drop (Z.to_nat a.1) keys)
            (acquisitions 0 (x_trace s'))
        ∧ (K = 1025 →
           releases 0 [] (x_trace s') = [(1024, []); (1025, [])]
           ∧ acquisitions 0 (x_trace s') = [(0, keys); (1024, drop 1024 keys)]
           ∧ map fst (writes 0 (x_trace s'))
             = map (fun j => 64 * j) (seqZ 1 16) ++ [1025]).
Proof.
  intros Hholds Hnd Hok Hctx Hfuel K keys. subst K keys.
  pose proof (holds_blocks_length parser entries blks Hholds) as Hlen.
  pose proof (holds_blocks_keys parser entries blks Hholds) as Hkeys.
  pose proof (execute_scheduled ctx parser H entries [] blks fuel tree w) as Hrun.
  rewrite app_nil_r in Hrun. rewrite Hrun; clear Hrun; try done.
  - rewrite Hctx by lia. eexists. split; [done|]. cbn [x_trace map].
    pose proof (removed_scheduled_trace H blks []) as Hremoved.
    pose proof (writes_scheduled_trace H blks []) as Hwrites.
    pose proof (releases_scheduled_trace H blks []) as Hreleases.
    pose proof (acquisitions_scheduled_trace H blks []) as [Hcounts Hviews].
    rewrite app_nil_r in Hviews. rewrite Hlen, Hkeys in *.
    repeat (split; [done|]).
    intros HK. split; [|split].
    + rewrite Hreleases, HK. by vm_compute.
    + rewrite HK in Hcounts.
      assert (multiples iteratorReleasePeriod 1 1025 = [1024]) as Hm by (by vm_compute).
      rewrite Hm in Hcounts.
      destruct (acquisitions 0 (scheduled_trace H blks []))
        as [|[c0 v0] [|[c1 v1] [|]]]; try done.
      injection Hcounts as -> ->.
      apply Forall_cons in Hviews as [Hv0 Hviews].
      apply Forall_cons in Hviews as [Hv1 _]. simpl in *. by subst.
    + rewrite Hwrites, HK. by vm_compute.
  - intros i Hi. apply Hctx. lia.
  - by right.
Qed.

Lemma execute_flush_release_schedule_witness :
  ∃ s', execute None Sample.parser 0 1026 (Sample.store 1 1025) [mkInterval 1 1025] []
        = Some (None, s')
        ∧ x_trace s' = scheduled_trace 0 (Sample.blocks 1 1025) []
        ∧ removed (x_trace s') = seqZ 1 1025
        ∧ releases 0 [] (x_trace s') = [(1024, []); (1025, [])]
        ∧ acquisitions 0 (x_trace s') = [(0, seqZ 1 1025); (1024, [1025])]
        ∧ map fst (writes 0 (x_trace s')) = map (fun j => 64 * j) (seqZ 1 16) ++ [1025].
Proof.
  destruct (execute_flush_release_schedule None Sample.parser 0
              (db_blocks (Sample.store 1 1025)) (Sample.blocks 1 1025)
              [mkInterval 1 1025] [] 1026%nat)
    as (s' & Hrun & Htrace & Hremoved & _ & _ & _ & _ & Hscenario).
  - apply Sample_holds_blocks; lia.
  - rewrite Sample_store_keys. apply NoDup_seqZ.
  - apply Sample_blocks_succeed.
  - reflexivity.
  - rewrite Sample_store_length. lia.
  - exists s'. rewrite Sample_store_keys in *.
    destruct Hscenario as (Hrel & Hacq & Hwr);
      [rewrite Sample_store_length; reflexivity|].
    split; [exact Hrun|]. split; [exact Htrace|]. split; [exact Hremoved|].
    split; [exact Hrel|]. split; [|exact Hwr].
    rewrite Hacq. vm_compute. reflexivity.
Defined.

Lemma written_scheduled_events {W} (H : Z) (blks : list (Block W)) :
  ∀ n pending later tail,
    written (scheduled_events H n pending blks later
             ++ final_write (scheduled_pending n pending (map blk_Height blks))
             ++ tail)
    = map OpDelete (pending ++ map blk_Height blks) ++ written tail.
Proof.
  induction blks as [|blk blks IH]; intros n pending later tail.
  - simpl. rewrite app_nil_r. by destruct pending.
  - cbn [scheduled_events map scheduled_pending]. rewrite <- !app_assoc.
    cbn [app written].
    destruct ((n + 1) mod batchWritePeriod =? 0);
      destruct ((n + 1) mod iteratorReleasePeriod =? 0);
      destruct (blk_Height blk <=? H);
      cbn [app written executed_calls]; rewrite IH;
      rewrite ?map_app, <- ?app_assoc; done.
Qed.

Lemma written_scheduled_trace {W} (H : Z) (blks : list (Block W)) (later : list Z) :
  written (scheduled_trace H blks later) = map OpDelete (map blk_Height blks).
Proof.
  unfold scheduled_trace. cbn [app written].
  rewrite written_scheduled_events. simpl. by rewrite app_nil_r.
Qed.

Lemma ctx_Err_before (c polls : nat) :
  (polls < c)%nat → ctx_Err (Some c) polls = None.
Proof. intros. unfold ctx_Err. by rewrite (proj2 (Nat.leb_gt c polls)). Qed.

Lemma ctx_Err_after (c polls : nat) :
  (c <= polls)%nat → ctx_Err (Some c) polls = Some ErrContext.
Proof. intros. unfold ctx_Err. by rewrite (proj2 (Nat.leb_le c polls)). Qed.

(** C6. The context is found cancelled at the evaluation of ctx.Err() that
    follows the entries [todo]; the entries [later] are still in the store.
    [execute] evaluates ctx.Err() once before each iteration, once more to
    leave the loop and once to read the error it returns. It processes no
    entry of [later], writes the deletions still queued (as many as entries
    were processed since the last periodic write) in one final batch, and
    returns the context's error. The store then holds exactly [later]; a
    second run from the state left processes the entries of [later] and none
    of [todo]. *)
Theorem execute_cancelled {W} (parser : Parser W) (H : Z)
    (todo later : list (Z * bytes)) (blks : list (Block W))
    (tree : Tree) (w : W) (fuel : nat) :
  holds_blocks parser todo blks →
  NoDup (map fst (todo ++ later)) →
  blocks_succeed H blks w →
  (length todo < fuel)%nat →
  let c := length todo in
  ∃ s', execute (Some c) parser H fuel (mkDatabase (todo ++ later) []) tree w
        = Some (Some ErrContext, s')
        ∧ x_polls s' = (c + 2)%nat
        ∧ removed (x_trace s') = map fst todo
        ∧ block_calls (x_trace s')
          = flat_map (fun blk => if blk_Height blk <=? H then []
                                 else executed_calls blk) blks
        ∧ writes 0 (x_trace s')
          = map (fun n => (n, 64%nat)) (multiples batchWritePeriod 1 (Z.of_nat c))
            ++ (if Z.of_nat c mod batchWritePeriod =? 0 then []
                else [(Z.of_nat c, Z.to_nat (Z.of_nat c mod batchWritePeriod))])
        ∧ written (x_trace s') = map OpDelete (map fst todo)
        ∧ x_batch s' = []
        ∧ x_db s' = mkDatabase later []
        ∧ x_tree s' = foldl (fun t kv => delete kv.1 t) tree todo
        ∧ x_world s' = world_after H blks w
        ∧ ∀ ctx' H' blks' fuel',
            holds_blocks parser later blks' →
            blocks_succeed H' blks' (x_world s') →
            (∀ polls, (polls <= S (length later))%nat → ctx_Err ctx' polls = None) →
            (length later < fuel')%nat →
            ∃ s'', execute ctx' parser H' fuel' (x_db s') (x_tree s') (x_world s')
                   = Some (None, s'')
                   ∧ removed (x_trace s'') = map fst later
                   ∧ (∀ h, h ∈ map fst todo → h ∉ removed (x_trace s''))
                   ∧ block_calls (x_trace s'')
                     = flat_map (fun blk => if blk_Height blk <=? H' then []
                                            else executed_calls blk) blks'.
Proof.
  intros Hholds Hnd Hok Hfuel c. subst c.
  pose proof (holds_blocks_length parser todo blks Hholds) as Hlen.
  pose proof (holds_blocks_keys parser todo blks Hholds) as Hkeys.
  rewrite (execute_scheduled (Some (length todo)) parser H todo later blks fuel tree w);
    try done.
  - rewrite ctx_Err_after by lia. eexists. split; [done|].
    cbn [x_polls x_trace x_batch x_db x_tree x_world].
    split; [lia|].
    split; [by rewrite removed_scheduled_trace|].
    split; [by rewrite block_calls_scheduled_trace|].
    split; [by rewrite writes_scheduled_trace, Hlen|].
    split; [by rewrite written_scheduled_trace, Hkeys|].
    do 4 (split; [done|]).
    intros ctx' H' blks' fuel' Hholds' Hok' Hctx' Hfuel'.
    assert (NoDup (map fst later)) as Hnd'.
    { rewrite map_app in Hnd. by apply NoDup_app in Hnd as (_ & _ & Hnd). }
    pose proof (execute_scheduled ctx' parser H' later [] blks' fuel'
                  (foldl (fun t kv => delete kv.1 t) tree todo)
                  (world_after H blks w)) as Hrun.
    rewrite app_nil_r in Hrun. rewrite Hrun; clear Hrun; try done.
    + rewrite Hctx' by lia. eexists. split; [done|]. cbn [x_trace map].
      rewrite removed_scheduled_trace, block_calls_scheduled_trace.
      rewrite (holds_blocks_keys parser later blks' Hholds').
      repeat split; try done.
      intros h Hh Hh'. rewrite map_app in Hnd.
      apply NoDup_app in Hnd as (_ & Hdisj & _). by apply (Hdisj h).
    + intros i Hi. apply Hctx'. lia.
    + by right.
  - intros i Hi. by apply ctx_Err_before.
  - left. by rewrite ctx_Err_after.
Qed.

Lemma execute_cancelled_witness :
  ∃ s', execute (Some 40%nat) Sample.parser 0 41 (Sample.store 1 64)
          [mkInterval 1 64] []
        = Some (Some ErrContext, s')
        ∧ x_polls s' = 42%nat
        ∧ removed (x_trace s') = seqZ 1 40
        ∧ writes 0 (x_trace s') = [(40, 40%nat)]
        ∧ x_db s' = Sample.store 41 24
        ∧ ∃ s'', execute None Sample.parser 40 25 (x_db s') (x_tree s') (x_world s')
                 = Some (None, s'')
                 ∧ removed (x_trace s'') = seqZ 41 24.
Proof.
  destruct (execute_cancelled Sample.parser 0
              (db_blocks (Sample.store 1 40)) (db_blocks (Sample.store 41 24))
              (Sample.blocks 1 40) [mkInterval 1 64] [] 41%nat)
    as (s' & Hrun & Hpolls & Hremoved & _ & Hwrites & _ & _ & Hdb & _ & _ & Hrerun).
  - apply Sample_holds_blocks; lia.
  - vm_compute. apply (NoDup_seqZ 1 64).
  - apply Sample_blocks_succeed.
  - rewrite Sample_store_length. lia.
  - exists s'. split; [exact Hrun|]. split; [exact Hpolls|].
    split; [by rewrite Hremoved, Sample_store_keys|].
    split; [exact Hwrites|]. split; [exact Hdb|].
    destruct (Hrerun None 40 (Sample.blocks 41 24) 25%nat)
      as (s'' & Hrun' & Hremoved' & _).
    + apply Sample_holds_blocks; lia.
    + apply Sample_blocks_succeed.
    + reflexivity.
    + rewrite Sample_store_length. lia.
    + exists s''. split; [exact Hrun'|]. by rewrite Hremoved', Sample_store_keys.
Defined.

(** *** Any run: what the store and the batch hold *)

Lemma written_app (t1 t2 : list Event) : written (t1 ++ t2) = written t1 ++ written t2.
Proof.
  induction t1 as [|ev t1 IH]; [done|]. destruct ev as [| | |ops [e|]| |]; simpl; try done.
  by rewrite IH, app_assoc.
Qed.

Lemma unwritten_app (t1 t2 : list Event) :
  ∀ queued, unwritten queued (t1 ++ t2) = unwritten (unwritten queued t1) t2.
Proof.
  induction t1 as [|ev t1 IH]; intros queued; [done|].
  destruct ev as [| | |ops [e|]| |]; simpl; by rewrite ?IH.
Qed.

Lemma removed_app (t1 t2 : list Event) : removed (t1 ++ t2) = removed t1 ++ removed t2.
Proof.
  induction t1 as [|ev t1 IH]; [done|]. destruct ev; simpl; by rewrite ?IH.
Qed.

Lemma block_calls_snoc (t : list Event) (ev : Event) :
  is_block_call ev = false → block_calls (t ++ [ev]) = block_calls t.
Proof. intros Hev. rewrite block_calls_app. simpl. rewrite Hev. apply app_nil_r. Qed.

Section AnyRun.
Context {W : Type}.
Variable ctx : Context.
Variable parser : Parser W.
Variable lastAcceptedHeight : Z.
Variable blocks0 : list (Z * bytes).

Local Notation quiet := (quiet blocks0 lastAcceptedHeight).

(** Appending an event that is neither a write nor a removal nor a call. *)
Lemma quiet_snoc (s s' : ExecState W) (ev : Event) :
  quiet s →
  x_db s' = x_db s → x_batch s' = x_batch s → x_trace s' = x_trace s ++ [ev] →
  written [ev] = [] → (∀ q, unwritten q [ev] = q) → removed [ev] = [] →
  above lastAcceptedHeight ev → failed_call ev = None →
  quiet s'.
Proof.
  intros ((Hdb & Hbatch & Hrem) & Habove & Hfail) Edb Ebatch Etrace Hw Hu Hr Ha Hf.
  unfold quiet, durable. rewrite Edb, Ebatch, Etrace.
  rewrite written_app, unwritten_app, removed_app, Hw, Hu, Hr, !app_nil_r.
  repeat split; try done; apply Forall_app; split; try done; by constructor.
Qed.

Lemma removeBlock_spec (height : Z) (s : ExecState W) :
  ∀ r s', removeBlock height s = (r, s') →
    x_world s' = x_world s
    ∧ x_processedSinceBatchWrite s' = x_processedSinceBatchWrite s
    ∧ x_iterator s' = x_iterator s
    ∧ db_blocks (x_db s') = db_blocks (x_db s)
    ∧ ((r = Ok tt
        ∧ x_batch s' = x_batch s ++ [OpDelete height]
        ∧ x_tree s' = delete height (x_tree s)
        ∧ x_trace s' = x_trace s ++ [EvRemove height])
       ∨ ((∃ e, r = Err e)
          ∧ x_batch s' = x_batch s ∧ x_tree s' = x_tree s ∧ x_trace s' = x_trace s)).
Proof.
  intros r s'. unfold removeBlock, Remove.
  pose proof (storage_op_blocks (x_db s)) as Hb.
  destruct (storage_op (x_db s)) as [[e|] db']; intros [= <- <-]; simpl in *;
    repeat split; try done.
  - right. repeat split; try done. by exists e.
  - left. by repeat split.
Qed.

Lemma writeBatch_spec (s : ExecState W) :
  ∀ r s', writeBatch s = (r, s') →
    x_world s' = x_world s ∧ x_tree s' = x_tree s ∧ x_iterator s' = x_iterator s
    ∧ x_processedSinceIteratorRelease s' = x_processedSinceIteratorRelease s
    ∧ ((x_processedSinceBatchWrite s = 0 ∧ r = Ok tt ∧ s' = s)
       ∨ (x_processedSinceBatchWrite s ≠ 0 ∧ r = Ok tt
          ∧ db_blocks (x_db s') = foldl apply_op (db_blocks (x_db s)) (x_batch s)
          ∧ x_batch s' = [] ∧ x_processedSinceBatchWrite s' = 0
          ∧ x_trace s' = x_trace s ++ [EvWrite (x_batch s) None])
       ∨ (x_processedSinceBatchWrite s ≠ 0 ∧ (∃ e, r = Err e
          ∧ x_trace s' = x_trace s ++ [EvWrite (x_batch s) (Some e)])
          ∧ db_blocks (x_db s') = db_blocks (x_db s)
          ∧ x_batch s' = x_batch s)).
Proof.
  intros r s'. unfold writeBatch, batch_Write.
  destruct (Z.eqb_spec (x_processedSinceBatchWrite s) 0) as [Hz|Hnz].
  - intros [= <- <-]. repeat split; try done. by left.
  - pose proof (storage_op_blocks (x_db s)) as Hb.
    destruct (storage_op (x_db s)) as [[e|] db']; intros [= <- <-]; simpl in *;
      repeat split; try done.
    + right. right. repeat split; try done. by exists e.
    + right. left. repeat split; try done. by rewrite Hb.
Qed.

Lemma removeBlock_quiet (height : Z) (s : ExecState W) r s' :
  removeBlock height s = (r, s') → quiet s → quiet s'.
Proof.
  intros (_ & _ & _ & Hdb & Hcases)%removeBlock_spec
         ((Edb & Ebatch & Erem) & Habove & Hfail).
  unfold quiet, durable.
  destruct Hcases as [(_ & -> & _ & ->)|(_ & -> & _ & ->)]; rewrite Hdb.
  - rewrite written_app, unwritten_app, removed_app. simpl.
    rewrite app_nil_r, !map_app, <- Ebatch, <- Erem, app_assoc.
    repeat split; try done; apply Forall_app; split; try done; by constructor.
  - by repeat split.
Qed.

Lemma writeBatch_quiet (s : ExecState W) r s' :
  writeBatch s = (r, s') → quiet s → quiet s'.
Proof.
  intros (_ & _ & _ & _ & Hcases)%writeBatch_spec
         ((Edb & Ebatch & Erem) & Habove & Hfail).
  destruct Hcases as [(_ & _ & ->)|[(_ & _ & Hdb & Hb & _ & Ht)|(_ & (e & _ & Ht) & Hdb & Hb)]].
  - by repeat split.
  - unfold quiet, durable.
    rewrite Hdb, Hb, Ht, written_app, unwritten_app, removed_app. simpl.
    rewrite !app_nil_r, foldl_app, <- Edb, <- Erem.
    repeat split; try done; apply Forall_app; split; try done; by constructor.
  - unfold quiet, durable.
    rewrite Hdb, Hb, Ht, written_app, unwritten_app, removed_app. simpl.
    rewrite !app_nil_r.
    repeat split; try done; apply Forall_app; split; try done; by constructor.
Qed.

Local Notation frame := (frame blocks0 lastAcceptedHeight).

Lemma frame_refl (s : ExecState W) : frame s s.
Proof. unfold frame. auto. Qed.

Lemma frame_trans (s1 s2 s3 : ExecState W) : frame s1 s2 → frame s2 s3 → frame s1 s3.
Proof.
  intros (Hw & Hc & Hk & Hq) (Hw' & Hc' & Hk' & Hq').
  unfold frame. split; [congruence|]. split; [congruence|]. auto.
Qed.

Lemma removeBlock_frame (height : Z) (s : ExecState W) r s' :
  removeBlock height s = (r, s') → frame s s'.
Proof.
  intros Hrun. pose proof (removeBlock_quiet _ _ _ _ Hrun) as Hq.
  apply removeBlock_spec in Hrun as (Hw & _ & _ & _ & Hcases).
  split; [done|]. split; [|split; [|done]].
  - destruct Hcases as [(_ & _ & _ & ->)|(_ & _ & _ & ->)]; [|done].
    by apply block_calls_snoc.
  - intros h [Hb|Hwr]; destruct Hcases as [(_ & Eb & _ & Et)|(_ & Eb & _ & Et)];
      unfold kept; rewrite Eb, Et, ?written_app.
    + left. apply in_or_app. by left.
    + by left.
    + right. apply in_or_app. by left.
    + by right.
Qed.

Lemma writeBatch_frame (s : ExecState W) r s' :
  writeBatch s = (r, s') → frame s s'.
Proof.
  intros Hrun. pose proof (writeBatch_quiet _ _ _ Hrun) as Hq.
  apply writeBatch_spec in Hrun as (Hw & _ & _ & _ & Hcases).
  split; [done|]. split; [|split; [|done]].
  - destruct Hcases as [(_ & _ & ->)|[(_ & _ & _ & _ & _ & ->)|(_ & (e & _ & ->) & _)]];
      [done|by apply block_calls_snoc..].
  - intros h [Hb|Hwr];
      destruct Hcases as [(_ & _ & ->)|[(_ & _ & _ & Eb & _ & Et)|(_ & (e & _ & Et) & _ & Eb)]];
      unfold kept; rewrite ?Eb, ?Et, ?written_app; simpl.
    + by left.
    + right. apply in_or_app. right. by rewrite app_nil_r.
    + by left.
    + by right.
    + right. apply in_or_app. by left.
    + right. by rewrite app_nil_r.
Qed.

Lemma countBatchWrite_frame (s : ExecState W) r s' :
  countBatchWrite s = (r, s') → frame s s' ∧ x_tree s' = x_tree s.
Proof.
  unfold countBatchWrite.
  set (s1 := mkExecState _ _ _ _ _ _ _ _ _).
  assert (frame s s1) as Hf by (unfold frame; auto).
  destruct (batchWritePeriod <=? _).
  - intros Hrun. split; [eapply frame_trans; [exact Hf|by eapply writeBatch_frame]|].
    by apply writeBatch_spec in Hrun as (_ & -> & _).
  - by intros [= <- <-].
Qed.

Lemma countBatchWrite_counted (s : ExecState W) s' :
  countBatchWrite s = (Ok tt, s') →
  x_processedSinceBatchWrite s + 1 = Z.of_nat (length (x_batch s)) →
  Z.of_nat (length (x_batch s)) <= batchWritePeriod →
  counted s'.
Proof.
  unfold countBatchWrite. intros Hrun Hc Hlen.
  rewrite u64_small in Hrun by (unfold batchWritePeriod in *; lia).
  destruct (Z.leb_spec batchWritePeriod (x_processedSinceBatchWrite s + 1)) as [Hge|Hlt].
  - apply writeBatch_spec in Hrun as (_ & _ & _ & _ & Hcases). simpl in Hcases.
    destruct Hcases as [(Hz & _)|[(_ & _ & _ & Eb & Ec & _)|(_ & (e & ? & _) & _)]];
      [unfold batchWritePeriod in *; lia| |done].
    unfold counted. rewrite Eb, Ec. done.
  - injection Hrun as <-. unfold counted. simpl. lia.
Qed.

Lemma countIteratorRelease_frame (s : ExecState W) r s' :
  countIteratorRelease s = (r, s') → frame s s' ∧ x_tree s' = x_tree s.
Proof.
  unfold countIteratorRelease.
  set (s1 := mkExecState _ _ _ _ _ _ _ _ _).
  assert (frame s s1) as Hf by (unfold frame; auto).
  destruct (iteratorReleasePeriod <=? _); [|by intros [= <- <-]].
  unfold bind, check. destruct (iterator_Error (x_iterator s1)) as [e|].
  { by intros [= <- <-]. }
  unfold ret. destruct (writeBatch s1) as [[[]|e] s2] eqn:Hw.
  - pose proof (writeBatch_frame _ _ _ Hw) as Hf2.
    apply writeBatch_spec in Hw as (_ & Et & _).
    unfold reacquireIterator. intros [= <- <-]. split; [|done].
    eapply frame_trans; [exact Hf|]. eapply frame_trans; [exact Hf2|].
    split; [done|]. split; [|split].
    + cbn [x_trace]. rewrite block_calls_app. simpl. apply app_nil_r.
    + intros h [Hb|Hwr]; [by left|right]. cbn [x_trace]. rewrite written_app.
      apply in_or_app. by left.
    + intros ((Edb & Ebatch & Erem) & Habove & Hfail). unfold quiet, durable.
      cbn [x_trace x_db x_batch].
      rewrite written_app, unwritten_app, removed_app. simpl. rewrite !app_nil_r.
      repeat split; try done; apply Forall_app; split; try done;
        by repeat constructor.
  - pose proof (writeBatch_frame _ _ _ Hw) as Hf2.
    apply writeBatch_spec in Hw as (_ & Et & _).
    intros [= <- <-]. split; [|done]. by eapply frame_trans.
Qed.

Lemma countIteratorRelease_counted (s : ExecState W) s' :
  countIteratorRelease s = (Ok tt, s') → counted s → counted s'.
Proof.
  unfold countIteratorRelease.
  set (s1 := mkExecState _ _ _ _ _ _ _ _ _).
  intros Hrun Hc. assert (counted s1) as Hc1 by done. clearbody s1.
  destruct (iteratorReleasePeriod <=? _); [|by injection Hrun as <-].
  unfold bind, check in Hrun. destruct (iterator_Error (x_iterator s1)); [done|].
  unfold ret in Hrun. destruct (writeBatch s1) as [[[]|e] s2] eqn:Hw; [|done].
  injection Hrun as <-. unfold counted. cbn [x_processedSinceBatchWrite x_batch].
  apply writeBatch_spec in Hw as (_ & _ & _ & _ & Hcases).
  destruct Hcases as [(_ & _ & ->)|[(_ & _ & _ & -> & -> & _)|(_ & (e & ? & _) & _)]];
    done.
Qed.

(** Verify then Accept on a block above the last accepted height. *)
Lemma calls_spec (blk : Block W) (s : ExecState W) r s' :
  lastAcceptedHeight < blk_Height blk →
  bind (verifyBlock blk) (fun _ => acceptBlock blk) s = (r, s') →
  quiet s → counted s →
  x_tree s' = x_tree s
  ∧ durable blocks0 s'
  ∧ Forall (above lastAcceptedHeight) (x_trace s')
  ∧ ending r s'.
Proof.
  intros Hh Hrun ((Edb & Ebatch & Erem) & Habove & Hfail) [Hc Hlen].
  unfold bind, verifyBlock, acceptBlock in Hrun.
  destruct (blk_Verify blk (x_world s)) as [[cause|] w1].
  - injection Hrun as <- <-. cbn [x_tree]. split; [done|].
    unfold durable, ending, counted. cbn [x_trace x_db x_batch x_processedSinceBatchWrite].
    rewrite written_app, unwritten_app, removed_app. simpl. rewrite !app_nil_r.
    repeat split; try done.
    + apply Forall_app. split; [done|]. by repeat constructor.
    + right. eexists _, _, _. by repeat split.
  - cbn [x_world] in Hrun.
    destruct (blk_Accept blk w1) as [[cause|] w2]; injection Hrun as <- <-;
      cbn [x_tree]; (split; [done|]);
      unfold durable, ending, counted;
      cbn [x_trace x_db x_batch x_processedSinceBatchWrite];
      rewrite !written_app, !unwritten_app, !removed_app; simpl; rewrite !app_nil_r.
    + repeat split; try done.
      * repeat (apply Forall_app; split); try done; by repeat constructor.
      * right. eexists _, _, _. repeat split; try done.
        apply Forall_app. split; [done|]. by repeat constructor.
    + repeat split; try done.
      * repeat (apply Forall_app; split); try done; by repeat constructor.
      * left. split; [|done].
        repeat (apply Forall_app; split); try done; by repeat constructor.
Qed.

Lemma ending_quiet (r : result unit) (s : ExecState W) :
  quiet s → (r = Ok tt → counted s) → ending r s.
Proof. intros (_ & _ & Hfail) Hc. by left. Qed.

Lemma quiet_exit (r : result unit) (s : ExecState W) :
  quiet s → (r = Ok tt → counted s) →
  durable blocks0 s
  ∧ Forall (above lastAcceptedHeight) (x_trace s)
  ∧ ending r s
  ∧ (r = Ok tt → quiet s).
Proof.
  intros Hq Hc. pose proof Hq as (Hd & Ha & Hf).
  split; [done|]. split; [done|]. split; [by left|done].
Qed.

(** One iteration from a state at the head of the loop. *)
Lemma iteration_any (blkBytes : bytes) (s : ExecState W) r s' :
  iteration parser lastAcceptedHeight blkBytes s = (r, s') →
  quiet s → counted s →
  durable blocks0 s'
  ∧ Forall (above lastAcceptedHeight) (x_trace s')
  ∧ ending r s'
  ∧ (r = Ok tt → quiet s').
Proof.
  unfold iteration. intros Hrun Hq Hc.
  destruct (parser blkBytes) as [blk|e].
  2:{ injection Hrun as <- <-. by apply quiet_exit. }
  unfold bind at 1 in Hrun.
  destruct (removeBlock (blk_Height blk) s) as [[[]|e] s1] eqn:Hrem.
  2:{ injection Hrun as <- <-. apply quiet_exit; [|done].
      by apply (removeBlock_quiet _ _ _ _ Hrem). }
  pose proof (removeBlock_quiet _ _ _ _ Hrem Hq) as Hq1.
  apply removeBlock_spec in Hrem as (_ & Ec1 & _ & _ & [(_ & Eb1 & _)|((e & ?) & _)]);
    [|done].
  unfold bind at 1 in Hrun.
  destruct (countBatchWrite s1) as [[[]|e] s2] eqn:Hcount.
  2:{ injection Hrun as <- <-. apply quiet_exit; [|done].
      destruct (countBatchWrite_frame _ _ _ Hcount) as [(_ & _ & _ & Hq2) _]. auto. }
  destruct (countBatchWrite_frame _ _ _ Hcount) as [(_ & _ & _ & Hq2) _].
  specialize (Hq2 Hq1).
  assert (counted s2) as Hc2.
  { apply (countBatchWrite_counted _ _ Hcount).
    - destruct Hc as [Hc _]. rewrite Ec1, Eb1, Hc, length_app. simpl. lia.
    - destruct Hc as [_ Hc]. rewrite Eb1, length_app. simpl. lia. }
  unfold bind at 1 in Hrun.
  destruct (countIteratorRelease s2) as [[[]|e] s3] eqn:Hrel.
  2:{ injection Hrun as <- <-. apply quiet_exit; [|done].
      destruct (countIteratorRelease_frame _ _ _ Hrel) as [(_ & _ & _ & Hq3) _]. auto. }
  destruct (countIteratorRelease_frame _ _ _ Hrel) as [(_ & _ & _ & Hq3) _].
  specialize (Hq3 Hq2).
  pose proof (countIteratorRelease_counted _ _ Hrel Hc2) as Hc3.
  destruct (Z.leb_spec (blk_Height blk) lastAcceptedHeight) as [Hle|Hgt].
  - injection Hrun as <- <-. by apply quiet_exit.
  - destruct (calls_spec blk s3 r s' Hgt Hrun Hq3 Hc3) as (_ & Hd & Ha & He).
    split; [done|]. split; [done|]. split; [done|].
    intros ->. destruct He as [[Hf _]|(pre & ev & e & _ & _ & _ & ? & _)]; done.
Qed.

Lemma loopCondition_spec (s : ExecState W) :
  ∀ o s1, loopCondition ctx s = (o, s1) →
    db_blocks (x_db s1) = db_blocks (x_db s)
    ∧ x_tree s1 = x_tree s ∧ x_world s1 = x_world s ∧ x_batch s1 = x_batch s
    ∧ x_processedSinceBatchWrite s1 = x_processedSinceBatchWrite s
    ∧ x_trace s1 = x_trace s.
Proof.
  intros o s1. unfold loopCondition, iterator_Next.
  destruct (ctx_Err ctx (x_polls s)); [by intros [= <- <-]|].
  pose proof (storage_op_blocks (x_db s)) as Hb.
  destruct (it_rest (x_iterator s));
    destruct (storage_op (x_db s)) as [[e|] db']; by intros [= <- <-].
Qed.

Lemma loopCondition_quiet (s : ExecState W) o s1 :
  loopCondition ctx s = (o, s1) → (quiet s → quiet s1) ∧ (counted s → counted s1).
Proof.
  intros (Edb & _ & _ & Eb & Ec & Et)%loopCondition_spec.
  unfold quiet, durable, counted. by rewrite Edb, Eb, Ec, Et.
Qed.

(** The loop, from a state at its head. *)
Lemma executeLoop_any (fuel : nat) :
  ∀ s r s',
    executeLoop ctx parser lastAcceptedHeight fuel s = Some (r, s') →
    quiet s → counted s →
    durable blocks0 s'
    ∧ Forall (above lastAcceptedHeight) (x_trace s')
    ∧ ending r s'.
Proof.
  induction fuel as [|fuel IH]; intros s r s' Hrun Hq Hc; [done|].
  cbn [executeLoop] in Hrun.
  destruct (loopCondition ctx s) as [[kv|] s1] eqn:Hcond;
    apply loopCondition_quiet in Hcond as [Hq1 Hc1];
    specialize (Hq1 Hq); specialize (Hc1 Hc).
  - destruct (iteration parser lastAcceptedHeight kv.2 s1) as [[[]|e] s2] eqn:Hit.
    + destruct (iteration_any _ _ _ _ Hit Hq1 Hc1) as (_ & _ & He & Hq2).
      apply (IH s2 r s' Hrun); [by apply Hq2|].
      destruct He as [[_ Hc2]|(pre & ev & e & _ & _ & _ & ? & _)]; [by apply Hc2|done].
    + injection Hrun as <- <-.
      by destruct (iteration_any _ _ _ _ Hit Hq1 Hc1) as (? & ? & ? & _).
  - injection Hrun as <- <-.
    by destruct (quiet_exit (Ok tt) s1 Hq1) as (? & ? & ? & _).
Qed.

Lemma afterLoop_quiet (s : ExecState W) r s' :
  afterLoop ctx s = (r, s') → quiet s → quiet s'.
Proof.
  unfold afterLoop, bind, check, ret, fail. intros Hrun Hq.
  destruct (writeBatch s) as [[[]|e] s1] eqn:Hw;
    pose proof (writeBatch_frame _ _ _ Hw) as (_ & _ & _ & Hq1); specialize (Hq1 Hq).
  - destruct (iterator_Error (x_iterator s1)); [by injection Hrun as <- <-|].
    destruct (ctx_Err ctx (x_polls s1)); by injection Hrun as <- <-.
  - by injection Hrun as <- <-.
Qed.

End AnyRun.

(** Any run of [execute]: the state it leaves is [durable], all its calls of
    Verify and Accept are on blocks above the last accepted height, and a call
    that failed is the last thing it did before the deferred release. *)
Lemma execute_any {W} (ctx : Context) (parser : Parser W) (H : Z) (fuel : nat)
    (db : Database) (tree : Tree) (w : W) r s' :
  execute ctx parser H fuel db tree w = Some (r, s') →
  durable (db_blocks db) s'
  ∧ Forall (above H) (x_trace s')
  ∧ (Forall (fun ev => failed_call ev = None) (x_trace s')
     ∨ ∃ pre ev e,
         x_trace s' = pre ++ [ev; EvRelease]
         ∧ Forall (fun ev' => failed_call ev' = None) pre
         ∧ failed_call ev = Some e
         ∧ r = Some e
         ∧ counted s').
Proof.
  unfold execute. set (s0 := mkExecState _ _ _ _ _ _ _ _ _).
  assert (quiet (db_blocks db) H s0) as Hq0.
  { repeat split; try done; by repeat constructor. }
  assert (counted s0) as Hc0 by done.
  destruct (executeLoop ctx parser H fuel s0) as [[r1 s1]|] eqn:Hloop; [|done].
  destruct (executeLoop_any ctx parser H (db_blocks db) fuel s0 r1 s1 Hloop Hq0 Hc0)
    as (Hd & Ha & He).
  destruct r1 as [[]|e1].
  - destruct He as [[Hf _]|(pre & ev & e & _ & _ & _ & ? & _)]; [|done].
    assert (quiet (db_blocks db) H s1) as Hq1 by done.
    destruct (afterLoop ctx s1) as [r2 s2] eqn:Hafter.
    pose proof (afterLoop_quiet ctx H (db_blocks db) s1 r2 s2 Hafter Hq1) as Hq2.
    intros [= <- <-].
    assert (quiet (db_blocks db) H
              (mkExecState (x_db s2) (x_tree s2) (x_world s2) (x_batch s2)
                 (x_processedSinceBatchWrite s2) (x_iterator s2)
                 (x_processedSinceIteratorRelease s2) (x_polls s2)
                 (x_trace s2 ++ [EvRelease]))) as (? & ? & ?)
      by (by eapply quiet_snoc).
    split; [done|]. split; [done|]. by left.
  - intros [= <- <-]. destruct Hd as (Edb & Eb & Er).
    unfold durable. cbn [x_trace x_db x_batch].
    rewrite written_app, unwritten_app, removed_app. simpl. rewrite !app_nil_r.
    split; [done|]. split; [apply Forall_app; split; [done|by repeat constructor]|].
    destruct He as [[Hf _]|(pre & ev & e & Et & Hpre & Hev & [= ->] & Hc)].
    + left. apply Forall_app. split; [done|by repeat constructor].
    + right. exists pre, ev, e. rewrite Et, <- app_assoc.
      repeat split; try done; apply Hc.
Qed.

Lemma kv_get_delete_ne (h k : Z) (l : list (Z * bytes)) :
  h ≠ k → kv_get h (kv_delete k l) = kv_get h l.
Proof.
  intros Hne. unfold kv_delete. induction l as [|[k' v] l IH]; [done|].
  destruct (decide (k' = k)) as [->|Hk].
  - rewrite filter_cons_False by (simpl; auto). simpl.
    by rewrite (proj2 (Z.eqb_neq k h)) by done.
  - rewrite filter_cons_True by done. simpl. by rewrite IH.
Qed.

Lemma kv_get_deletes (h : Z) (ops : list BatchOp) :
  ∀ l, (∀ op, In op ops → ∃ k, op = OpDelete k ∧ k ≠ h) →
       kv_get h (foldl apply_op l ops) = kv_get h l.
Proof.
  induction ops as [|op ops IH]; intros l Hops; [done|]. simpl.
  rewrite IH by (intros op' Hop'; apply Hops; by right).
  destruct (Hops op ltac:(by left)) as (k & -> & Hk). simpl.
  by apply kv_get_delete_ne.
Qed.

(** C9. When a call of Verify or Accept fails, [execute] returns the error
    made of it at once: the failed call is the last thing it did before the
    deferred release of the cursor, so the batch is not written. The batch
    still holds every deletion queued since the last batch written, at most
    63, and the store is what the batches written before made of it: the
    entries whose deletion is only queued are in the store as they were. *)
Theorem execute_failed_call_keeps_store {W} (ctx : Context) (parser : Parser W)
    (H : Z) (fuel : nat) (db : Database) (tree : Tree) (w : W)
    (r : option error) (s' : ExecState W) :
  execute ctx parser H fuel db tree w = Some (r, s') →
  ∀ ev e,
    In ev (x_trace s') → failed_call ev = Some e →
    r = Some e
    ∧ (∃ pre, x_trace s' = pre ++ [ev; EvRelease])
    ∧ x_batch s' = map OpDelete (unwritten [] (x_trace s'))
    ∧ (length (x_batch s') <= 63)%nat
    ∧ db_blocks (x_db s') = foldl apply_op (db_blocks db) (written (x_trace s'))
    ∧ (∀ h, In (OpDelete h) (x_batch s') →
            ¬ In (OpDelete h) (written (x_trace s')) →
            kv_get h (db_blocks (x_db s')) = kv_get h (db_blocks db)).
Proof.
  intros Hrun ev e Hin Hev.
  destruct (execute_any ctx parser H fuel db tree w r s' Hrun)
    as ((Edb & Eb & Er) & _ & [Hf|(pre & ev' & e' & Et & Hpre & Hev' & -> & Hc)]).
  { rewrite Forall_forall in Hf. rewrite (Hf ev) in Hev; [done|].
    by apply list_elem_of_In. }
  assert (ev = ev') as <-.
  { rewrite Et in Hin. apply in_app_or in Hin as [Hin|[<-|[<-|[]]]]; [|done|done].
    rewrite Forall_forall in Hpre. rewrite (Hpre ev) in Hev; [done|].
    by apply list_elem_of_In. }
  split; [congruence|]. split; [by exists pre|]. split; [done|].
  split; [destruct Hc as [_ Hc]; unfold batchWritePeriod in Hc; lia|].
  split; [done|].
  intros h Hq Hnw. rewrite Edb. apply kv_get_deletes. intros op Hop.
  assert (In op (map OpDelete (removed (x_trace s')))) as Hin'
    by (rewrite <- Er; apply in_or_app; by left).
  apply in_map_iff in Hin' as (k & <- & _). exists k. split; [done|].
  intros ->. by apply Hnw.
Qed.

Lemma execute_failed_call_keeps_store_witness :
  ∃ s', execute None Sample.parser 0 10 (Sample.store_with 1 5 3 1) [mkInterval 1 5] []
        = Some (Some (ErrFailedVerify 3 3 (ErrVM 1)), s')
        ∧ (∃ pre, x_trace s' = pre ++ [EvVerify 3 3 (Some (ErrVM 1)); EvRelease])
        ∧ x_batch s' = [OpDelete 1; OpDelete 2; OpDelete 3]
        ∧ (length (x_batch s') <= 63)%nat
        ∧ db_blocks (x_db s') = db_blocks (Sample.store_with 1 5 3 1)
        ∧ x_world s' = [2%N; 1%N].
Proof.
  eexists. split; [vm_compute; reflexivity|].
  match goal with
  | |- context [x_trace ?s] =>
      destruct (execute_failed_call_keeps_store None Sample.parser 0 10
                  (Sample.store_with 1 5 3 1) [mkInterval 1 5] []
                  (Some (ErrFailedVerify 3 3 (ErrVM 1))) s
                  ltac:(vm_compute; reflexivity)
                  (EvVerify 3 3 (Some (ErrVM 1))) (ErrFailedVerify 3 3 (ErrVM 1)))
        as (_ & Hlast & Hbatch & Hlen & Hdb & _)
  end.
  - vm_compute. tauto.
  - reflexivity.
  - split; [exact Hlast|]. split; [exact Hbatch|]. split; [exact Hlen|].
    split; [exact Hdb|reflexivity].
Defined.


(** *** Removing a height from the tree *)

Lemma Tracks_cons (i : Interval) (t : Tree) (x : Z) :
  Tracks (i :: t) x ↔ LowerBound i <= x <= UpperBound i ∨ Tracks t x.
Proof.
  unfold Tracks. split.
  - intros (j & [->|Hj]%elem_of_cons & Hx); [by left|right; by exists j].
  - intros [Hx|(j & Hj & Hx)]; [exists i|exists j]; (split; [|done]);
      [by left|by right].
Qed.

Lemma Invariant_above_head (i : Interval) (t : Tree) (x : Z) :
  Invariant (i :: t) → Tracks t x → UpperBound i + 1 < x.
Proof.
  intros Hinv (j & Hj & Hx). pose proof (Invariant_head_below i t j Hinv Hj). lia.
Qed.

Lemma Invariant_cons (i : Interval) (t : Tree) :
  Invariant (i :: t)
  ↔ LowerBound i <= UpperBound i
    ∧ (∀ x, Tracks t x → UpperBound i + 1 < x)
    ∧ Invariant t.
Proof.
  split.
  - intros Hinv. split; [by destruct Hinv|].
    split; [intros x; by apply Invariant_above_head|by eapply Invariant_tail].
  - intros (Hi & Habove & Hinv). simpl. split; [done|]. split; [|done].
    destruct t as [|j t]; [done|]. apply Habove. exists j. split; [by left|].
    destruct Hinv as [Hj _]. lia.
Qed.

Lemma delete_Tracks (h : Z) (t : Tree) :
  Invariant t → ∀ x, Tracks (delete h t) x ↔ Tracks t x ∧ x ≠ h.
Proof.
  induction t as [|i t IH]; intros Hinv x.
  - simpl. split; [intros []%Tracks_nil|intros [[]%Tracks_nil _]].
  - apply Invariant_cons in Hinv as (Hi & Habove & Hinv). specialize (IH Hinv).
    pose proof (Habove x) as Hx. simpl.
    destruct (Z.ltb_spec h (LowerBound i)); [|destruct (Z.leb_spec h (UpperBound i));
      [destruct (Z.eqb_spec (LowerBound i) (UpperBound i));
        [|destruct (Z.eqb_spec h (LowerBound i));
          [|destruct (Z.eqb_spec h (UpperBound i))]]|]];
      rewrite ?Tracks_cons, ?IH; simpl; split; intros; intuition lia.
Qed.

Lemma delete_Invariant (h : Z) (t : Tree) : Invariant t → Invariant (delete h t).
Proof.
  induction t as [|i t IH]; intros Hinv; [done|].
  pose proof Hinv as (Hi & Habove & Hinv')%Invariant_cons. specialize (IH Hinv').
  simpl.
  destruct (Z.ltb_spec h (LowerBound i)); [done|destruct (Z.leb_spec h (UpperBound i));
    [destruct (Z.eqb_spec (LowerBound i) (UpperBound i));
      [done|destruct (Z.eqb_spec h (LowerBound i));
        [|destruct (Z.eqb_spec h (UpperBound i))]]|]];
    rewrite ?Invariant_cons; simpl; repeat split; try done; try lia;
    intros x Hx;
    repeat (apply Tracks_cons in Hx as [Hx|Hx]; simpl in *; [lia|]);
    first [ specialize (Habove x Hx); lia
          | apply delete_Tracks in Hx as [Hx _]; [specialize (Habove x Hx); lia|done] ].
Qed.

Section SkippedBlocks.
Context {W : Type}.
Variable parser : Parser W.
Variable lastAcceptedHeight : Z.

(** The steps between two blocks only append to the trace. *)
Lemma writeBatch_extends (s : ExecState W) r s' :
  writeBatch s = (r, s') → ∃ evs, x_trace s' = x_trace s ++ evs.
Proof.
  unfold writeBatch. destruct (_ =? 0).
  - intros [= <- <-]. exists []. by rewrite app_nil_r.
  - destruct (batch_Write _ _) as [[e|] db']; intros [= <- <-]; simpl; by eexists.
Qed.

Lemma countBatchWrite_extends (s : ExecState W) r s' :
  countBatchWrite s = (r, s') → ∃ evs, x_trace s' = x_trace s ++ evs.
Proof.
  unfold countBatchWrite. destruct (_ <=? _).
  - intros Hrun. by apply writeBatch_extends in Hrun.
  - intros [= <- <-]. exists []. by rewrite app_nil_r.
Qed.

Lemma countIteratorRelease_extends (s : ExecState W) r s' :
  countIteratorRelease s = (r, s') → ∃ evs, x_trace s' = x_trace s ++ evs.
Proof.
  unfold countIteratorRelease.
  set (s0 := mkExecState _ _ _ _ _ _ _ _ _).
  destruct (iteratorReleasePeriod <=? _).
  2:{ intros [= <- <-]. exists []. by rewrite app_nil_r. }
  unfold bind, check. destruct (iterator_Error (x_iterator s0)).
  { intros [= <- <-]. exists []. by rewrite app_nil_r. }
  unfold ret. destruct (writeBatch s0) as [[[]|e] s1] eqn:Hw;
    apply writeBatch_extends in Hw as [evs Hevs]; simpl in Hevs.
  - unfold reacquireIterator. intros [= <- <-]. simpl.
    rewrite Hevs, <- app_assoc. by eexists.
  - intros [= <- <-]. by eexists.
Qed.

(** An iteration on a block at or below the last accepted height returns
    without an error when neither the store nor the iterator fails. *)
Lemma iteration_skip_returns (blkBytes : bytes) (blk : Block W) (s : ExecState W) :
  parser blkBytes = Ok blk →
  blk_Height blk <= lastAcceptedHeight →
  db_faults (x_db s) = [] →
  it_err (x_iterator s) = None →
  (iteration parser lastAcceptedHeight blkBytes s).1 = Ok tt.
Proof.
  intros Hparse Hle Hfaults Herr.
  destruct s as [[blocks faults] tree w batch c64 [rest err] c1024 polls trace].
  simpl in *. subst faults err.
  unfold iteration. rewrite Hparse, (proj2 (Z.leb_le _ _) Hle).
  unfold bind, removeBlock, Remove, countBatchWrite, countIteratorRelease,
    writeBatch, batch_Write, storage_op, check, iterator_Error,
    reacquireIterator, ret, bind.
  cbn -[Z.leb Z.eqb u64].
  repeat (case_match; cbn -[Z.leb Z.eqb u64] in *; simplify_eq; try done).
Qed.

(** What such an iteration does: no call on the block, its height out of the
    tree, the deletion of its entry queued. *)
Lemma iteration_skip (blkBytes : bytes) (blk : Block W) (s : ExecState W) r s' :
  parser blkBytes = Ok blk →
  blk_Height blk <= lastAcceptedHeight →
  iteration parser lastAcceptedHeight blkBytes s = (r, s') →
  x_world s' = x_world s
  ∧ block_calls (x_trace s') = block_calls (x_trace s)
  ∧ (r = Ok tt →
     x_tree s' = delete (blk_Height blk) (x_tree s)
     ∧ In (blk_Height blk) (removed (x_trace s'))
     ∧ kept (blk_Height blk) s').
Proof.
  intros Hparse Hle. unfold iteration. rewrite Hparse, (proj2 (Z.leb_le _ _) Hle).
  unfold bind, ret.
  destruct (removeBlock (blk_Height blk) s) as [[[]|e] s1] eqn:Hrem.
  2:{ intros [= <- <-].
      destruct (removeBlock_frame lastAcceptedHeight [] _ _ _ _ Hrem) as (? & ? & _).
      by repeat split. }
  pose proof (removeBlock_frame lastAcceptedHeight [] _ _ _ _ Hrem) as Hf1.
  apply removeBlock_spec in Hrem
    as (_ & _ & _ & _ & [(_ & Eb1 & Et1 & Etr1)|((e & ?) & _)]); [|done].
  assert (kept (blk_Height blk) s1) as Hk1.
  { left. rewrite Eb1. apply in_or_app. right. by left. }
  assert (In (blk_Height blk) (removed (x_trace s1))) as Hr1.
  { rewrite Etr1, removed_app. apply in_or_app. right. by left. }
  destruct (countBatchWrite s1) as [r2 s2] eqn:Hcount.
  destruct (countBatchWrite_frame lastAcceptedHeight [] _ _ _ Hcount) as [Hf2 Et2].
  apply countBatchWrite_extends in Hcount as [evs2 Etr2].
  destruct r2 as [[]|e].
  2:{ intros [= <- <-]. pose proof (frame_trans _ _ _ _ _ Hf1 Hf2) as (? & ? & _).
      by repeat split. }
  destruct (countIteratorRelease s2) as [r3 s3] eqn:Hrel.
  destruct (countIteratorRelease_frame lastAcceptedHeight [] _ _ _ Hrel) as [Hf3 Et3].
  apply countIteratorRelease_extends in Hrel as [evs3 Etr3].
  pose proof (frame_trans _ _ _ _ _ (frame_trans _ _ _ _ _ Hf1 Hf2) Hf3)
    as (Hw & Hc & Hk & _).
  destruct r3 as [[]|e]; intros [= <- <-]; (split; [done|]); (split; [done|]);
    [|done].
  intros _. split; [congruence|]. split.
  - rewrite Etr3, Etr2, !removed_app. apply in_or_app. left. apply in_or_app. by left.
  - destruct Hf2 as (_ & _ & Hk2 & _). destruct Hf3 as (_ & _ & Hk3 & _). auto.
Qed.

End SkippedBlocks.

(** C7. An iteration of the loop of [execute] on a block whose height is at
    most [lastAcceptedHeight] calls neither Verify nor Accept on it: the
    world of the blocks and the calls made so far are as they were. When the
    iteration goes on to the next entry, the height has been taken out of the
    tree by interval.Remove (no other height has, and the tree keeps its
    invariant) and the deletion of the entry has been queued in the batch,
    where it still is unless the periodic write of this very iteration has
    written it. The iteration does go on when neither the store nor the
    cursor fails. Over a whole run, every call of Verify or Accept is on a
    block above [lastAcceptedHeight], and the deletion of every height passed
    to interval.Remove is queued in the batch or written. *)
Theorem execute_skips_accepted_heights {W} (ctx : Context) (parser : Parser W)
    (lastAcceptedHeight : Z) :
  (∀ (blkBytes : bytes) (blk : Block W) (s : ExecState W) r s',
     parser blkBytes = Ok blk →
     blk_Height blk <= lastAcceptedHeight →
     iteration parser lastAcceptedHeight blkBytes s = (r, s') →
     x_world s' = x_world s
     ∧ block_calls (x_trace s') = block_calls (x_trace s)
     ∧ (r = Ok tt →
        x_tree s' = delete (blk_Height blk) (x_tree s)
        ∧ (Invariant (x_tree s) →
           Invariant (x_tree s')
           ∧ ∀ x, Tracks (x_tree s') x ↔ Tracks (x_tree s) x ∧ x ≠ blk_Height blk)
        ∧ In (blk_Height blk) (removed (x_trace s'))
        ∧ kept (blk_Height blk) s')
     ∧ (db_faults (x_db s) = [] → it_err (x_iterator s) = None → r = Ok tt))
  ∧ (∀ fuel db tree w r s',
       execute ctx parser lastAcceptedHeight fuel db tree w = Some (r, s') →
       Forall (above lastAcceptedHeight) (x_trace s')
       ∧ ∀ height, In height (removed (x_trace s')) → kept height s').
Proof.
  split.
  - intros blkBytes blk s r s' Hparse Hle Hrun.
    destruct (iteration_skip parser lastAcceptedHeight _ _ _ _ _ Hparse Hle Hrun)
      as (Hw & Hc & Hok).
    split; [done|]. split; [done|]. split.
    + intros Hr. destruct (Hok Hr) as (Ht & Hrem & Hk).
      split; [done|]. split; [|done].
      intros Hinv. rewrite Ht. split; [by apply delete_Invariant|].
      by apply delete_Tracks.
    + intros Hfaults Herr.
      pose proof (iteration_skip_returns parser lastAcceptedHeight _ _ s
                    Hparse Hle Hfaults Herr) as Hret.
      by rewrite Hrun in Hret.
  - intros fuel db tree w r s' Hrun.
    destruct (execute_any ctx parser lastAcceptedHeight fuel db tree w r s' Hrun)
      as ((_ & _ & Er) & Ha & _).
    split; [done|]. intros height Hin.
    assert (In (OpDelete height) (written (x_trace s') ++ x_batch s')) as Hq
      by (rewrite Er; by apply in_map).
    apply in_app_or in Hq as [?|?]; [by right|by left].
Qed.

Lemma execute_skips_accepted_heights_witness :
  let s := mkExecState (Sample.store 1 3) [mkInterval 1 3] [] [] 0
             (GetBlockIterator (Sample.store 1 3)) 0 0 [] in
  let s' := (iteration Sample.parser 2 (Sample.encode 1 0) s).2 in
  (x_world s' = []
   ∧ block_calls (x_trace s') = []
   ∧ x_tree s' = [mkInterval 2 3]
   ∧ In 1 (removed (x_trace s'))
   ∧ kept 1 s')
  ∧ ∃ sf,
      execute None Sample.parser 2 10 (Sample.store 1 3) [mkInterval 1 3] []
        = Some (None, sf)
      ∧ Forall (above 2) (x_trace sf)
      ∧ block_calls (x_trace sf) = [EvVerify 3 3 None; EvAccept 3 3 None]
      ∧ removed (x_trace sf) = [1; 2; 3].
Proof.
  intros s s'.
  destruct (execute_skips_accepted_heights None Sample.parser 2) as [Hiter Hrun].
  split.
  - destruct (Hiter (Sample.encode 1 0) (Sample.block 1 0) s
                (iteration Sample.parser 2 (Sample.encode 1 0) s).1 s')
      as (Hw & Hc & Hok & Hret).
    + vm_compute. reflexivity.
    + vm_compute. discriminate.
    + apply surjective_pairing.
    + destruct (Hok (Hret eq_refl eq_refl)) as (Ht & _ & Hrem & Hk).
      split; [exact Hw|]. split; [exact Hc|]. split; [exact Ht|].
      split; [exact Hrem|exact Hk].
  - eexists. split; [vm_compute; reflexivity|].
    split; [|split; vm_compute; reflexivity].
    match goal with
    | |- Forall _ (x_trace ?sf) =>
        exact (proj1 (Hrun 10%nat (Sample.store 1 3) [mkInterval 1 3] [] None sf
                        ltac:(vm_compute; reflexivity)))
    end.
Defined.
(** ** More on the Gap Resolver *)

Section GapResolverMore.
Context {W : Type}.
Variable parser : Parser W.

(** A result that is a set was made of blocks that the store holds. *)
Lemma getMissingBlockIDs_range_loaded (L : Z) (ivs : list Interval) :
  ∀ db acc s,
    (getMissingBlockIDs_range parser L ivs db acc).1 = Ok s →
    ∀ i, i ∈ ivs → L < LowerBound i →
         ∃ blk, stored_block parser db (LowerBound i) blk.
Proof.
  induction ivs as [|j ivs IH]; intros db acc s Hrun i Hi Hlow.
  { by apply elem_of_nil in Hi. }
  simpl in Hrun. destruct (Z.leb_spec (LowerBound j) L) as [Hle|Hgt].
  - apply elem_of_cons in Hi as [->|Hi]; [lia|]. by eapply IH.
  - pose proof (GetBlock_blocks db (LowerBound j)) as Hblocks.
    pose proof (GetBlock_Ok db (LowerBound j)) as Hget.
    destruct (GetBlock db (LowerBound j)) as [[blkBytes|e] db']; [|done].
    simpl in Hblocks. specialize (Hget blkBytes eq_refl).
    destruct (parser blkBytes) as [blk|e] eqn:Hparse; [|done].
    apply elem_of_cons in Hi as [->|Hi].
    + exists blk, blkBytes. by split.
    + destruct (IH _ _ _ Hrun i Hi Hlow) as [blk' Hblk'].
      exists blk'. by apply (stored_block_blocks parser db db').
Qed.

(** The set returned holds at most one identifier for each interval above
    [L]. *)
Lemma getMissingBlockIDs_range_size (L : Z) (ivs : list Interval) :
  ∀ db acc s,
    (getMissingBlockIDs_range parser L ivs db acc).1 = Ok s →
    (size s ≤ size acc + length (List.filter (fun i => (L <? LowerBound i)%Z) ivs))%nat.
Proof.
  induction ivs as [|j ivs IH]; intros db acc s Hrun; simpl in *.
  { injection Hrun as <-. lia. }
  destruct (Z.leb_spec (LowerBound j) L) as [Hle|Hgt].
  - rewrite (proj2 (Z.ltb_ge _ _) Hle). by eapply IH.
  - rewrite (proj2 (Z.ltb_lt _ _) Hgt).
    destruct (GetBlock db (LowerBound j)) as [[blkBytes|e] db']; [|done].
    destruct (parser blkBytes) as [blk|e]; [|done].
    apply IH in Hrun. simpl.
    pose proof (size_union_alt ({[blk_Parent blk]} : gset ID) acc) as Hu.
    pose proof (subseteq_size (acc ∖ {[blk_Parent blk]}) acc ltac:(set_solver)) as Hs.
    rewrite size_singleton in Hu. lia.
Qed.

End GapResolverMore.

(** X1. getMissingBlockIDs returns an error, and no set, as soon as the store does
    not hold a block that parses at the lower bound of an interval that lies
    above lastAcceptedHeight + 1: a tree that tracks a height the store does
    not hold is reported, whatever else the store and the tree contain. *)
Theorem getMissingBlockIDs_missing_block_is_error {W} (parser : Parser W)
    (db : Database) (tree : Tree) (lastAcceptedHeight : Z) (i : Interval) :
  i ∈ Flatten tree →
  u64 (lastAcceptedHeight + 1) < LowerBound i →
  (∀ blk, ¬ stored_block parser db (LowerBound i) blk) →
  ∃ e, (getMissingBlockIDs parser db tree lastAcceptedHeight).1 = Err e.
Proof.
  intros Hi Hlow Hnone.
  destruct (getMissingBlockIDs parser db tree lastAcceptedHeight).1 as [s|e] eqn:Hrun;
    [|by exists e].
  destruct (getMissingBlockIDs_range_loaded parser _ _ _ _ _ Hrun i Hi Hlow)
    as [blk Hblk].
  by destruct (Hnone blk).
Qed.

Lemma getMissingBlockIDs_missing_block_is_error_witness :
  ∃ e, (getMissingBlockIDs Sample.parser (Sample.store 6 2) Sample.gapTree 2).1 = Err e.
Proof.
  apply (getMissingBlockIDs_missing_block_is_error Sample.parser (Sample.store 6 2)
           Sample.gapTree 2 (mkInterval 4 4)).
  - set_solver.
  - vm_compute. reflexivity.
  - intros blk (blkBytes & Hget & _). vm_compute in Hget. discriminate.
Defined.

(** X2. The set that getMissingBlockIDs returns has at most as many identifiers as
    the tree has intervals whose lower bound is above lastAcceptedHeight + 1:
    one block at most is requested for each gap. *)
Theorem getMissingBlockIDs_size {W} (parser : Parser W) (db : Database)
    (tree : Tree) (lastAcceptedHeight : Z) (s : gset ID) :
  (getMissingBlockIDs parser db tree lastAcceptedHeight).1 = Ok s →
  (size s ≤ length (List.filter
                      (fun i => (u64 (lastAcceptedHeight + 1) <? LowerBound i)%Z)
                      (Flatten tree)))%nat.
Proof.
  intros Hrun. apply getMissingBlockIDs_range_size in Hrun.
  by rewrite size_empty in Hrun.
Qed.

Lemma getMissingBlockIDs_size_witness :
  (size ({[3%N; 5%N]} : gset ID)
   ≤ length (List.filter (fun i => (u64 (2 + 1) <? LowerBound i)%Z)
               (Flatten Sample.gapTree)))%nat.
Proof.
  apply (getMissingBlockIDs_size Sample.parser Sample.gapStore Sample.gapTree 2).
  vm_compute. reflexivity.
Defined.

(** X3. Raising lastAcceptedHeight never adds a block to fetch: when the call
    succeeds for a last accepted height on a store that does not fail, it
    succeeds for every higher one (below the largest uint64, where the sum
    wraps) and returns a subset. *)
Theorem getMissingBlockIDs_antitone {W} (parser : Parser W) (db : Database)
    (tree : Tree) (lower higher : Z) (s : gset ID) :
  db_faults db = [] →
  0 <= lower <= higher →
  higher < 2 ^ 64 - 1 →
  (getMissingBlockIDs parser db tree lower).1 = Ok s →
  ∃ s', getMissingBlockIDs parser db tree higher = (Ok s', db) ∧ s' ⊆ s.
Proof.
  intros Hfaults Horder Hmax Hrun.
  unfold getMissingBlockIDs in *.
  rewrite (u64_small (lower + 1)) in Hrun by lia.
  rewrite (u64_small (higher + 1)) by lia.
  destruct (getMissingBlockIDs_range_total parser (higher + 1) (Flatten tree) db ∅ Hfaults)
    as [s' Hrun'].
  { intros i Hi Hlow.
    apply (getMissingBlockIDs_range_loaded parser _ _ _ _ _ Hrun i Hi). lia. }
  exists s'. split; [done|]. intros id Hid.
  apply (getMissingBlockIDs_range_Ok parser _ _ _ _ _ Hrun id).
  assert ((getMissingBlockIDs_range parser (higher + 1) (Flatten tree) db ∅).1 = Ok s')
    as Hrun'' by (by rewrite Hrun').
  apply (getMissingBlockIDs_range_Ok parser _ _ _ _ _ Hrun'' id) in Hid
    as [Hid|(i & blk & Hi & Hlow & Hblk & Hparent)]; [set_solver|].
  right. exists i, blk. repeat split; try done. lia.
Qed.

Lemma getMissingBlockIDs_antitone_witness :
  ∃ s', getMissingBlockIDs Sample.parser Sample.gapStore Sample.gapTree 4
        = (Ok s', Sample.gapStore)
        ∧ s' ⊆ ({[3%N; 5%N]} : gset ID).
Proof.
  apply (getMissingBlockIDs_antitone Sample.parser Sample.gapStore Sample.gapTree 2 4).
  - reflexivity.
  - lia.
  - lia.
  - vm_compute. reflexivity.
Defined.

(** X4. At the largest uint64 the sum lastAcceptedHeight + 1 wraps around to 0:
    the parent of the block at every lower bound above 0 is then requested,
    although no height is above lastAcceptedHeight. *)
Theorem getMissingBlockIDs_wraps_at_max {W} (parser : Parser W) (db : Database)
    (tree : Tree) (i : Interval) (blk : Block W) (s : gset ID) :
  i ∈ Flatten tree →
  0 < LowerBound i →
  stored_block parser db (LowerBound i) blk →
  (getMissingBlockIDs parser db tree (2 ^ 64 - 1)).1 = Ok s →
  blk_Parent blk ∈ s.
Proof.
  intros Hi Hlow Hblk Hrun. unfold getMissingBlockIDs in Hrun.
  apply (getMissingBlockIDs_range_Ok parser _ _ _ _ _ Hrun).
  right. exists i, blk. repeat split; try done.
Qed.

Lemma getMissingBlockIDs_wraps_at_max_witness :
  blk_Parent (Sample.block 4 0) ∈ ({[3%N; 5%N]} : gset ID).
Proof.
  apply (getMissingBlockIDs_wraps_at_max Sample.parser Sample.gapStore Sample.gapTree
           (mkInterval 4 4) (Sample.block 4 0)).
  - set_solver.
  - simpl. lia.
  - exists (Sample.encode 4 0). split; vm_compute; reflexivity.
  - vm_compute. reflexivity.
Defined.
(** ** More on the Chain Linker *)

Section ChainLinkerMore.
Context {W : Type}.
Variable ancestors : gmap ID (Block W).
Variable lastAcceptedHeight : Z.

(** The first block of a walk is the one it starts from, and a walk that ends
    with a block to request ends on a block whose Add returned true and whose
    parent, the block requested, is not in [ancestors]. *)
Lemma Walk_head db tree (blk : Block W) visited out db' tree' :
  Walk ancestors lastAcceptedHeight db tree blk visited out db' tree' →
  ∃ r rest, visited = (blk, r) :: rest.
Proof. intros Hw. destruct Hw; by eexists _, _. Qed.

Lemma Walk_request_last db tree (blk : Block W) visited id db' tree' :
  Walk ancestors lastAcceptedHeight db tree blk visited (id, true, None) db' tree' →
  ∃ before final,
    visited = before ++ [(final, Ok true)]
    ∧ blk_Parent final = id
    ∧ ancestors !! id = None
    ∧ Forall (fun v => v.2 = Ok true ∧ ancestors !! blk_Parent v.1 ≠ None) before.
Proof.
  intros Hw. remember (id, true, None) as out eqn:Hout.
  induction Hw as [db tree blk err db' tree' Hadd|db tree blk db' tree' Hadd
                  |db tree blk db' tree' Hadd Hnone
                  |db tree blk parent db1 tree1 visited out db' tree' Hadd Hsome Hw IH].
  - done.
  - done.
  - injection Hout as <-. exists [], blk. by repeat split.
  - destruct (IH Hout) as (before & final & -> & Hparent & Hnone & Hall).
    exists ((blk, Ok true) :: before), final. repeat split; try done.
    constructor; [|done]. simpl. split; [done|]. by rewrite Hsome.
Qed.

End ChainLinkerMore.

(** X5. When [process] returns a block to fetch, that block is not in [ancestors]:
    it is the parent of the last block passed to interval.Add, every block
    passed to Add before had its parent in [ancestors], and Add returned true
    for all of them. *)
Theorem process_requests_unknown_parent {W} (ancestors : gmap ID (Block W))
    (lastAcceptedHeight : Z) (fuel : nat) (s : LinkState W) (blk : Block W)
    (id : ID) (s' : LinkState W) :
  process fuel s blk ancestors lastAcceptedHeight = Some (id, true, None, s') →
  ancestors !! id = None
  ∧ ∃ before final,
      ls_adds s' = ls_adds s ++ before ++ [(final, Ok true)]
      ∧ blk_Parent final = id
      ∧ Forall (fun v => v.2 = Ok true ∧ ancestors !! blk_Parent v.1 ≠ None) before.
Proof.
  intros (visited & Hw & Hadds & _)%process_walk.
  apply Walk_request_last in Hw as (before & final & -> & Hparent & Hnone & Hall).
  split; [done|]. by exists before, final.
Qed.

Lemma process_requests_unknown_parent_witness :
  ∃ s' : LinkState Sample.World,
    process 3 Sample.linkState (Sample.block 5 0) Sample.ancestors 1
    = Some (2%N, true, None, s')
    ∧ Sample.ancestors !! 2%N = None
    ∧ ∃ before final,
        ls_adds s' = ls_adds Sample.linkState ++ before ++ [(final, Ok true)]
        ∧ blk_Parent final = 2%N
        ∧ Forall (fun v => v.2 = Ok true ∧ Sample.ancestors !! blk_Parent v.1 ≠ None)
            before.
Proof.
  destruct (Sample_process_run) as (s' & Hrun & _).
  exists s'. split; [exact Hrun|].
  exact (process_requests_unknown_parent Sample.ancestors 1 3 Sample.linkState
           (Sample.block 5 0) 2%N s' Hrun).
Defined.

(** X6. [process] only takes identifiers out of the set of missing blocks: it adds
    none, not even the one it returns to be fetched, and the identifier of the
    block it is called on is out of the set whatever interval.Add returns. *)
Theorem process_shrinks_missing {W} (ancestors : gmap ID (Block W))
    (lastAcceptedHeight : Z) (fuel : nat) (s : LinkState W) (blk : Block W)
    out (s' : LinkState W) :
  process fuel s blk ancestors lastAcceptedHeight = Some (out, s') →
  ls_missingBlockIDs s' ⊆ ls_missingBlockIDs s
  ∧ blk_ID blk ∉ ls_missingBlockIDs s'.
Proof.
  intros (visited & Hw & _ & ->)%process_walk.
  split; [set_solver|].
  apply Walk_head in Hw as (r & rest & ->).
  unfold visited_IDs. simpl. set_solver.
Qed.

Lemma process_shrinks_missing_witness :
  ∃ s' : LinkState Sample.World,
    ls_missingBlockIDs s' ⊆ ls_missingBlockIDs Sample.linkState
        ∧ blk_ID (Sample.block 5 0) ∉ ls_missingBlockIDs s'.
Proof.
  destruct (Sample_process_run) as (s' & Hrun & _).
  exists s'.
  exact (process_shrinks_missing Sample.ancestors 1 3 Sample.linkState
           (Sample.block 5 0) _ s' Hrun).
Defined.
(** ** More on the Executor: what holds of every run *)

Lemma live_after_app (live : bool) (t1 t2 : list Event) :
  live_after live (t1 ++ t2)
  = match live_after live t1 with
    | Some live' => live_after live' t2
    | None => None
    end.
Proof.
  revert live. induction t1 as [|ev t1 IH]; intros live; [done|].
  destruct ev, live; simpl; by rewrite ?IH.
Qed.

Lemma accept_calls_app (t1 t2 : list Event) :
  accept_calls (t1 ++ t2) = (accept_calls t1 + accept_calls t2)%nat.
Proof. unfold accept_calls. by rewrite List.filter_app, length_app. Qed.

Lemma accept_calls_block_calls (t : list Event) :
  accept_calls (block_calls t) = accept_calls t.
Proof.
  unfold accept_calls, block_calls.
  induction t as [|ev t IH]; [done|]. destruct ev; simpl; by rewrite ?IH.
Qed.

Section RunSteps.
Context {W : Type}.
Variable ctx : Context.
Variable parser : Parser W.
Variable lastAcceptedHeight : Z.

(** The loop condition changes the cursor, the script of the store and the
    count of the evaluations of ctx.Err() only. *)
Lemma loopCondition_fields (s : ExecState W) o s1 :
  loopCondition ctx s = (o, s1) →
  x_tree s1 = x_tree s ∧ x_world s1 = x_world s ∧ x_batch s1 = x_batch s
  ∧ x_processedSinceBatchWrite s1 = x_processedSinceBatchWrite s
  ∧ x_processedSinceIteratorRelease s1 = x_processedSinceIteratorRelease s
  ∧ x_trace s1 = x_trace s.
Proof.
  unfold loopCondition, iterator_Next.
  destruct (ctx_Err ctx (x_polls s)); [by intros [= <- <-]|].
  destruct (it_rest (x_iterator s));
    destruct (storage_op (x_db s)) as [[e|] db']; by intros [= <- <-].
Qed.

(** The rule of the loop: what holds at its head, is kept by an iteration
    that goes on and is insensitive to the loop condition, gives what holds
    at its exits. *)
Lemma executeLoop_rule (P : ExecState W → Prop) (Q : result unit → ExecState W → Prop) :
  (∀ s o s1, loopCondition ctx s = (o, s1) → P s → P s1) →
  (∀ s, P s → Q (Ok tt) s) →
  (∀ blkBytes s r s',
     iteration parser lastAcceptedHeight blkBytes s = (r, s') → P s →
     match r with Ok _ => P s' | Err _ => Q r s' end) →
  ∀ fuel s r s',
    executeLoop ctx parser lastAcceptedHeight fuel s = Some (r, s') → P s → Q r s'.
Proof.
  intros Hcond Hexit Hbody.
  induction fuel as [|fuel IH]; intros s r s' Hrun HP; [done|].
  cbn [executeLoop] in Hrun.
  destruct (loopCondition ctx s) as [[kv|] s1] eqn:Hc;
    pose proof (Hcond _ _ _ Hc HP) as HP1.
  - destruct (iteration parser lastAcceptedHeight kv.2 s1) as [[[]|e] s2] eqn:Hit;
      pose proof (Hbody _ _ _ _ Hit HP1) as Hstep; simpl in Hstep.
    + by apply (IH s2).
    + by injection Hrun as <- <-.
  - injection Hrun as <- <-. by apply Hexit.
Qed.

(** The steps of an iteration before the calls on the block. *)
Local Notation housekeeping height :=
  (bind (removeBlock height) (fun _ => bind countBatchWrite (fun _ => countIteratorRelease))).

Local Notation calls blk := (bind (verifyBlock blk) (fun _ => acceptBlock blk)).

Lemma iteration_inv (blkBytes : bytes) (s : ExecState W) r s' :
  iteration parser lastAcceptedHeight blkBytes s = (r, s') →
  match parser blkBytes with
  | Err e => r = Err e ∧ s' = s
  | Ok blk =>
      ∃ rk sk,
        housekeeping (blk_Height blk) s = (rk, sk)
        ∧ match rk with
          | Err e => r = Err e ∧ s' = sk
          | Ok _ =>
              if blk_Height blk <=? lastAcceptedHeight then r = Ok tt ∧ s' = sk
              else calls blk sk = (r, s')
          end
  end.
Proof.
  unfold iteration. destruct (parser blkBytes) as [blk|e]; [|by intros [= <- <-]].
  unfold bind.
  destruct (removeBlock (blk_Height blk) s) as [[[]|e] s1].
  2:{ intros [= <- <-]. by eexists _, _. }
  destruct (countBatchWrite s1) as [[[]|e] s2].
  2:{ intros [= <- <-]. by eexists _, _. }
  destruct (countIteratorRelease s2) as [[[]|e] s3].
  2:{ intros [= <- <-]. by eexists _, _. }
  intros Hrun. eexists _, _. split; [done|]. simpl.
  destruct (blk_Height blk <=? lastAcceptedHeight); [by injection Hrun as <- <-|done].
Qed.

Lemma countBatchWrite_events (s : ExecState W) r s' :
  countBatchWrite s = (r, s') →
  x_trace s' = x_trace s ∨ ∃ ops o, x_trace s' = x_trace s ++ [EvWrite ops o].
Proof.
  unfold countBatchWrite, writeBatch. destruct (_ <=? _); [|intros [= <- <-]; by left].
  cbn [x_processedSinceBatchWrite]. destruct (_ =? 0); [intros [= <- <-]; by left|].
  destruct (batch_Write _ _) as [[e|] db']; intros [= <- <-]; right; by eexists _, _.
Qed.

Lemma countIteratorRelease_events (s : ExecState W) r s' :
  countIteratorRelease s = (r, s') →
  ∃ evs, x_trace s' = x_trace s ++ evs
         ∧ (evs = []
            ∨ (∃ ops e, evs = [EvWrite ops (Some e)])
            ∨ (∃ view, evs = [EvRelease; EvAcquire view])
            ∨ (∃ ops view, evs = [EvWrite ops None; EvRelease; EvAcquire view])).
Proof.
  unfold countIteratorRelease.
  set (s0 := mkExecState _ _ _ _ _ _ _ _ _).
  destruct (iteratorReleasePeriod <=? _).
  2:{ intros [= <- <-]. exists []. split; [by rewrite app_nil_r|by left]. }
  unfold bind, check. destruct (iterator_Error (x_iterator s0)).
  { intros [= <- <-]. exists []. split; [by rewrite app_nil_r|by left]. }
  unfold ret, writeBatch, reacquireIterator.
  destruct (x_processedSinceBatchWrite s0 =? 0).
  { intros [= <- <-]. eexists. split; [done|]. right. right. left. by eexists. }
  destruct (batch_Write _ _) as [[e|] db']; intros [= <- <-]; cbn [x_trace].
  - eexists. split; [done|]. right. left. by eexists _, _.
  - rewrite <- app_assoc. eexists. split; [done|]. right. right. right.
    by eexists _, _.
Qed.

(** What the steps before the calls change: they make no call and leave the
    state behind the blocks alone, a cursor is held after them as it was
    before, and the height is out of the tree when interval.Remove took it. *)
Lemma housekeeping_spec (height : Z) (s : ExecState W) r sk :
  housekeeping height s = (r, sk) →
  x_world sk = x_world s
  ∧ block_calls (x_trace sk) = block_calls (x_trace s)
  ∧ (live_after false (x_trace s) = Some true →
     live_after false (x_trace sk) = Some true)
  ∧ ∃ hs, removed (x_trace sk) = removed (x_trace s) ++ hs
          ∧ x_tree sk = foldl (fun t h => delete h t) (x_tree s) hs
          ∧ (r = Ok tt → hs = [height]).
Proof.
  unfold bind.
  destruct (removeBlock height s) as [r1 s1] eqn:Hrem.
  pose proof (removeBlock_frame lastAcceptedHeight [] _ _ _ _ Hrem) as (Hw1 & Hc1 & _).
  apply removeBlock_spec in Hrem as (_ & _ & _ & _ & Hcases1).
  assert (∃ hs, x_trace s1 = x_trace s ++ map EvRemove hs
                ∧ x_tree s1 = foldl (fun t h => delete h t) (x_tree s) hs
                ∧ (r1 = Ok tt → hs = [height])) as (hs & Et1 & Etree1 & Hhs).
  { destruct Hcases1 as [(-> & _ & -> & ->)|((e & ->) & _ & -> & ->)].
    - by exists [height].
    - exists []. by rewrite app_nil_r. }
  assert (removed (x_trace s1) = removed (x_trace s) ++ hs) as Er1.
  { rewrite Et1, removed_app. f_equal. clear. induction hs; simpl; by f_equal. }
  assert (live_after false (x_trace s) = Some true →
          live_after false (x_trace s1) = Some true) as Hl1.
  { intros Hl. rewrite Et1, live_after_app, Hl. clear. by induction hs. }
  destruct r1 as [[]|e].
  2:{ intros [= <- <-]. split; [done|]. split; [done|]. split; [done|].
      exists hs. by repeat split. }
  destruct (countBatchWrite s1) as [r2 s2] eqn:Hcount.
  destruct (countBatchWrite_frame lastAcceptedHeight [] _ _ _ Hcount)
    as [(Hw2 & Hc2 & _) Etree2].
  apply countBatchWrite_events in Hcount.
  assert (removed (x_trace s2) = removed (x_trace s1)
          ∧ (live_after false (x_trace s1) = Some true →
             live_after false (x_trace s2) = Some true)) as [Er2 Hl2].
  { destruct Hcount as [->|(ops & o & ->)]; [done|].
    rewrite removed_app, live_after_app. simpl. rewrite app_nil_r.
    split; [done|]. by intros ->. }
  destruct r2 as [[]|e].
  2:{ intros [= <- <-]. split; [congruence|]. split; [congruence|]. split; [auto|].
      exists hs. rewrite Er2, Etree2. by repeat split. }
  destruct (countIteratorRelease s2) as [r3 s3] eqn:Hrel.
  destruct (countIteratorRelease_frame lastAcceptedHeight [] _ _ _ Hrel)
    as [(Hw3 & Hc3 & _) Etree3].
  apply countIteratorRelease_events in Hrel as (evs & Et3 & Hevs).
  assert (removed (x_trace s3) = removed (x_trace s2)
          ∧ (live_after false (x_trace s2) = Some true →
             live_after false (x_trace s3) = Some true)) as [Er3 Hl3].
  { rewrite Et3, removed_app, live_after_app.
    destruct Hevs as [->|[(ops & e & ->)|[(view & ->)|(ops & view & ->)]]];
      simpl; rewrite app_nil_r; (split; [done|]); by intros ->. }
  assert (r = r3 ∧ sk = s3 → x_world sk = x_world s
    ∧ block_calls (x_trace sk) = block_calls (x_trace s)
    ∧ (live_after false (x_trace s) = Some true →
       live_after false (x_trace sk) = Some true)
    ∧ ∃ hs, removed (x_trace sk) = removed (x_trace s) ++ hs
            ∧ x_tree sk = foldl (fun t h => delete h t) (x_tree s) hs
            ∧ (r = Ok tt → hs = [height])) as Hend.
  { intros [-> ->]. split; [congruence|]. split; [congruence|]. split; [auto|].
    exists hs. rewrite Er3, Er2, Etree3, Etree2. by repeat split; auto. }
  destruct r3 as [[]|e]; intros [= <- <-]; by apply Hend.
Qed.

(** The calls on a block. *)
Lemma calls_inv (blk : Block W) (s : ExecState W) r s' :
  calls blk s = (r, s') →
  x_tree s' = x_tree s
  ∧ x_batch s' = x_batch s
  ∧ x_db s' = x_db s
  ∧ x_processedSinceBatchWrite s' = x_processedSinceBatchWrite s
  ∧ x_processedSinceIteratorRelease s' = x_processedSinceIteratorRelease s
  ∧ ∃ tail,
      x_trace s' = x_trace s ++ tail
      ∧ ((r = Ok tt
          ∧ tail = executed_calls blk
          ∧ (blk_Verify blk (x_world s)).1 = None
          ∧ (blk_Accept blk (blk_Verify blk (x_world s)).2).1 = None
          ∧ x_world s' = (blk_Accept blk (blk_Verify blk (x_world s)).2).2)
         ∨ (∃ cause,
              blk_Verify blk (x_world s) = (Some cause, x_world s')
              ∧ tail = [EvVerify (blk_ID blk) (blk_Height blk) (Some cause)]
              ∧ r = Err (ErrFailedVerify (blk_ID blk) (blk_Height blk) cause))
         ∨ (∃ cause wv,
              blk_Verify blk (x_world s) = (None, wv)
              ∧ blk_Accept blk wv = (Some cause, x_world s')
              ∧ tail = [EvVerify (blk_ID blk) (blk_Height blk) None;
                        EvAccept (blk_ID blk) (blk_Height blk) (Some cause)]
              ∧ r = Err (ErrFailedAccept (blk_ID blk) (blk_Height blk) cause))).
Proof.
  unfold bind, verifyBlock, acceptBlock.
  destruct (blk_Verify blk (x_world s)) as [[cause|] wv] eqn:Hv.
  - intros [= <- <-]. cbn. repeat (split; [done|]).
    eexists. split; [done|]. right. left. by exists cause.
  - cbn [x_world]. destruct (blk_Accept blk wv) as [[cause|] wa] eqn:Ha;
      intros [= <- <-]; cbn; repeat (split; [done|]);
      rewrite <- app_assoc; (eexists; split; [done|]).
    + right. right. by exists cause, wv.
    + left. rewrite Ha. by repeat split.
Qed.

End RunSteps.

Lemma removed_block_calls (tail : list Event) :
  block_calls tail = tail → removed tail = [].
Proof.
  unfold block_calls. induction tail as [|ev tail IH]; [done|].
  destruct ev; simpl; intros Heq;
    try (by injection Heq as Heq; apply IH);
    exfalso;
    (assert (length (List.filter is_block_call tail) ≤ length tail)%nat as Hlen
       by (clear; induction tail as [|ev tail IH]; simpl;
           [lia|destruct (is_block_call ev); simpl; lia]));
    rewrite Heq in Hlen; simpl in Hlen; lia.
Qed.

Lemma live_after_block_calls (live : bool) (tail : list Event) :
  block_calls tail = tail → live_after live tail = Some live.
Proof.
  unfold block_calls. induction tail as [|ev tail IH]; [done|].
  destruct ev; simpl; intros Heq;
    try (by injection Heq as Heq; apply IH);
    exfalso;
    (assert (length (List.filter is_block_call tail) ≤ length tail)%nat as Hlen
       by (clear; induction tail as [|ev tail IH]; simpl;
           [lia|destruct (is_block_call ev); simpl; lia]));
    rewrite Heq in Hlen; simpl in Hlen; lia.
Qed.

Section RunInvariants.
Context {W : Type}.
Variable ctx : Context.
Variable parser : Parser W.
Variable lastAcceptedHeight : Z.

Lemma world_after_app (blks1 blks2 : list (Block W)) (w : W) :
  world_after lastAcceptedHeight (blks1 ++ blks2) w
  = world_after lastAcceptedHeight blks2 (world_after lastAcceptedHeight blks1 w).
Proof.
  revert w. induction blks1 as [|blk blks1 IH]; intros w; [done|]. simpl.
  by destruct (blk_Height blk <=? lastAcceptedHeight).
Qed.

Lemma blocks_succeed_app (blks1 blks2 : list (Block W)) (w : W) :
  blocks_succeed lastAcceptedHeight (blks1 ++ blks2) w
  ↔ blocks_succeed lastAcceptedHeight blks1 w
    ∧ blocks_succeed lastAcceptedHeight blks2 (world_after lastAcceptedHeight blks1 w).
Proof.
  revert w. induction blks1 as [|blk blks1 IH]; intros w; simpl; [tauto|].
  destruct (blk_Height blk <=? lastAcceptedHeight); rewrite IH; tauto.
Qed.

(** The events that the calls on a block add are calls. *)
Lemma calls_events (blk : Block W) (s : ExecState W) r s' :
  bind (verifyBlock blk) (fun _ => acceptBlock blk) s = (r, s') →
  ∃ tail, x_trace s' = x_trace s ++ tail ∧ block_calls tail = tail.
Proof.
  intros (_ & _ & _ & _ & _ & tail & Et & Hcases)%calls_inv.
  exists tail. split; [done|].
  destruct Hcases as [(_ & -> & _)|[(cause & _ & -> & _)|(cause & wv & _ & _ & -> & _)]];
    done.
Qed.

(** **** The cursor and the tree *)

Section CursorAndTree.
Variable tree0 : Tree.

Local Notation held s :=
  (live_after false (x_trace s) = Some true
   ∧ x_tree s = foldl (fun t h => delete h t) tree0 (removed (x_trace s))).

Lemma iteration_held (blkBytes : bytes) (s : ExecState W) r s' :
  iteration parser lastAcceptedHeight blkBytes s = (r, s') → held s → held s'.
Proof.
  intros Hrun%iteration_inv [Hlive Htree].
  destruct (parser blkBytes) as [blk|e]; [|by destruct Hrun as [_ ->]].
  destruct Hrun as (rk & sk & Hk & Hrest).
  apply (housekeeping_spec lastAcceptedHeight) in Hk as (_ & _ & Hlk & hs & Erk & Etk & _).
  assert (held sk) as Hheld.
  { split; [auto|]. by rewrite Etk, Erk, foldl_app, Htree. }
  destruct rk as [[]|e]; [|by destruct Hrest as [_ ->]].
  destruct (blk_Height blk <=? lastAcceptedHeight); [by destruct Hrest as [_ ->]|].
  pose proof (calls_events _ _ _ _ Hrest) as (tail & Et & Htail).
  apply calls_inv in Hrest as (Etree & _).
  destruct Hheld as [Hlk' Htk'].
  rewrite Et, live_after_app, Hlk', removed_app, Etree, Htk'.
  by rewrite (removed_block_calls tail Htail), (live_after_block_calls _ tail Htail),
    app_nil_r.
Qed.

Lemma executeLoop_held (fuel : nat) (s : ExecState W) r s' :
  executeLoop ctx parser lastAcceptedHeight fuel s = Some (r, s') → held s → held s'.
Proof.
  apply (executeLoop_rule ctx parser lastAcceptedHeight
           (fun s => held s) (fun _ s => held s)).
  - intros s0 o s1 (Et & _ & _ & _ & _ & Etr)%loopCondition_fields.
    by rewrite Et, Etr.
  - done.
  - intros blkBytes s0 r0 s0' Hit Hheld.
    pose proof (iteration_held _ _ _ _ Hit Hheld). by destruct r0.
Qed.

End CursorAndTree.

(** **** The calls *)

Section Calls.
Variable w0 : W.

Local Notation parsed blks :=
  (Forall (fun blk => lastAcceptedHeight < blk_Height blk
                      ∧ ∃ blkBytes, parser blkBytes = Ok blk) blks).

Local Notation called s :=
  (∃ blks, block_calls (x_trace s) = flat_map executed_calls blks
           ∧ parsed blks
           ∧ blocks_succeed lastAcceptedHeight blks w0
           ∧ x_world s = world_after lastAcceptedHeight blks w0).

Local Notation called_end r s :=
  (∃ blks tail,
     block_calls (x_trace s) = flat_map executed_calls blks ++ tail
     ∧ parsed blks
     ∧ blocks_succeed lastAcceptedHeight blks w0
     ∧ call_end parser lastAcceptedHeight (world_after lastAcceptedHeight blks w0)
         tail r (x_world s)).

Lemma called_exit (s : ExecState W) (r : option error) : called s → called_end r s.
Proof.
  intros (blks & Hc & Hp & Hok & Hw). exists blks, [].
  rewrite app_nil_r. repeat split; try done. by left.
Qed.

Lemma iteration_called (blkBytes : bytes) (s : ExecState W) r s' :
  iteration parser lastAcceptedHeight blkBytes s = (r, s') → called s →
  match r with
  | Ok _ => called s'
  | Err e => called_end (Some e) s'
  end.
Proof.
  intros Hrun%iteration_inv Hcalled.
  destruct (parser blkBytes) as [blk|e] eqn:Hparse.
  2:{ destruct Hrun as [-> ->]. by apply called_exit. }
  destruct Hrun as (rk & sk & Hk & Hrest).
  apply (housekeeping_spec lastAcceptedHeight) in Hk as (Ewk & Eck & _).
  assert (called sk) as Hcalledk.
  { destruct Hcalled as (blks & ? & ? & ? & ?). exists blks. by rewrite Ewk, Eck. }
  destruct rk as [[]|e].
  2:{ destruct Hrest as [-> ->]. by apply called_exit. }
  destruct (Z.leb_spec (blk_Height blk) lastAcceptedHeight) as [Hle|Hgt].
  { by destruct Hrest as [-> ->]. }
  destruct Hcalledk as (blks & Hc & Hp & Hok & Hw).
  apply calls_inv in Hrest as (_ & _ & _ & _ & _ & tail & Et & Hcases).
  assert (blk_Height blk <=? lastAcceptedHeight = false) as Hleb
    by (apply Z.leb_gt; lia).
  destruct Hcases as [(-> & -> & Hv & Ha & Ew')
                     |[(cause & Hv & -> & ->)|(cause & wv & Hv & Ha & -> & ->)]].
  - exists (blks ++ [blk]).
    rewrite Et, block_calls_app, Hc, flat_map_app. simpl. rewrite ?app_nil_r.
    split; [done|]. split.
    { apply Forall_app. split; [done|]. constructor; [|done]. split; [done|].
      by exists blkBytes. }
    rewrite blocks_succeed_app, world_after_app. simpl. rewrite Hleb, <- Hw.
    by repeat split.
  - exists blks, [EvVerify (blk_ID blk) (blk_Height blk) (Some cause)].
    rewrite Et, block_calls_app, Hc. repeat split; try done.
    right. left. exists blk, cause. rewrite <- Hw. repeat split; try done.
    by exists blkBytes.
  - exists blks, [EvVerify (blk_ID blk) (blk_Height blk) None;
                  EvAccept (blk_ID blk) (blk_Height blk) (Some cause)].
    rewrite Et, block_calls_app, Hc. repeat split; try done.
    right. right. exists blk, cause, wv. rewrite <- Hw. repeat split; try done.
    by exists blkBytes.
Qed.

Lemma executeLoop_called (fuel : nat) (s : ExecState W) r s' :
  executeLoop ctx parser lastAcceptedHeight fuel s = Some (r, s') → called s →
  match r with
  | Ok _ => called s'
  | Err e => called_end (Some e) s'
  end.
Proof.
  apply (executeLoop_rule ctx parser lastAcceptedHeight
           (fun s => called s)
           (fun r s => match r with
                       | Ok _ => called s
                       | Err e => called_end (Some e) s
                       end)).
  - intros s0 o s1 (_ & Ew & _ & _ & _ & Etr)%loopCondition_fields.
    by rewrite Ew, Etr.
  - done.
  - intros blkBytes s0 r0 s0' Hit Hcalled.
    pose proof (iteration_called _ _ _ _ Hit Hcalled). by destruct r0.
Qed.

End Calls.

(** What follows the loop: at most one event, a write of the batch; when it
    goes through, nothing is left in the batch. *)
Lemma afterLoop_inv (s : ExecState W) r s' :
  afterLoop ctx s = (r, s') →
  x_tree s' = x_tree s ∧ x_world s' = x_world s
  ∧ (x_trace s' = x_trace s ∨ ∃ ops o, x_trace s' = x_trace s ++ [EvWrite ops o])
  ∧ (r = Ok tt → counted s → x_batch s' = []).
Proof.
  unfold afterLoop, bind, check, ret, fail.
  destruct (writeBatch s) as [r1 s1] eqn:Hw.
  apply writeBatch_spec in Hw as (Ew & Et & _ & _ & Hcases).
  assert (x_trace s1 = x_trace s ∨ ∃ ops o, x_trace s1 = x_trace s ++ [EvWrite ops o])
    as Htrace.
  { destruct Hcases as [(_ & _ & ->)|[(_ & _ & _ & _ & _ & ->)|(_ & (e & _ & ->) & _)]];
      [by left|right; by eexists _, _..]. }
  assert (r1 = Ok tt → counted s → x_batch s1 = []) as Hbatch.
  { intros -> [Hc _].
    destruct Hcases as [(Hz & _ & ->)|[(_ & _ & _ & -> & _)|(_ & (e & ? & _) & _)]];
      [|done..].
    rewrite Hz in Hc. by destruct (x_batch s). }
  destruct r1 as [[]|e]; [|by intros [= <- <-]].
  destruct (iterator_Error (x_iterator s1)); [by intros [= <- <-]|].
  destruct (ctx_Err ctx (x_polls s1)); intros [= <- <-]; cbn; repeat split; auto.
Qed.

(** The parts of a run of [execute]. *)
Lemma execute_inv (fuel : nat) (db : Database) (tree : Tree) (w : W) r s' :
  execute ctx parser lastAcceptedHeight fuel db tree w = Some (r, s') →
  ∃ r1 s1 s2,
    executeLoop ctx parser lastAcceptedHeight fuel
      (mkExecState db tree w [] 0 (GetBlockIterator db) 0 O
         [EvAcquire (map fst (db_blocks db))]) = Some (r1, s1)
    ∧ match r1 with
      | Err e => r = Some e ∧ s2 = s1
      | Ok _ =>
          ∃ r2, afterLoop ctx s1 = (r2, s2)
                ∧ r = match r2 with Err e => Some e | Ok _ => None end
      end
    ∧ x_trace s' = x_trace s2 ++ [EvRelease]
    ∧ x_tree s' = x_tree s2 ∧ x_world s' = x_world s2
    ∧ x_batch s' = x_batch s2 ∧ x_db s' = x_db s2
    ∧ x_processedSinceBatchWrite s' = x_processedSinceBatchWrite s2.
Proof.
  unfold execute. destruct (executeLoop _ _ _ _ _) as [[r1 s1]|]; [|done].
  destruct r1 as [[]|e].
  - destruct (afterLoop ctx s1) as [r2 s2] eqn:Hafter. intros [= <- <-].
    exists (Ok tt), s1, s2. split; [done|]. split; [by exists r2|done].
  - intros [= <- <-]. by exists (Err e), s1, s1.
Qed.

End RunInvariants.

(** *** The cursor *)

(** X7. On every way out of [execute], with an error or without, every cursor it
    acquired has been released, once: no cursor is acquired while one is held,
    none is released twice, and none is held when [execute] returns. *)
Theorem execute_releases_every_cursor {W} (ctx : Context) (parser : Parser W)
    (lastAcceptedHeight : Z) (fuel : nat) (db : Database) (tree : Tree) (w : W)
    (r : option error) (s' : ExecState W) :
  execute ctx parser lastAcceptedHeight fuel db tree w = Some (r, s') →
  live_after false (x_trace s') = Some false.
Proof.
  intros (r1 & s1 & s2 & Hloop & Hrest & Et & _)%execute_inv.
  apply (executeLoop_held ctx parser lastAcceptedHeight tree) in Hloop as [Hlive _];
    [|done].
  assert (live_after false (x_trace s2) = Some true) as Hlive2.
  { destruct r1 as [[]|e]; [|by destruct Hrest as [_ ->]].
    destruct Hrest as (r2 & (_ & _ & [->|(ops & o & ->)] & _)%afterLoop_inv & _);
      [done|].
    by rewrite live_after_app, Hlive. }
  by rewrite Et, live_after_app, Hlive2.
Qed.

Lemma execute_releases_every_cursor_witness :
  ∃ s', execute None Sample.parser 0 10 (Sample.store_with 1 5 3 1) [mkInterval 1 5] []
        = Some (Some (ErrFailedVerify 3 3 (ErrVM 1)), s')
        ∧ live_after false (x_trace s') = Some false.
Proof.
  eexists. split; [vm_compute; reflexivity|].
  match goal with
  | |- live_after false (x_trace ?s) = _ =>
      apply (execute_releases_every_cursor None Sample.parser 0 10
               (Sample.store_with 1 5 3 1) [mkInterval 1 5] []
               (Some (ErrFailedVerify 3 3 (ErrVM 1))) s)
  end.
  vm_compute. reflexivity.
Defined.

(** *** The tree *)

Lemma foldl_delete_Tracks (hs : list Z) :
  ∀ t, Invariant t →
       Invariant (foldl (fun t h => delete h t) t hs)
       ∧ ∀ x, Tracks (foldl (fun t h => delete h t) t hs) x ↔ Tracks t x ∧ ¬ In x hs.
Proof.
  induction hs as [|h hs IH]; intros t Hinv; simpl.
  { split; [done|]. intros x. tauto. }
  destruct (IH (delete h t) (delete_Invariant h t Hinv)) as [Hinv' Htracks].
  split; [done|]. intros x. rewrite Htracks, (delete_Tracks h t Hinv x).
  split; [intros [[? ?] ?]|intros [? ?]]; repeat split; try done; intuition congruence.
Qed.

(** X8. Whatever way [execute] returns, the tree it leaves is the tree it was
    given less the heights it passed to interval.Remove: the invariant of the
    tree is kept, and a height is tracked on return exactly when it was
    tracked and no block of that height was read. *)
Theorem execute_tree_less_removed {W} (ctx : Context) (parser : Parser W)
    (lastAcceptedHeight : Z) (fuel : nat) (db : Database) (tree : Tree) (w : W)
    (r : option error) (s' : ExecState W) :
  execute ctx parser lastAcceptedHeight fuel db tree w = Some (r, s') →
  Invariant tree →
  Invariant (x_tree s')
  ∧ ∀ h, Tracks (x_tree s') h ↔ Tracks tree h ∧ ¬ In h (removed (x_trace s')).
Proof.
  intros (r1 & s1 & s2 & Hloop & Hrest & Et & Etree & _)%execute_inv Hinv.
  apply (executeLoop_held ctx parser lastAcceptedHeight tree) in Hloop as [_ Htree];
    [|done].
  assert (x_tree s2 = x_tree s1 ∧ removed (x_trace s2) = removed (x_trace s1))
    as [Etree2 Er2].
  { destruct r1 as [[]|e]; [|by destruct Hrest as [_ ->]].
    destruct Hrest as (r2 & (? & _ & [->|(ops & o & ->)] & _)%afterLoop_inv & _);
      [done|].
    rewrite removed_app. simpl. by rewrite app_nil_r. }
  rewrite Etree, Etree2, Htree, Et, removed_app, Er2. simpl. rewrite app_nil_r.
  by apply foldl_delete_Tracks.
Qed.

Lemma execute_tree_less_removed_witness :
  ∃ s', execute (Some 2%nat) Sample.parser 0 10 (Sample.store 1 3)
          [mkInterval 1 3; mkInterval 7 8] []
        = Some (Some ErrContext, s')
        ∧ Invariant (x_tree s')
        ∧ ∀ h, Tracks (x_tree s') h
               ↔ Tracks [mkInterval 1 3; mkInterval 7 8] h
                 ∧ ¬ In h (removed (x_trace s')).
Proof.
  eexists. split; [vm_compute; reflexivity|].
  match goal with
  | |- Invariant (x_tree ?s) ∧ _ =>
      apply (execute_tree_less_removed (Some 2%nat) Sample.parser 0 10
               (Sample.store 1 3) [mkInterval 1 3; mkInterval 7 8] []
               (Some ErrContext) s)
  end.
  - vm_compute. reflexivity.
  - simpl. lia.
Defined.

(** *** The calls *)

Lemma execute_called {W} (ctx : Context) (parser : Parser W)
    (lastAcceptedHeight : Z) (fuel : nat) (db : Database) (tree : Tree) (w : W)
    (r : option error) (s' : ExecState W) :
  execute ctx parser lastAcceptedHeight fuel db tree w = Some (r, s') →
  ∃ blks tail,
    block_calls (x_trace s') = flat_map executed_calls blks ++ tail
    ∧ Forall (fun blk => lastAcceptedHeight < blk_Height blk
                         ∧ ∃ blkBytes, parser blkBytes = Ok blk) blks
    ∧ blocks_succeed lastAcceptedHeight blks w
    ∧ call_end parser lastAcceptedHeight (world_after lastAcceptedHeight blks w)
        tail r (x_world s').
Proof.
  intros (r1 & s1 & s2 & Hloop & Hrest & Et & _ & Ew & _)%execute_inv.
  apply (executeLoop_called ctx parser lastAcceptedHeight w) in Hloop.
  2:{ exists []. by repeat split. }
  rewrite Et, Ew, block_calls_app. simpl. rewrite app_nil_r.
  destruct r1 as [[]|e].
  - destruct Hrest as (r2 & (_ & Ew2 & Ht2 & _)%afterLoop_inv & _).
    destruct Hloop as (blks & Hc & Hp & Hok & Hw). exists blks, [].
    rewrite app_nil_r, Ew2. repeat split; try done; [|by left].
    destruct Ht2 as [->|(ops & o & ->)]; [done|].
    rewrite block_calls_app. simpl. by rewrite app_nil_r.
  - by destruct Hrest as [-> ->].
Qed.

(** X9. The calls that any run of [execute] makes on blocks are pairs, Verify then
    Accept on the same block, all without error, but for the last ones: a run
    may end on a Verify that failed, after which Accept is not called, or on
    an Accept that failed after its Verify, and it then returns the error made
    of that failure. Nothing is called after a failure. *)
Theorem execute_verifies_then_accepts {W} (ctx : Context) (parser : Parser W)
    (lastAcceptedHeight : Z) (fuel : nat) (db : Database) (tree : Tree) (w : W)
    (r : option error) (s' : ExecState W) :
  execute ctx parser lastAcceptedHeight fuel db tree w = Some (r, s') →
  ∃ (blks : list (Block W)) tail,
    block_calls (x_trace s') = flat_map executed_calls blks ++ tail
    ∧ (tail = []
       ∨ (∃ blkID height cause,
            tail = [EvVerify blkID height (Some cause)]
            ∧ r = Some (ErrFailedVerify blkID height cause))
       ∨ (∃ blkID height cause,
            tail = [EvVerify blkID height None; EvAccept blkID height (Some cause)]
            ∧ r = Some (ErrFailedAccept blkID height cause))).
Proof.
  intros (blks & tail & Hc & _ & _ & Hend)%execute_called.
  exists blks, tail. split; [done|].
  destruct Hend as [[-> _]|[(blk & cause & _ & _ & _ & -> & ->)
                           |(blk & cause & wv & _ & _ & _ & _ & -> & ->)]].
  - by left.
  - right. left. by eexists _, _, _.
  - right. right. by eexists _, _, _.
Qed.

Lemma execute_verifies_then_accepts_witness :
  ∃ (s' : ExecState Sample.World) (blks : list (Block Sample.World)) tail,
    execute None Sample.parser 0 10 (Sample.store_with 1 5 3 2) [mkInterval 1 5] []
    = Some (Some (ErrFailedAccept 3 3 (ErrVM 2)), s')
    ∧ block_calls (x_trace s') = flat_map executed_calls blks ++ tail
    ∧ (tail = []
       ∨ (∃ blkID height cause,
            tail = [EvVerify blkID height (Some cause)]
            ∧ Some (ErrFailedAccept 3 3 (ErrVM 2))
              = Some (ErrFailedVerify blkID height cause))
       ∨ (∃ blkID height cause,
            tail = [EvVerify blkID height None; EvAccept blkID height (Some cause)]
            ∧ Some (ErrFailedAccept 3 3 (ErrVM 2))
              = Some (ErrFailedAccept blkID height cause))).
Proof.
  destruct (execute None Sample.parser 0 10 (Sample.store_with 1 5 3 2)
              [mkInterval 1 5] []) as [[r s']|] eqn:Hrun; [|by vm_compute in Hrun].
  assert (r = Some (ErrFailedAccept 3 3 (ErrVM 2))) as ->
    by (vm_compute in Hrun; by injection Hrun as <- _).
  destruct (execute_verifies_then_accepts None Sample.parser 0 10
              (Sample.store_with 1 5 3 2) [mkInterval 1 5] [] _ s' Hrun)
    as (blks & tail & Hc & Hend).
  exists s', blks, tail. split; [reflexivity|]. split; [exact Hc|exact Hend].
Defined.

(** X10. The state behind the blocks is changed by the calls of Verify and Accept
    only, in the order they are made: the state that a run leaves is the one
    that the successful pairs of calls, then the failed call if there is one,
    made of the state it was given; every block called was returned by the
    parser and is above lastAcceptedHeight. *)
Theorem execute_world_of_calls {W} (ctx : Context) (parser : Parser W)
    (lastAcceptedHeight : Z) (fuel : nat) (db : Database) (tree : Tree) (w : W)
    (r : option error) (s' : ExecState W) :
  execute ctx parser lastAcceptedHeight fuel db tree w = Some (r, s') →
  ∃ blks tail,
    block_calls (x_trace s') = flat_map executed_calls blks ++ tail
    ∧ Forall (fun blk => lastAcceptedHeight < blk_Height blk
                         ∧ ∃ blkBytes, parser blkBytes = Ok blk) blks
    ∧ blocks_succeed lastAcceptedHeight blks w
    ∧ call_end parser lastAcceptedHeight (world_after lastAcceptedHeight blks w)
        tail r (x_world s')
    ∧ (r = None → x_world s' = world_after lastAcceptedHeight blks w).
Proof.
  intros (blks & tail & Hc & Hp & Hok & Hend)%execute_called.
  exists blks, tail. repeat split; try done.
  intros ->. by destruct Hend as [[_ ->]|[(? & ? & _ & _ & _ & _ & ?)
                                         |(? & ? & ? & _ & _ & _ & _ & _ & ?)]].
Qed.

Lemma execute_world_of_calls_witness :
  ∃ (s' : ExecState Sample.World) blks,
    execute None Sample.parser 1 10 (Sample.store 1 3) [mkInterval 1 3] []
    = Some (None, s')
    ∧ blocks_succeed 1 blks []
    ∧ x_world s' = world_after 1 blks [].
Proof.
  destruct (execute None Sample.parser 1 10 (Sample.store 1 3)
              [mkInterval 1 3] []) as [[r s']|] eqn:Hrun; [|by vm_compute in Hrun].
  assert (r = None) as -> by (vm_compute in Hrun; by injection Hrun as <- _).
  destruct (execute_world_of_calls None Sample.parser 1 10
              (Sample.store 1 3) [mkInterval 1 3] [] _ s' Hrun)
    as (blks & tail & _ & _ & Hok & _ & Hw).
  exists s', blks. split; [reflexivity|]. split; [exact Hok|]. apply Hw. reflexivity.
Defined.

(** *** The store *)

Lemma kv_get_delete_eq (h : Z) (l : list (Z * bytes)) :
  kv_get h (kv_delete h l) = None.
Proof.
  unfold kv_delete. induction l as [|[k v] l IH]; [done|].
  destruct (decide (k = h)) as [->|Hk].
  - by rewrite filter_cons_False by (simpl; auto).
  - rewrite filter_cons_True by done. simpl.
    by rewrite (proj2 (Z.eqb_neq k h)) by done.
Qed.

Lemma kv_get_delete_None (h k : Z) (l : list (Z * bytes)) :
  kv_get h l = None → kv_get h (kv_delete k l) = None.
Proof.
  intros Hnone. destruct (decide (h = k)) as [->|Hne].
  - apply kv_get_delete_eq.
  - by rewrite kv_get_delete_ne.
Qed.

Lemma kv_get_deleted (h : Z) (hs : list Z) :
  ∀ l, In h hs → kv_get h (foldl apply_op l (map OpDelete hs)) = None.
Proof.
  assert (∀ hs' l, kv_get h l = None →
                   kv_get h (foldl apply_op l (map OpDelete hs')) = None) as Hkeep.
  { induction hs' as [|k hs' IH]; intros l Hnone; [done|]. simpl.
    apply IH. by apply kv_get_delete_None. }
  induction hs as [|k hs IH]; intros l Hin; [done|]. simpl.
  destruct (decide (k = h)) as [->|Hne].
  - apply Hkeep, kv_get_delete_eq.
  - destruct Hin as [?|Hin]; [done|]. by apply IH.
Qed.

Lemma kv_get_not_deleted (h : Z) (hs : list Z) :
  ∀ l, ¬ In h hs → kv_get h (foldl apply_op l (map OpDelete hs)) = kv_get h l.
Proof.
  intros l Hin. apply kv_get_deletes. intros op (k & <- & Hk)%in_map_iff.
  exists k. split; [done|]. by intros ->.
Qed.

(** The deletions written are those of the first heights passed to
    interval.Remove. *)
Lemma durable_written {W} (blocks0 : list (Z * bytes)) (s : ExecState W) :
  durable blocks0 s →
  ∃ done_ queued,
    removed (x_trace s) = done_ ++ queued
    ∧ written (x_trace s) = map OpDelete done_
    ∧ x_batch s = map OpDelete queued.
Proof.
  intros (_ & _ & Er).
  exists (take (length (written (x_trace s))) (removed (x_trace s))),
         (drop (length (written (x_trace s))) (removed (x_trace s))).
  split; [by rewrite take_drop|].
  rewrite <- firstn_map, <- skipn_map, <- Er.
  by rewrite take_app_length, drop_app_length.
Qed.

(** X11. [execute] only deletes from the store, on every way out: an entry of the
    store it leaves is an entry of the store it was given, with the same
    bytes; the entries gone are those of the heights whose deletion was
    written, which are the first heights passed to interval.Remove. *)
Theorem execute_only_deletes {W} (ctx : Context) (parser : Parser W)
    (lastAcceptedHeight : Z) (fuel : nat) (db : Database) (tree : Tree) (w : W)
    (r : option error) (s' : ExecState W) :
  execute ctx parser lastAcceptedHeight fuel db tree w = Some (r, s') →
  ∃ done_ queued,
    removed (x_trace s') = done_ ++ queued
    ∧ x_batch s' = map OpDelete queued
    ∧ ∀ h, kv_get h (db_blocks (x_db s'))
           = if bool_decide (h ∈ done_) then None else kv_get h (db_blocks db).
Proof.
  intros Hrun.
  destruct (execute_any ctx parser lastAcceptedHeight fuel db tree w r s' Hrun)
    as (Hd & _).
  destruct (durable_written _ _ Hd) as (done_ & queued & Er & Ew & Eb).
  exists done_, queued. split; [done|]. split; [done|].
  intros h. destruct Hd as (-> & _). rewrite Ew. case_bool_decide as Hin.
  - apply kv_get_deleted. by apply list_elem_of_In.
  - apply kv_get_not_deleted. by rewrite <- list_elem_of_In.
Qed.

Lemma execute_only_deletes_witness :
  ∃ (s' : ExecState Sample.World) done_ queued,
    execute (Some 2%nat) Sample.parser 0 10 (Sample.store 1 3) [mkInterval 1 3] []
    = Some (Some ErrContext, s')
    ∧ removed (x_trace s') = done_ ++ queued
    ∧ x_batch s' = map OpDelete queued
    ∧ ∀ h, kv_get h (db_blocks (x_db s'))
           = if bool_decide (h ∈ done_) then None
             else kv_get h (db_blocks (Sample.store 1 3)).
Proof.
  destruct (execute (Some 2%nat) Sample.parser 0 10 (Sample.store 1 3)
              [mkInterval 1 3] []) as [[r s']|] eqn:Hrun; [|by vm_compute in Hrun].
  assert (r = Some ErrContext) as -> by (vm_compute in Hrun; by injection Hrun as <- _).
  destruct (execute_only_deletes (Some 2%nat) Sample.parser 0 10
              (Sample.store 1 3) [mkInterval 1 3] [] _ s' Hrun)
    as (done_ & queued & Hr & Hb & Hget).
  exists s', done_, queued.
  split; [reflexivity|]. split; [exact Hr|]. split; [exact Hb|exact Hget].
Defined.

(** X12. When [execute] returns nil, nothing is left in the batch: the deletion of
    every height passed to interval.Remove has been written, and the store
    holds no entry at any of these heights. *)
Theorem execute_nil_has_written_all {W} (ctx : Context) (parser : Parser W)
    (lastAcceptedHeight : Z) (fuel : nat) (db : Database) (tree : Tree) (w : W)
    (s' : ExecState W) :
  execute ctx parser lastAcceptedHeight fuel db tree w = Some (None, s') →
  x_batch s' = []
  ∧ written (x_trace s') = map OpDelete (removed (x_trace s'))
  ∧ ∀ h, In h (removed (x_trace s')) → kv_get h (db_blocks (x_db s')) = None.
Proof.
  intros Hrun.
  destruct (execute_any ctx parser lastAcceptedHeight fuel db tree w None s' Hrun)
    as ((Edb & _ & Er) & _).
  apply execute_inv in Hrun as (r1 & s1 & s2 & Hloop & Hrest & _ & _ & _ & Eb & _).
  assert (x_batch s' = []) as Hbatch.
  { destruct r1 as [[]|e]; [|by destruct Hrest as [? _]].
    destruct Hrest as (r2 & Hafter & Hr). destruct r2 as [[]|e]; [|done].
    apply afterLoop_inv in Hafter as (_ & _ & _ & Hempty).
    rewrite Eb. apply Hempty; [done|].
    apply (executeLoop_any ctx parser lastAcceptedHeight (db_blocks db)) in Hloop
      as (_ & _ & [[_ Hc]|(? & ? & ? & _ & _ & _ & ? & _)]); [by apply Hc|done|..].
    - repeat split; try done; by repeat constructor.
    - done. }
  rewrite Hbatch, app_nil_r in Er. split; [done|]. split; [done|].
  intros h Hin. rewrite Edb, Er. by apply kv_get_deleted.
Qed.

Lemma execute_nil_has_written_all_witness :
  ∃ s' : ExecState Sample.World,
    execute None Sample.parser 1 10 (Sample.store 1 3) [mkInterval 1 3] []
    = Some (None, s')
    ∧ x_batch s' = []
    ∧ written (x_trace s') = map OpDelete (removed (x_trace s'))
    ∧ ∀ h, In h (removed (x_trace s')) → kv_get h (db_blocks (x_db s')) = None.
Proof.
  destruct (execute None Sample.parser 1 10 (Sample.store 1 3)
              [mkInterval 1 3] []) as [[r s']|] eqn:Hrun; [|by vm_compute in Hrun].
  assert (r = None) as -> by (vm_compute in Hrun; by injection Hrun as <- _).
  exists s'. split; [reflexivity|].
  exact (execute_nil_has_written_all None Sample.parser 1 10
           (Sample.store 1 3) [mkInterval 1 3] [] s' Hrun).
Defined.

(** *** Edge cases of the walk over the store *)

(** X13. [execute] walks the store, not the tree. On a store without entries
    it makes no call on a block, removes nothing and writes nothing, and it
    leaves the tree as it is even when the tree tracks heights. When the
    context is not cancelled and iterator.Next() fails, it returns the error
    that iterator.Error() reports; otherwise it returns what ctx.Err() returns
    when it is evaluated for the second time. *)
Theorem execute_empty_store {W} (ctx : Context) (parser : Parser W)
    (lastAcceptedHeight : Z) (fuel : nat) (db : Database) (tree : Tree) (w : W) :
  db_blocks db = [] →
  ∃ s', execute ctx parser lastAcceptedHeight (S fuel) db tree w
        = Some (match ctx_Err ctx 0, (storage_op db).1 with
                | None, Some e => Some e
                | _, _ => ctx_Err ctx 1
                end, s')
        ∧ x_trace s' = [EvAcquire []; EvRelease]
        ∧ x_tree s' = tree ∧ x_world s' = w
        ∧ db_blocks (x_db s') = [] ∧ x_batch s' = []
        ∧ x_db s' = match ctx_Err ctx 0 with
                    | None => (storage_op db).2
                    | Some _ => db
                    end.
Proof.
  intros Hempty. unfold execute, GetBlockIterator. rewrite Hempty.
  cbn [executeLoop]. unfold loopCondition, iterator_Next.
  cbn [x_polls x_iterator x_db it_rest map].
  pose proof (storage_op_blocks db) as Hblocks. rewrite Hempty in Hblocks.
  destruct (ctx_Err ctx 0).
  - unfold afterLoop, bind, writeBatch, check, iterator_Error, emit. cbn.
    destruct (ctx_Err ctx 1); cbn; by eexists.
  - destruct (storage_op db) as [[e|] db']; simpl in Hblocks;
      unfold afterLoop, bind, writeBatch, check, iterator_Error, emit; cbn.
    + by eexists.
    + destruct (ctx_Err ctx 1); cbn; by eexists.
Qed.

Lemma execute_empty_store_witness :
  ∃ s', execute None Sample.parser 0 1 (mkDatabase [] [Some (ErrStorage 1)])
          [mkInterval 1 3] []
        = Some (Some (ErrStorage 1), s')
        ∧ x_trace s' = [EvAcquire []; EvRelease]
        ∧ x_tree s' = [mkInterval 1 3] ∧ x_world s' = []
        ∧ db_blocks (x_db s') = [] ∧ x_batch s' = []
        ∧ x_db s' = mkDatabase [] [].
Proof.
  exact (execute_empty_store None Sample.parser 0 0
           (mkDatabase [] [Some (ErrStorage 1)]) [mkInterval 1 3] [] eq_refl).
Defined.

(** X14. A cursor that fails is not taken for the end of the store. When
    iterator.Next() fails on the first entry, the loop ends without
    processing any entry, and [execute] returns the error that
    iterator.Error() reports (the batch, empty, is not written). *)
Theorem execute_cursor_failure {W} (ctx : Context) (parser : Parser W)
    (lastAcceptedHeight : Z) (fuel : nat) (entry : Z * bytes)
    (entries : list (Z * bytes)) (e : error) (faults : list (option error))
    (tree : Tree) (w : W) :
  ctx_Err ctx 0 = None →
  ∃ s', execute ctx parser lastAcceptedHeight (S fuel)
          (mkDatabase (entry :: entries) (Some e :: faults)) tree w
        = Some (Some e, s')
        ∧ x_trace s' = [EvAcquire (map fst (entry :: entries)); EvRelease]
        ∧ x_tree s' = tree ∧ x_world s' = w
        ∧ db_blocks (x_db s') = entry :: entries.
Proof.
  intros Hctx. unfold execute, GetBlockIterator.
  cbn [executeLoop]. unfold loopCondition, iterator_Next. cbn. rewrite Hctx.
  unfold afterLoop, bind, writeBatch, check, iterator_Error. cbn. by eexists.
Qed.

Lemma execute_cursor_failure_witness :
  ∃ s', execute None Sample.parser 0 1
          (mkDatabase ((1, Sample.encode 1 0) :: []) (Some (ErrStorage 7) :: []))
          [mkInterval 1 1] []
        = Some (Some (ErrStorage 7), s')
        ∧ x_trace s' = [EvAcquire (map fst ((1, Sample.encode 1 0) :: [])); EvRelease]
        ∧ x_tree s' = [mkInterval 1 1] ∧ x_world s' = []
        ∧ db_blocks (x_db s') = (1, Sample.encode 1 0) :: [].
Proof.
  apply (execute_cursor_failure None Sample.parser 0 0 (1, Sample.encode 1 0) []
           (ErrStorage 7) [] [mkInterval 1 1] []).
  reflexivity.
Defined.

(** *** The counters *)

Section Counters.
Context {W : Type}.
Variable ctx : Context.
Variable parser : Parser W.
Variable lastAcceptedHeight : Z.

(** The counters after the steps that precede the calls, [n] entries having
    been processed before: they count the entries processed modulo their
    periods. *)
Lemma housekeeping_counters (height : Z) (s sk : ExecState W) (n : Z) :
  bind (removeBlock height)
    (fun _ => bind countBatchWrite (fun _ => countIteratorRelease)) s = (Ok tt, sk) →
  0 <= n →
  x_processedSinceBatchWrite s = n mod batchWritePeriod →
  x_processedSinceIteratorRelease s = n mod iteratorReleasePeriod →
  x_processedSinceBatchWrite sk = (n + 1) mod batchWritePeriod
  ∧ x_processedSinceIteratorRelease sk = (n + 1) mod iteratorReleasePeriod.
Proof.
  destruct s as [db tree w batch c64 it c1024 polls trace]. simpl.
  intros Hrun Hn -> ->. revert Hrun.
  unfold bind, removeBlock, Remove. cbn.
  destruct (storage_op db) as [[e|] db1]; [done|].
  unfold countBatchWrite. cbn [x_processedSinceBatchWrite].
  rewrite counter_incr by (unfold batchWritePeriod; lia).
  rewrite period_reached by (unfold batchWritePeriod; lia || done).
  pose proof (period_next n batchWritePeriod ltac:(done) Hn) as Hnext64.
  pose proof (period_next n iteratorReleasePeriod ltac:(done) Hn) as Hnext1024.
  pose proof (Z.mod_pos_bound n batchWritePeriod ltac:(done)) as Hb64.
  set (after64 := (n + 1) mod batchWritePeriod) in *.
  assert (∀ (s2 : ExecState W),
            x_processedSinceBatchWrite s2 = after64 →
            x_processedSinceIteratorRelease s2 = n mod iteratorReleasePeriod →
            ∀ s3, countIteratorRelease s2 = (Ok tt, s3) →
                  x_processedSinceBatchWrite s3 = after64
                  ∧ x_processedSinceIteratorRelease s3
                    = (n + 1) mod iteratorReleasePeriod) as Hrelease.
  { intros s2 Hc64 Hc1024 s3. unfold countIteratorRelease. rewrite Hc1024.
    rewrite counter_incr by (unfold iteratorReleasePeriod; lia).
    rewrite period_reached by (unfold iteratorReleasePeriod; lia || done).
    destruct (Z.eqb_spec ((n + 1) mod iteratorReleasePeriod) 0) as [Hz|Hnz].
    - unfold bind, check, ret. cbn [x_iterator].
      destruct (iterator_Error (x_iterator s2)); [done|].
      unfold writeBatch. cbn [x_processedSinceBatchWrite]. rewrite Hc64.
      subst after64. rewrite (release_implies_flush n Hz). cbn.
      intros [= <-]. cbn. by rewrite Hz.
    - intros [= <-]. cbn. split; [done|]. by rewrite Hnext1024. }
  destruct (Z.eqb_spec after64 0) as [Hz|Hnz].
  - unfold writeBatch at 1. cbn [x_processedSinceBatchWrite].
    assert (n mod batchWritePeriod + 1 =? 0 = false) as -> by (apply Z.eqb_neq; lia).
    cbn. destruct (batch_Write _ _) as [[e|] db2]; [done|].
    intros Hrel. apply Hrelease in Hrel; [done|by cbn|done].
  - intros Hrel. apply Hrelease in Hrel; [done| |done]. cbn. by rewrite Hnext64.
Qed.

Local Notation paced s :=
  (x_processedSinceBatchWrite s
   = Z.of_nat (length (removed (x_trace s))) mod batchWritePeriod
   ∧ x_processedSinceIteratorRelease s
     = Z.of_nat (length (removed (x_trace s))) mod iteratorReleasePeriod
   ∧ Forall (fun ev => failed_call ev = None) (block_calls (x_trace s))).

(** At an exit of the loop: no call has failed, or the last event is the call
    that failed, on the block whose height was the last one passed to
    interval.Remove, and the counter counts the entries processed modulo its
    period. *)
Local Notation paced_end s :=
  (Forall (fun ev => failed_call ev = None) (block_calls (x_trace s))
   ∨ ∃ pre blkID height o earlier,
       (x_trace s = pre ++ [EvVerify blkID height o]
        ∨ x_trace s = pre ++ [EvAccept blkID height o])
       ∧ removed (x_trace s) = earlier ++ [height]
       ∧ x_processedSinceBatchWrite s
         = Z.of_nat (length (removed (x_trace s))) mod batchWritePeriod).

Lemma iteration_paced (blkBytes : bytes) (s : ExecState W) r s' :
  iteration parser lastAcceptedHeight blkBytes s = (r, s') → paced s →
  match r with
  | Ok _ => paced s'
  | Err _ => paced_end s'
  end.
Proof.
  intros Hrun%iteration_inv (Hc64 & Hc1024 & Hquiet).
  destruct (parser blkBytes) as [blk|e].
  2:{ destruct Hrun as [-> ->]. by left. }
  destruct Hrun as (rk & sk & Hk & Hrest).
  pose proof (housekeeping_spec lastAcceptedHeight _ _ _ _ Hk)
    as (_ & Eck & _ & hs & Erk & _ & Hhs).
  destruct rk as [[]|e].
  2:{ destruct Hrest as [-> ->]. left. by rewrite Eck. }
  specialize (Hhs eq_refl). subst hs.
  destruct (housekeeping_counters _ _ _ (Z.of_nat (length (removed (x_trace s))))
              Hk ltac:(lia) Hc64 Hc1024) as [Hc64k Hc1024k].
  assert (Z.of_nat (length (removed (x_trace sk)))
          = Z.of_nat (length (removed (x_trace s))) + 1) as Hlen
    by (rewrite Erk, length_app; simpl; lia).
  rewrite <- Hlen in Hc64k, Hc1024k.
  destruct (blk_Height blk <=? lastAcceptedHeight).
  { destruct Hrest as [-> ->]. by rewrite Eck. }
  pose proof (calls_events _ _ _ _ Hrest) as (tail' & Et' & Htail').
  apply calls_inv in Hrest as (_ & _ & _ & Ec64 & Ec1024 & tail & Et & Hcases).
  assert (removed (x_trace s') = removed (x_trace sk)) as Er.
  { rewrite Et', removed_app, (removed_block_calls tail' Htail'). apply app_nil_r. }
  destruct Hcases as [(-> & -> & _)
                     |[(cause & _ & -> & ->)|(cause & wv & _ & _ & -> & ->)]].
  - rewrite Ec64, Ec1024, Er, Et, block_calls_app, Eck. repeat split; try done.
    apply Forall_app. split; [done|]. by repeat constructor.
  - right. eexists _, _, _, _, _. split; [left; exact Et|].
    rewrite Er, Ec64. by split.
  - right. eexists (x_trace sk ++ [_]), _, _, _, _. split.
    + right. rewrite Et. by rewrite <- app_assoc.
    + rewrite Er, Ec64. by split.
Qed.

Lemma executeLoop_paced (fuel : nat) (s : ExecState W) r s' :
  executeLoop ctx parser lastAcceptedHeight fuel s = Some (r, s') → paced s →
  match r with
  | Ok _ => paced s'
  | Err _ => paced_end s'
  end.
Proof.
  apply (executeLoop_rule ctx parser lastAcceptedHeight
           (fun s => paced s)
           (fun r s => match r with Ok _ => paced s | Err _ => paced_end s end)).
  - intros s0 o s1 (_ & _ & _ & E64 & E1024 & Etr)%loopCondition_fields.
    by rewrite E64, E1024, Etr.
  - done.
  - intros blkBytes s0 r0 s0' Hit Hp.
    pose proof (iteration_paced _ _ _ _ Hit Hp). by destruct r0.
Qed.

End Counters.

(** X15. The periodic write of the batch comes before the calls on the block that
    triggers it. When a run ends on a Verify or an Accept that failed, the
    block called is the one whose height was passed to interval.Remove last,
    and the batch holds as many deletions as entries were processed, modulo
    64. So if the block that failed was the 64th since the last write, the
    batch has been written with the deletion of that very block: the store no
    longer holds the block that failed. Otherwise its deletion is in the
    batch, not written. *)
Theorem execute_failed_call_after_periodic_write {W} (ctx : Context)
    (parser : Parser W) (lastAcceptedHeight : Z) (fuel : nat) (db : Database)
    (tree : Tree) (w : W) (r : option error) (s' : ExecState W) :
  execute ctx parser lastAcceptedHeight fuel db tree w = Some (r, s') →
  ∀ ev e,
    In ev (x_trace s') → failed_call ev = Some e →
    ∃ earlier height,
      removed (x_trace s') = earlier ++ [height]
      ∧ (∃ blkID o, ev = EvVerify blkID height o ∨ ev = EvAccept blkID height o)
      ∧ Z.of_nat (length (x_batch s'))
        = Z.of_nat (length (removed (x_trace s'))) mod batchWritePeriod
      ∧ (Z.of_nat (length (removed (x_trace s'))) mod batchWritePeriod = 0 →
         x_batch s' = [] ∧ kv_get height (db_blocks (x_db s')) = None)
      ∧ (Z.of_nat (length (removed (x_trace s'))) mod batchWritePeriod ≠ 0 →
         In (OpDelete height) (x_batch s')).
Proof.
  intros Hrun ev e Hin Hev.
  destruct (execute_any ctx parser lastAcceptedHeight fuel db tree w r s' Hrun)
    as (Hd & _ & [Hf|(pre & ev' & e' & Et & Hpre & Hev' & -> & [Hc _])]).
  { rewrite Forall_forall in Hf. rewrite (Hf ev) in Hev; [done|].
    by apply list_elem_of_In. }
  assert (ev = ev') as <-.
  { rewrite Et in Hin. apply in_app_or in Hin as [Hin|[<-|[<-|[]]]]; [|done|done].
    rewrite Forall_forall in Hpre. rewrite (Hpre ev) in Hev; [done|].
    by apply list_elem_of_In. }
  apply execute_inv in Hrun as (r1 & s1 & s2 & Hloop & Hrest & Et' & _ & _ & _ & _ & Ec).
  assert (x_trace s2 = pre ++ [ev]) as Et2.
  { rewrite Et in Et'. change (pre ++ [ev; EvRelease]) with (pre ++ [ev] ++ [EvRelease]) in Et'.
    rewrite app_assoc in Et'. by apply app_inj_tail in Et' as [-> _]. }
  assert (is_block_call ev = true) as Hcall by (by destruct ev as [| | | |? ? []|? ? []]).
  apply (executeLoop_paced ctx parser lastAcceptedHeight) in Hloop.
  2:{ repeat split; try done. }
  assert (∃ pre' blkID height o earlier,
            (x_trace s2 = pre' ++ [EvVerify blkID height o]
             ∨ x_trace s2 = pre' ++ [EvAccept blkID height o])
            ∧ removed (x_trace s2) = earlier ++ [height]
            ∧ x_processedSinceBatchWrite s2
              = Z.of_nat (length (removed (x_trace s2))) mod batchWritePeriod)
    as (pre' & blkID & height & o & earlier & Hlast & Er2 & Ec2).
  { destruct r1 as [[]|e1].
    - exfalso. destruct Hloop as (_ & _ & Hquiet).
      destruct Hrest as (r2 & (_ & _ & Ht2 & _)%afterLoop_inv & _).
      assert (In ev (x_trace s1)) as Hin1.
      { destruct Ht2 as [Heq|(ops & o & Heq)]; rewrite Heq in Et2.
        - rewrite Et2. apply in_or_app. right. by left.
        - apply app_inj_tail in Et2 as [_ <-]. by simpl in Hcall. }
      rewrite Forall_forall in Hquiet. rewrite (Hquiet ev) in Hev; [done|].
      apply list_elem_of_In, filter_In. by split.
    - destruct Hrest as [_ ->]. destruct Hloop as [Hquiet|Hend]; [|done].
      exfalso. rewrite Forall_forall in Hquiet. rewrite (Hquiet ev) in Hev; [done|].
      apply list_elem_of_In, filter_In. split; [|done].
      rewrite Et2. apply in_or_app. right. by left. }
  assert (removed (x_trace s') = removed (x_trace s2)) as Er.
  { rewrite Et', removed_app. simpl. by rewrite app_nil_r. }
  rewrite Er, Er2. exists earlier, height. split; [done|]. split.
  { exists blkID, o. rewrite Et2 in Hlast.
    destruct Hlast as [Hl|Hl]; apply app_inj_tail in Hl as [_ ->]; auto. }
  assert (Z.of_nat (length (x_batch s'))
          = Z.of_nat (length (earlier ++ [height])) mod batchWritePeriod) as Hlen
    by (by rewrite <- Hc, Ec, Ec2, Er2).
  split; [done|].
  destruct (durable_written _ _ Hd) as (done_ & queued & Erem & Ew & Eb).
  rewrite Er, Er2 in Erem. destruct Hd as (Edb & _). split.
  - intros Hz. rewrite Hz in Hlen.
    assert (x_batch s' = []) as Hb by (destruct (x_batch s'); simpl in Hlen; [done|lia]).
    split; [done|]. rewrite Hb in Eb. destruct queued; [|done].
    rewrite app_nil_r in Erem. rewrite Edb, Ew, <- Erem.
    apply kv_get_deleted, in_or_app. right. by left.
  - intros Hnz. rewrite Eb. apply in_map.
    destruct queued as [|q queued _] using rev_ind.
    { rewrite Eb in Hlen. simpl in Hlen. by rewrite <- Hlen in Hnz. }
    rewrite app_assoc in Erem. apply app_inj_tail in Erem as [_ ->].
    apply in_or_app. right. by left.
Qed.

Lemma execute_failed_call_after_periodic_write_witness :
  ∃ s' : ExecState Sample.World,
    execute None Sample.parser 0 100 (Sample.store_with 1 70 64 1) [mkInterval 1 70] []
    = Some (Some (ErrFailedVerify 64 64 (ErrVM 1)), s')
    ∧ Z.of_nat (length (removed (x_trace s'))) mod batchWritePeriod = 0
    ∧ x_batch s' = []
    ∧ kv_get 64 (db_blocks (x_db s')) = None.
Proof.
  destruct (execute None Sample.parser 0 100 (Sample.store_with 1 70 64 1)
              [mkInterval 1 70] []) as [[r s']|] eqn:Hrun; [|by vm_compute in Hrun].
  assert (r = Some (ErrFailedVerify 64 64 (ErrVM 1))
          ∧ removed (x_trace s') = seqZ 1 64
          ∧ In (EvVerify 64 64 (Some (ErrVM 1))) (x_trace s')) as (-> & Hremoved & Hin).
  { vm_compute in Hrun. injection Hrun as <- <-. split; [reflexivity|].
    split; [reflexivity|]. vm_compute. tauto. }
  destruct (execute_failed_call_after_periodic_write None Sample.parser 0 100
              (Sample.store_with 1 70 64 1) [mkInterval 1 70] [] _ s' Hrun
              (EvVerify 64 64 (Some (ErrVM 1))) (ErrFailedVerify 64 64 (ErrVM 1))
              Hin eq_refl)
    as (earlier & height & Her & _ & _ & Hzero & _).
  assert (height = 64) as ->.
  { rewrite Hremoved in Her. change (seqZ 1 64) with (seqZ 1 63 ++ [64]) in Her.
    by apply app_inj_tail in Her as [_ <-]. }
  assert (Z.of_nat (length (removed (x_trace s'))) mod batchWritePeriod = 0) as Hz
    by (rewrite Hremoved; reflexivity).
  exists s'. split; [reflexivity|]. split; [exact Hz|]. exact (Hzero Hz).
Defined.

(** ** The acceptor decorator under the Executor *)

Section AcceptorRun.
Context {V : Type}.
Variable hook : ID -> bytes -> V -> option error * V.
Variable parser : Parser V.

(** The blocks that parseAcceptor.ParseBlock returns are blockAcceptors. *)
Lemma parseAcceptor_ParseBlock_Ok (blkBytes : bytes) (blk : Block (AcceptorWorld V)) :
  parseAcceptor_ParseBlock hook parser blkBytes = Ok blk →
  ∃ inner, parser blkBytes = Ok inner ∧ blk = blockAcceptor hook inner.
Proof.
  unfold parseAcceptor_ParseBlock. destruct (parser blkBytes) as [inner|e]; [|done].
  intros [= <-]. by exists inner.
Qed.

Lemma increments_app (calls1 calls2 : list AcceptorEvent) :
  increments (calls1 ++ calls2) = (increments calls1 + increments calls2)%nat.
Proof. unfold increments. by rewrite List.filter_app, length_app. Qed.

(** Verify on a blockAcceptor is the Verify of the wrapped block: it does not
    touch the counter. *)
Lemma blockAcceptor_Verify_counter (inner : Block V) (w : AcceptorWorld V) :
  let out := blk_Verify (blockAcceptor hook inner) w in
  numAccepted out.2 = numAccepted w ∧ aw_calls out.2 = aw_calls w.
Proof.
  simpl. unfold embedded. by destruct (blk_Verify inner (aw_inner w)).
Qed.

Lemma blockAcceptor_Accept_counter (inner : Block V) (w : AcceptorWorld V) :
  let out := blk_Accept (blockAcceptor hook inner) w in
  numAccepted out.2 = numAccepted w + 1
  ∧ increments (aw_calls out.2) = S (increments (aw_calls w)).
Proof.
  simpl. rewrite blockAcceptor_Accept_unfold. simpl.
  destruct (hook _ _ _).1; simpl; rewrite !increments_app; simpl;
    (split; [done|]); unfold increments; simpl; lia.
Qed.

(** The counter after the pairs of calls that succeeded. *)
Lemma world_after_counter (lastAcceptedHeight : Z)
    (blks : list (Block (AcceptorWorld V))) :
  ∀ w,
    Forall (fun blk => lastAcceptedHeight < blk_Height blk
                       ∧ ∃ blkBytes,
                           parseAcceptor_ParseBlock hook parser blkBytes = Ok blk) blks →
    numAccepted (world_after lastAcceptedHeight blks w)
    = numAccepted w + Z.of_nat (length blks)
    ∧ increments (aw_calls (world_after lastAcceptedHeight blks w))
      = (increments (aw_calls w) + length blks)%nat.
Proof.
  induction blks as [|blk blks IH]; intros w Hall; simpl.
  { split; lia. }
  apply Forall_cons in Hall as [[Hh (blkBytes & Hparse)] Hall].
  rewrite (proj2 (Z.leb_gt _ _) Hh).
  apply parseAcceptor_ParseBlock_Ok in Hparse as (inner & _ & ->).
  destruct (IH (blk_Accept (blockAcceptor hook inner)
                  (blk_Verify (blockAcceptor hook inner) w).2).2 Hall) as [-> ->].
  destruct (blockAcceptor_Accept_counter inner
              (blk_Verify (blockAcceptor hook inner) w).2) as [-> ->].
  destruct (blockAcceptor_Verify_counter inner w) as [-> ->].
  split; lia.
Qed.

Lemma accept_calls_executed (blks : list (Block (AcceptorWorld V))) :
  accept_calls (flat_map executed_calls blks) = length blks.
Proof.
  induction blks as [|blk blks IH]; [done|].
  simpl. unfold accept_calls in *. simpl. by rewrite IH.
Qed.

End AcceptorRun.

(** X16. When the Executor runs on the parser wrapped by parseAcceptor, the counter
    numAccepted grows by the number of calls of Accept that [execute] makes,
    the one that failed included, on every way out: blocks at or below
    lastAcceptedHeight, blocks that do not parse and blocks whose Verify fails
    are not counted. *)
Theorem execute_counts_accept_calls {V} (hook : ID -> bytes -> V -> option error * V)
    (ctx : Context) (parser : Parser V) (lastAcceptedHeight : Z) (fuel : nat)
    (db : Database) (tree : Tree) (w : AcceptorWorld V)
    (r : option error) (s' : ExecState (AcceptorWorld V)) :
  execute ctx (parseAcceptor_ParseBlock hook parser) lastAcceptedHeight fuel db tree w
  = Some (r, s') →
  numAccepted (x_world s') = numAccepted w + Z.of_nat (accept_calls (x_trace s'))
  ∧ increments (aw_calls (x_world s'))
    = (increments (aw_calls w) + accept_calls (x_trace s'))%nat.
Proof.
  intros (blks & tail & Hc & Hp & _ & Hend)%execute_called.
  rewrite <- accept_calls_block_calls, Hc, accept_calls_app, accept_calls_executed.
  destruct (world_after_counter hook parser lastAcceptedHeight blks w Hp) as [Hn Hi].
  destruct Hend as [[-> ->]|[(blk & cause & (b & Hb) & _ & Hv & -> & _)
                            |(blk & cause & wv & (b & Hb) & _ & Hv & Ha & -> & _)]].
  - rewrite Hn, Hi. unfold accept_calls. simpl. split; lia.
  - apply parseAcceptor_ParseBlock_Ok in Hb as (inner & _ & ->).
    destruct (blockAcceptor_Verify_counter hook inner
                (world_after lastAcceptedHeight blks w)) as [Hvn Hvc].
    rewrite Hv in Hvn, Hvc. simpl in Hvn, Hvc.
    rewrite Hvn, Hvc, Hn, Hi. unfold accept_calls. simpl. split; lia.
  - apply parseAcceptor_ParseBlock_Ok in Hb as (inner & _ & ->).
    destruct (blockAcceptor_Verify_counter hook inner
                (world_after lastAcceptedHeight blks w)) as [Hvn Hvc].
    rewrite Hv in Hvn, Hvc. simpl in Hvn, Hvc.
    destruct (blockAcceptor_Accept_counter hook inner wv) as [Han Hac].
    rewrite Ha in Han, Hac. simpl in Han, Hac.
    rewrite Han, Hac, Hvn, Hvc, Hn, Hi. unfold accept_calls. simpl. split; lia.
Qed.

Lemma execute_counts_accept_calls_witness :
  ∃ s' : ExecState (AcceptorWorld Sample.World),
    execute None
      (parseAcceptor_ParseBlock (fun _ _ v => (None, v)) Sample.parser) 1 10
      (Sample.store_with 1 5 4 2) [mkInterval 1 5] (mkAcceptorWorld 0 [] [])
    = Some (Some (ErrFailedAccept 4 4 (ErrVM 2)), s')
    ∧ accept_calls (x_trace s') = 3%nat
    ∧ numAccepted (x_world s') = 3
    ∧ aw_inner (x_world s') = [3%N; 2%N].
Proof.
  destruct (execute None
              (parseAcceptor_ParseBlock (fun _ _ v => (None, v)) Sample.parser) 1 10
              (Sample.store_with 1 5 4 2) [mkInterval 1 5] (mkAcceptorWorld 0 [] []))
    as [[r s']|] eqn:Hrun; [|by vm_compute in Hrun].
  assert (r = Some (ErrFailedAccept 4 4 (ErrVM 2))
          ∧ accept_calls (x_trace s') = 3%nat
          ∧ aw_inner (x_world s') = [3%N; 2%N]) as (-> & Hcalls & Hinner).
  { vm_compute in Hrun. injection Hrun as <- <-. by repeat split. }
  destruct (execute_counts_accept_calls (fun _ _ v => (None, v)) None Sample.parser
              1 10 (Sample.store_with 1 5 4 2) [mkInterval 1 5]
              (mkAcceptorWorld 0 [] []) _ s' Hrun) as [Hn _].
  exists s'. split; [reflexivity|]. split; [exact Hcalls|].
  split; [|exact Hinner]. rewrite Hn, Hcalls. reflexivity.
Defined.

(** ** More on the Executor: an entry that does not parse *)

Section ParseError.
Context {W : Type}.
Variable ctx : Context.
Variable parser : Parser W.
Variable lastAcceptedHeight : Z.

(** The loop over the first entries [todo] of the store, which hold the blocks
    [blks], up to the head of the loop before the entries [later]. *)
Lemma executeLoop_prefix (todo : list (Z * bytes)) (blks : list (Block W)) :
  holds_blocks parser todo blks →
  ∀ (fuel : nat) (pending later : list (Z * bytes)) (n : Z) (tree : Tree) (w : W)
    (polls : nat) (trace : list Event),
    NoDup (map fst (pending ++ todo ++ later)) →
    0 <= n →
    Z.of_nat (length pending) = n mod batchWritePeriod →
    blocks_succeed lastAcceptedHeight blks w →
    (∀ i, (i < length todo)%nat → ctx_Err ctx (polls + i) = None) →
    let pending' := scheduled_pending n pending todo in
    let n' := n + Z.of_nat (length todo) in
    executeLoop ctx parser lastAcceptedHeight (length todo + fuel)
      (mkExecState (mkDatabase (pending ++ todo ++ later) [])
         tree w (map OpDelete (map fst pending)) (n mod batchWritePeriod)
         (mkIterator (todo ++ later) None) (n mod iteratorReleasePeriod)
         polls trace)
    = executeLoop ctx parser lastAcceptedHeight fuel
        (mkExecState (mkDatabase (pending' ++ later) [])
           (foldl (fun t kv => delete kv.1 t) tree todo)
           (world_after lastAcceptedHeight blks w)
           (map OpDelete (map fst pending')) (n' mod batchWritePeriod)
           (mkIterator later None) (n' mod iteratorReleasePeriod)
           (polls + length todo)
           (trace ++ scheduled_events lastAcceptedHeight n (map fst pending) blks
                       (map fst later)))
    ∧ Z.of_nat (length pending') = n' mod batchWritePeriod.
Proof.
  induction 1 as [|[key value] blk todo blks [Hparse Hheight] Hrest IH];
    intros fuel pending later n tree w polls trace Hnd Hn Hlen Hok Hctx pending' n'.
  - subst pending' n'. simpl in *.
    by rewrite Z.add_0_r, Nat.add_0_r, app_nil_r.
  - simpl in Hheight. subst key.
    apply (blocks_succeed_cons lastAcceptedHeight) in Hok as [Hok1 Hok].
    change (length ((blk_Height blk, value) :: todo) + fuel)%nat
      with (S (length todo + fuel)).
    cbn [executeLoop]. unfold loopCondition. cbn [x_polls x_iterator x_db].
    pose proof (Hctx O ltac:(simpl; lia)) as Hc0. rewrite Nat.add_0_r in Hc0.
    rewrite Hc0. cbn [iterator_Next it_rest app storage_op db_faults it_err].
    cbn [x_tree x_world x_batch x_processedSinceBatchWrite
         x_processedSinceIteratorRelease x_trace snd].
    destruct (iteration_scheduled parser lastAcceptedHeight blk value pending
                (todo ++ later) n tree w (S polls) trace Hparse Hnd Hn Hlen Hok1)
      as [Hit Hlen1].
    change ((blk_Height blk, value) :: todo ++ later)
      with ((blk_Height blk, value) :: (todo ++ later)).
    rewrite Hit.
    set (pending1 := scheduled_pending n pending [(blk_Height blk, value)]) in *.
    destruct (IH fuel pending1 later (n + 1) (delete (blk_Height blk) tree)
                (world_after lastAcceptedHeight [blk] w) (S polls)
                (trace ++ scheduled_events lastAcceptedHeight n (map fst pending)
                            [blk] (map fst (todo ++ later))))
      as [Hloop Hlen']; try done.
    + subst pending1. simpl. destruct (_ =? 0).
      * simpl. rewrite map_app in Hnd. apply NoDup_app in Hnd as (_ & _ & Hnd).
        simpl in Hnd. by apply NoDup_cons in Hnd as [_ Hnd].
      * rewrite <- app_assoc. done.
    + lia.
    + intros i Hi. specialize (Hctx (S i) ltac:(simpl; lia)).
      by replace (S polls + i)%nat with (polls + S i)%nat by lia.
    + subst pending' n'. cbn [scheduled_pending length foldl].
      replace (n + Z.of_nat (S (length todo))) with (n + 1 + Z.of_nat (length todo))
        by lia.
      split; [|exact Hlen'].
      etrans; [exact Hloop|]. do 2 f_equal.
      * symmetry. apply world_after_cons.
      * lia.
      * rewrite <- app_assoc. f_equal. simpl.
        rewrite map_app, (holds_blocks_keys parser todo blks Hrest), app_nil_r.
        subst pending1. simpl. rewrite <- !app_assoc.
        destruct ((n + 1) mod batchWritePeriod =? 0); simpl;
          by rewrite ?map_app.
Qed.

End ParseError.

(** X17. When the parser rejects the bytes of an entry, [execute] returns the
    parser's error at once. The entries before it were processed as usual;
    the entry that does not parse is neither removed from the tree nor
    deleted, and the deletions queued since the last periodic write are not
    written: the store holds them, the entry that does not parse and all that
    follows. *)
Theorem execute_parse_error {W} (ctx : Context) (parser : Parser W)
    (lastAcceptedHeight : Z) (todo : list (Z * bytes)) (blks : list (Block W))
    (key : Z) (bad : bytes) (e : error) (later : list (Z * bytes))
    (tree : Tree) (w : W) (fuel : nat) :
  holds_blocks parser todo blks →
  parser bad = Err e →
  NoDup (map fst (todo ++ (key, bad) :: later)) →
  blocks_succeed lastAcceptedHeight blks w →
  (∀ i, (i <= length todo)%nat → ctx_Err ctx i = None) →
  (length todo < fuel)%nat →
  let pending := scheduled_pending 0 [] todo in
  ∃ s', execute ctx parser lastAcceptedHeight fuel
          (mkDatabase (todo ++ (key, bad) :: later) []) tree w
        = Some (Some e, s')
        ∧ removed (x_trace s') = map fst todo
        ∧ block_calls (x_trace s')
          = flat_map (fun blk => if blk_Height blk <=? lastAcceptedHeight then []
                                 else executed_calls blk) blks
        ∧ x_tree s' = foldl (fun t kv => delete kv.1 t) tree todo
        ∧ x_world s' = world_after lastAcceptedHeight blks w
        ∧ x_batch s' = map OpDelete (map fst pending)
        ∧ db_blocks (x_db s') = pending ++ (key, bad) :: later.
Proof.
  intros Hholds Hbad Hnd Hok Hctx Hfuel pending.
  destruct (executeLoop_prefix ctx parser lastAcceptedHeight todo blks Hholds
              (fuel - length todo) [] ((key, bad) :: later) 0 tree w O
              [EvAcquire (map fst (todo ++ (key, bad) :: later))])
    as [Hloop _]; try done.
  { intros i Hi. apply Hctx. lia. }
  replace (length todo + (fuel - length todo))%nat with fuel in Hloop by lia.
  unfold execute, GetBlockIterator. cbn [db_blocks].
  match type of Hloop with
  | _ = ?r =>
      assert (executeLoop ctx parser lastAcceptedHeight fuel
                (mkExecState (mkDatabase (todo ++ (key, bad) :: later) []) tree w [] 0
                   (mkIterator (todo ++ (key, bad) :: later) None) 0 O
                   [EvAcquire (map fst (todo ++ (key, bad) :: later))]) = r) as Hloop'
        by exact Hloop
  end.
  rewrite Hloop'. clear Hloop Hloop'. fold pending.
  destruct (fuel - length todo)%nat as [|fuel'] eqn:Hf; [lia|].
  cbn [executeLoop]. unfold loopCondition. cbn [x_polls x_iterator x_db].
  rewrite (Hctx (0 + length todo)%nat) by lia.
  cbn [iterator_Next it_rest storage_op db_faults]. cbn [snd].
  unfold iteration. rewrite Hbad. unfold fail, emit. cbn.
  eexists. split; [done|]. cbn [x_trace x_tree x_world x_batch x_db db_blocks].
  split.
  { cbn [removed].
    rewrite (removed_scheduled_events lastAcceptedHeight blks 0 [] _ [EvRelease]).
    simpl. by rewrite app_nil_r, (holds_blocks_keys parser todo blks Hholds). }
  split; [|done].
  match goal with
  | |- block_calls (?ev :: ?l) = _ => change (ev :: l) with ([ev] ++ l)
  end.
  rewrite !block_calls_app, (block_calls_scheduled_events lastAcceptedHeight).
  simpl. by rewrite app_nil_r.
Qed.

Lemma execute_parse_error_witness :
  ∃ s', execute None Sample.parser 0 10
          (mkDatabase (db_blocks (Sample.store 1 2) ++ (3, []) :: db_blocks (Sample.store 4 2))
             []) [mkInterval 1 5] []
        = Some (Some (ErrParse 0), s')
        ∧ removed (x_trace s') = [1; 2]
        ∧ x_tree s' = [mkInterval 3 5]
        ∧ x_world s' = [2%N; 1%N]
        ∧ x_batch s' = [OpDelete 1; OpDelete 2]
        ∧ db_blocks (x_db s')
          = db_blocks (Sample.store 1 2) ++ (3, []) :: db_blocks (Sample.store 4 2).
Proof.
  destruct (execute_parse_error None Sample.parser 0 (db_blocks (Sample.store 1 2))
              (Sample.blocks 1 2) 3 [] (ErrParse 0) (db_blocks (Sample.store 4 2))
              [mkInterval 1 5] [] 10)
    as (s' & Hrun & Hremoved & _ & Htree & Hworld & Hbatch & Hdb).
  - apply Sample_holds_blocks; lia.
  - reflexivity.
  - vm_compute. apply (NoDup_seqZ 1 5).
  - apply Sample_blocks_succeed.
  - reflexivity.
  - vm_compute. lia.
  - exists s'. split; [exact Hrun|]. split; [exact Hremoved|].
    split; [exact Htree|]. split; [exact Hworld|]. split; [exact Hbatch|exact Hdb].
Defined.

(** ** The acceptor decorator is transparent *)

(** X18. getMissingBlockIDs reads the parents of blocks only, which
    parseAcceptor.ParseBlock leaves as they are: on the wrapped parser it
    returns what it returns on the parser itself, the errors included. *)
Theorem getMissingBlockIDs_through_parseAcceptor {V}
    (hook : ID -> bytes -> V -> option error * V) (parser : Parser V)
    (db : Database) (tree : Tree) (lastAcceptedHeight : Z) :
  getMissingBlockIDs (parseAcceptor_ParseBlock hook parser) db tree lastAcceptedHeight
  = getMissingBlockIDs parser db tree lastAcceptedHeight.
Proof.
  unfold getMissingBlockIDs. generalize (∅ : gset ID) as acc. revert db.
  induction (Flatten tree) as [|i ivs IH]; intros db acc; [done|]. simpl.
  destruct (_ <=? _); [apply IH|].
  destruct (GetBlock db (LowerBound i)) as [[blkBytes|e] db']; [|done].
  unfold parseAcceptor_ParseBlock at 1.
  destruct (parser blkBytes) as [blk|e]; [|done]. apply IH.
Qed.

Section Transparent.
Context {V : Type}.
Variable hook : ID -> bytes -> V -> option error * V.
Variable ctx : Context.
Variable parser : Parser V.
Variable lastAcceptedHeight : Z.

(** The hook accepts every block and leaves the state alone. *)
Hypothesis hook_nil : ∀ blkID blkBytes v, hook blkID blkBytes v = (None, v).

Local Notation simulates on_acceptors on_blocks :=
  (∀ s : ExecState (AcceptorWorld V),
     on_blocks (inner_state s) = ((on_acceptors s).1, inner_state (on_acceptors s).2)).

Lemma writeBatch_inner : simulates writeBatch writeBatch.
Proof.
  intros [db tree w batch c64 it c1024 polls trace].
  unfold writeBatch, inner_state. cbn. destruct (c64 =? 0); [done|].
  by destruct (batch_Write batch db) as [[e|] db'].
Qed.

Lemma removeBlock_inner (height : Z) : simulates (removeBlock height) (removeBlock height).
Proof.
  intros [db tree w batch c64 it c1024 polls trace].
  unfold removeBlock, Remove, inner_state. cbn.
  by destruct (storage_op db) as [[e|] db'].
Qed.

Lemma countBatchWrite_inner : simulates countBatchWrite countBatchWrite.
Proof.
  intros s. unfold countBatchWrite.
  change (x_processedSinceBatchWrite (inner_state s))
    with (x_processedSinceBatchWrite s).
  destruct (batchWritePeriod <=? _); [|done].
  match goal with
  | |- writeBatch ?sv = ((writeBatch ?sw).1, _) =>
      change sv with (inner_state sw)
  end.
  apply writeBatch_inner.
Qed.

Lemma countIteratorRelease_inner : simulates countIteratorRelease countIteratorRelease.
Proof.
  intros [db tree w batch c64 it c1024 polls trace].
  unfold countIteratorRelease, inner_state.
  cbn [x_db x_tree x_world x_batch x_processedSinceBatchWrite x_iterator
       x_processedSinceIteratorRelease x_polls x_trace].
  destruct (iteratorReleasePeriod <=? _); [|done].
  unfold bind, check. cbn [x_iterator].
  destruct (iterator_Error it); [done|]. unfold ret.
  pose proof (writeBatch_inner
                (mkExecState db tree w batch c64 it (u64 (c1024 + 1)) polls trace))
    as Hw.
  unfold inner_state in Hw.
  cbn [x_db x_tree x_world x_batch x_processedSinceBatchWrite x_iterator
       x_processedSinceIteratorRelease x_polls x_trace] in Hw.
  rewrite Hw.
  destruct (writeBatch (mkExecState db tree w batch c64 it (u64 (c1024 + 1)) polls trace))
    as [[[]|e] s1]; done.
Qed.

Lemma verifyBlock_inner (inner : Block V) :
  simulates (verifyBlock (blockAcceptor hook inner)) (verifyBlock inner).
Proof.
  intros [db tree w batch c64 it c1024 polls trace].
  unfold verifyBlock, inner_state. cbn. unfold embedded.
  by destruct (blk_Verify inner (aw_inner w)) as [[e|] v].
Qed.

Lemma acceptBlock_inner (inner : Block V) :
  simulates (acceptBlock (blockAcceptor hook inner)) (acceptBlock inner).
Proof.
  intros [db tree w batch c64 it c1024 polls trace].
  unfold acceptBlock, inner_state. cbn. unfold blockAcceptor_Accept. cbn.
  rewrite hook_nil. cbn.
  by destruct (blk_Accept inner (aw_inner w)) as [[e|] v].
Qed.

Lemma bind_inner {A B} (m_acc : @Exec (AcceptorWorld V) A) (m_blk : @Exec V A)
    (k_acc : A → @Exec (AcceptorWorld V) B) (k_blk : A → @Exec V B) :
  simulates m_acc m_blk →
  (∀ a, simulates (k_acc a) (k_blk a)) →
  simulates (bind m_acc k_acc) (bind m_blk k_blk).
Proof.
  intros Hm Hk s. unfold bind. rewrite Hm.
  destruct (m_acc s) as [[a|e] s1]; [apply Hk|done].
Qed.

Lemma iteration_inner (blkBytes : bytes) :
  simulates (iteration (parseAcceptor_ParseBlock hook parser) lastAcceptedHeight blkBytes)
            (iteration parser lastAcceptedHeight blkBytes).
Proof.
  unfold iteration, parseAcceptor_ParseBlock.
  destruct (parser blkBytes) as [inner|e]; [|done].
  cbn [blk_Height blockAcceptor].
  apply bind_inner; [apply removeBlock_inner|intros _].
  apply bind_inner; [apply countBatchWrite_inner|intros _].
  apply bind_inner; [apply countIteratorRelease_inner|intros _].
  destruct (blk_Height inner <=? lastAcceptedHeight); [done|].
  apply bind_inner; [apply verifyBlock_inner|intros _]. apply acceptBlock_inner.
Qed.

Lemma loopCondition_inner (s : ExecState (AcceptorWorld V)) :
  loopCondition ctx (inner_state s)
  = ((loopCondition ctx s).1, inner_state (loopCondition ctx s).2).
Proof.
  destruct s as [db tree w batch c64 it c1024 polls trace].
  unfold loopCondition, inner_state. cbn.
  destruct (ctx_Err ctx polls); [done|].
  by destruct (iterator_Next it db) as [[kv it'] db'].
Qed.

Lemma executeLoop_inner (fuel : nat) :
  ∀ s : ExecState (AcceptorWorld V),
    executeLoop ctx parser lastAcceptedHeight fuel (inner_state s)
    = option_map (fun out => (out.1, inner_state out.2))
        (executeLoop ctx (parseAcceptor_ParseBlock hook parser) lastAcceptedHeight
           fuel s).
Proof.
  induction fuel as [|fuel IH]; intros s; [done|]. cbn [executeLoop].
  rewrite loopCondition_inner.
  destruct (loopCondition ctx s) as [[kv|] s1]; [|done]. cbn [fst snd].
  rewrite iteration_inner.
  destruct (iteration _ _ _ s1) as [[[]|e] s2]; [apply IH|done].
Qed.

Lemma afterLoop_inner : simulates (afterLoop ctx) (afterLoop ctx).
Proof.
  unfold afterLoop.
  apply bind_inner; [apply writeBatch_inner|intros _].
  apply bind_inner.
  - intros s. cbn [x_iterator inner_state]. by destruct (iterator_Error _).
  - intros _ s. cbn [x_polls inner_state]. by destruct (ctx_Err ctx (x_polls s)).
Qed.

End Transparent.

(** X19. With a hook that accepts every block and leaves the state alone, the
    decorator changes nothing of what [execute] does: on the wrapped parser it
    returns the same result and leaves the same store, tree, batch and trace
    as on the parser itself, and the state behind the wrapped blocks is the
    state that the run on the parser leaves. *)
Theorem execute_through_parseAcceptor {V} (hook : ID -> bytes -> V -> option error * V)
    (ctx : Context) (parser : Parser V) (lastAcceptedHeight : Z) (fuel : nat)
    (db : Database) (tree : Tree) (w : AcceptorWorld V) :
  (∀ blkID blkBytes v, hook blkID blkBytes v = (None, v)) →
  execute ctx parser lastAcceptedHeight fuel db tree (aw_inner w)
  = option_map (fun out => (out.1, inner_state out.2))
      (execute ctx (parseAcceptor_ParseBlock hook parser) lastAcceptedHeight fuel
         db tree w).
Proof.
  intros Hhook. unfold execute.
  match goal with
  | |- context [executeLoop ctx (parseAcceptor_ParseBlock hook parser) _ fuel ?sw] =>
      pose proof (executeLoop_inner hook ctx parser lastAcceptedHeight Hhook fuel sw)
        as Hloop
  end.
  unfold inner_state at 1 in Hloop. cbn in Hloop. rewrite Hloop.
  destruct (executeLoop ctx (parseAcceptor_ParseBlock hook parser) _ fuel _)
    as [[[[]|e] s1]|]; [|done..]. cbn [option_map fst snd].
  rewrite (afterLoop_inner ctx s1).
  by destruct (afterLoop ctx s1) as [[[]|e] s2].
Qed.

Lemma execute_through_parseAcceptor_witness :
  execute None Sample.parser 1 10 (Sample.store 1 3) [mkInterval 1 3] []
  = option_map (fun out => (out.1, inner_state out.2))
      (execute None (parseAcceptor_ParseBlock (fun _ _ v => (None, v)) Sample.parser)
         1 10 (Sample.store 1 3) [mkInterval 1 3] (mkAcceptorWorld 0 [] [])).
Proof.
  apply (execute_through_parseAcceptor (fun _ _ v => (None, v)) None Sample.parser
           1 10 (Sample.store 1 3) [mkInterval 1 3] (mkAcceptorWorld 0 [] [])).
  reflexivity.
Defined.

(** ** The hook under the Executor *)

Lemma accepted_IDs_app (t1 t2 : list Event) :
  accepted_IDs (t1 ++ t2) = accepted_IDs t1 ++ accepted_IDs t2.
Proof.
  induction t1 as [|ev t1 IH]; [done|]. destruct ev; simpl; by rewrite ?IH.
Qed.

Lemma accepted_IDs_block_calls (t : list Event) :
  accepted_IDs (block_calls t) = accepted_IDs t.
Proof.
  unfold block_calls. induction t as [|ev t IH]; [done|].
  destruct ev; simpl; by rewrite ?IH.
Qed.

Lemma hooked_IDs_app (calls1 calls2 : list AcceptorEvent) :
  hooked_IDs (calls1 ++ calls2) = hooked_IDs calls1 ++ hooked_IDs calls2.
Proof.
  induction calls1 as [|c calls1 IH]; [done|]. destruct c; simpl; by rewrite ?IH.
Qed.

Section HookOrder.
Context {V : Type}.
Variable hook : ID -> bytes -> V -> option error * V.
Variable parser : Parser V.

Lemma blockAcceptor_Accept_hooked (inner : Block V) (w : AcceptorWorld V) :
  hooked_IDs (aw_calls (blk_Accept (blockAcceptor hook inner) w).2)
  = hooked_IDs (aw_calls w) ++ [blk_ID inner].
Proof.
  simpl. rewrite blockAcceptor_Accept_unfold. simpl.
  destruct (hook _ _ _).1; simpl; rewrite !hooked_IDs_app; simpl;
    by rewrite ?app_nil_r.
Qed.

Lemma world_after_hooked (lastAcceptedHeight : Z)
    (blks : list (Block (AcceptorWorld V))) :
  ∀ w,
    Forall (fun blk => lastAcceptedHeight < blk_Height blk
                       ∧ ∃ blkBytes,
                           parseAcceptor_ParseBlock hook parser blkBytes = Ok blk) blks →
    hooked_IDs (aw_calls (world_after lastAcceptedHeight blks w))
    = hooked_IDs (aw_calls w) ++ accepted_IDs (flat_map executed_calls blks).
Proof.
  induction blks as [|blk blks IH]; intros w Hall; simpl.
  { by rewrite app_nil_r. }
  apply Forall_cons in Hall as [[Hh (blkBytes & Hparse)] Hall].
  rewrite (proj2 (Z.leb_gt _ _) Hh).
  apply (parseAcceptor_ParseBlock_Ok hook parser) in Hparse as (inner & _ & ->).
  rewrite (IH _ Hall), blockAcceptor_Accept_hooked.
  destruct (blockAcceptor_Verify_counter hook inner w) as [_ ->].
  by rewrite <- app_assoc.
Qed.

End HookOrder.

(** X20. When the Executor runs on the parser wrapped by parseAcceptor, the
    hook is passed the blocks on which [execute] calls Accept, each one once,
    in the order of these calls, the block whose Accept failed included: the
    blocks announced through the hook are those of the calls of Accept in the
    trace, whatever way [execute] returns. *)
Theorem execute_hooks_accepted_blocks {V} (hook : ID -> bytes -> V -> option error * V)
    (ctx : Context) (parser : Parser V) (lastAcceptedHeight : Z) (fuel : nat)
    (db : Database) (tree : Tree) (w : AcceptorWorld V)
    (r : option error) (s' : ExecState (AcceptorWorld V)) :
  execute ctx (parseAcceptor_ParseBlock hook parser) lastAcceptedHeight fuel db tree w
  = Some (r, s') →
  hooked_IDs (aw_calls (x_world s'))
  = hooked_IDs (aw_calls w) ++ accepted_IDs (x_trace s').
Proof.
  intros (blks & tail & Hc & Hp & _ & Hend)%execute_called.
  rewrite <- accepted_IDs_block_calls, Hc, accepted_IDs_app, app_assoc.
  rewrite <- (world_after_hooked hook parser lastAcceptedHeight blks w Hp).
  destruct Hend as [[-> ->]|[(blk & cause & (b & Hb) & _ & Hv & -> & _)
                            |(blk & cause & wv & (b & Hb) & _ & Hv & Ha & -> & _)]].
  - simpl. by rewrite app_nil_r.
  - apply (parseAcceptor_ParseBlock_Ok hook parser) in Hb as (inner & _ & ->).
    destruct (blockAcceptor_Verify_counter hook inner
                (world_after lastAcceptedHeight blks w)) as [_ Hvc].
    rewrite Hv in Hvc. simpl in Hvc. rewrite Hvc. simpl. by rewrite app_nil_r.
  - apply (parseAcceptor_ParseBlock_Ok hook parser) in Hb as (inner & _ & ->).
    destruct (blockAcceptor_Verify_counter hook inner
                (world_after lastAcceptedHeight blks w)) as [_ Hvc].
    rewrite Hv in Hvc. simpl in Hvc.
    pose proof (blockAcceptor_Accept_hooked hook inner wv) as Hac.
    rewrite Ha in Hac. simpl in Hac. rewrite Hac, Hvc. done.
Qed.

Lemma execute_hooks_accepted_blocks_witness :
  ∃ s' : ExecState (AcceptorWorld Sample.World),
    execute None
      (parseAcceptor_ParseBlock (fun _ _ v => (None, v)) Sample.parser) 1 10
      (Sample.store_with 1 5 4 2) [mkInterval 1 5] (mkAcceptorWorld 0 [] [])
    = Some (Some (ErrFailedAccept 4 4 (ErrVM 2)), s')
    ∧ accepted_IDs (x_trace s') = [2%N; 3%N; 4%N]
    ∧ hooked_IDs (aw_calls (x_world s')) = [2%N; 3%N; 4%N].
Proof.
  destruct (execute None
              (parseAcceptor_ParseBlock (fun _ _ v => (None, v)) Sample.parser) 1 10
              (Sample.store_with 1 5 4 2) [mkInterval 1 5] (mkAcceptorWorld 0 [] []))
    as [[r s']|] eqn:Hrun; [|by vm_compute in Hrun].
  assert (r = Some (ErrFailedAccept 4 4 (ErrVM 2))
          ∧ accepted_IDs (x_trace s') = [2%N; 3%N; 4%N]) as (-> & Hcalls).
  { vm_compute in Hrun. injection Hrun as <- <-. split; reflexivity. }
  pose proof (execute_hooks_accepted_blocks (fun _ _ v => (None, v)) None Sample.parser
                1 10 (Sample.store_with 1 5 4 2) [mkInterval 1 5]
                (mkAcceptorWorld 0 [] []) _ s' Hrun) as Hhooked.
  exists s'. split; [reflexivity|]. split; [exact Hcalls|].
  rewrite Hhooked, Hcalls. reflexivity.
Defined.
